(** * arrangeit: a shallow embedding of the arrangement engine

    The development follows the Go sources of the repository:
    - the data model ([Item], [Rule], [Group], [State]) and the digests,
    - the geometry helpers and the score engine,
    - the local-search driver ([getRandomState], [getBestNextStateFrom],
      [run], [GetArrangement]),
    - the earlier revision of the driver kept in [src/arrangeit.go]
      (module [PrioritySearch]),
    - the properties of the specification, stated over these definitions.

    Conventions.  Go's [int] is a 64-bit two's complement integer and is
    modelled by [Z], with the wrap-around written where the code does
    arithmetic on it; lengths and indices are [nat]; [uint64] is a [Z] taken
    modulo [2^64]; [float64] is Rocq's primitive binary64 float, so every
    arithmetic operation and comparison is the IEEE-754 one that the Go
    program performs (operations are rounded one by one, as on amd64);
    Go maps are [gmap]s.  A pointer to an [Item] is modelled by the item's
    value: the engine never compares item pointers. *)

From Stdlib Require Import ZArith Lia PrimFloat Uint63 Sorted Ascii OrderedTypeEx.
From Stdlib Require Import SpecFloat FloatOps FloatAxioms.
From stdpp Require Import base list strings gmap.

Open Scope Z_scope.

(** ** Machine numbers *)

(** Go's [int] on a 64-bit platform. *)
Definition int_min : Z := - 2 ^ 63.
Definition int_max : Z := 2 ^ 63 - 1.
Definition int_range (z : Z) : Prop := int_min <= z <= int_max.

(** Wrap-around of a mathematical integer to [int]. *)
Definition wrap_int (z : Z) : Z := (z + 2 ^ 63) mod 2 ^ 64 - 2 ^ 63.

Definition int_add (a b : Z) : Z := wrap_int (a + b).
Definition int_sub (a b : Z) : Z := wrap_int (a - b).
Definition int_mul (a b : Z) : Z := wrap_int (a * b).

(** Wrap-around to [uint64]. *)
Definition wrap_uint64 (z : Z) : Z := z mod 2 ^ 64.

(** [float64(n)] for an [int] [n]: the conversion rounds to nearest even. *)
Definition float64_of_int (z : Z) : float :=
  let magnitude (m : Z) : float :=
    if m <? 2 ^ 63 then of_uint63 (Uint63.of_Z m) else 0x1p+63%float in
  if z <? 0 then PrimFloat.opp (magnitude (- z)) else magnitude z.

(** [math.MaxFloat64]. *)
Definition MaxFloat64 : float := 0x1.fffffffffffffp+1023%float.

(** [math.Pow(x, 2)] for the positive counts the engine passes: Go squares
    the fraction of [x] with one rounded multiplication and rescales by a
    power of two, which is the rounded product [x * x]. *)
Definition Pow2 (x : float) : float := (x * x)%float.

(** Go's [a > b] and [a < b] on [float64]. *)
Definition float_gt (a b : float) : bool := (b <? a)%float.
Definition float_lt (a b : float) : bool := (a <? b)%float.

(** ** Outcomes of running Go code

    A call either returns, panics, or never returns.  [Diverges] is produced
    by a loop that makes no progress, or by a loop whose fuel ran out. *)
Inductive outcome (A : Type) : Type :=
| Ret (a : A)
| Panic (msg : string)
| Diverges.
Arguments Ret {A} a.
Arguments Panic {A} msg.
Arguments Diverges {A}.

#[global] Instance outcome_ret : MRet outcome := fun A a => Ret a.
#[global] Instance outcome_bind : MBind outcome := fun A B f m =>
  match m with
  | Ret a => f a
  | Panic msg => Panic msg
  | Diverges => Diverges
  end.

(** [for _, a := range l { st = body a st }] *)
Fixpoint forRange {A S : Type} (l : list A) (body : A -> S -> outcome S) (st : S)
  : outcome S :=
  match l with
  | [] => Ret st
  | a :: l' => st' ← body a st; forRange l' body st'
  end.

(** [for i := i0; i < bound(st); i++ { st = body i st }].  The bound is read
    from the current state at every test, as in Go; the loop runs out of
    [fuel] only if the bound keeps moving away. *)
Fixpoint forUpTo {S : Type} (fuel : nat) (i : nat) (bound : S -> nat)
    (body : nat -> S -> outcome S) (st : S) : outcome S :=
  if (i <? bound st)%nat then
    match fuel with
    | O => Diverges
    | Datatypes.S fuel' => st' ← body i st; forUpTo fuel' (Datatypes.S i) bound body st'
    end
  else Ret st.

(** ** sort.Slice

    For slices of fewer than twelve elements Go's [sort.Slice] is this
    insertion sort: element [i] sinks to the left while it is [less] than its
    left neighbour.  The sorted prefix is kept in reverse, its last element
    first.  (Longer slices go through a quicksort; both produce a permutation
    that is sorted for [less], which is all the digests depend on.) *)
Section SortSlice.
Context {A : Type} (less : A -> A -> bool).

Fixpoint sink (a : A) (rprefix : list A) : list A :=
  match rprefix with
  | [] => [a]
  | b :: r => if less a b then b :: sink a r else a :: rprefix
  end.

Definition sort_Slice (l : list A) : list A :=
  rev (fold_left (fun rprefix a => sink a rprefix) l []).
End SortSlice.

(** Go's [!(b < a)], the order a sorted slice is sorted by. *)
Definition notAfter {A : Type} (less : A -> A -> bool) (a b : A) : Prop :=
  less b a = false.

(** ** hash/fnv and encoding/binary *)

Module fnv.
Definition offset64 : Z := 14695981039346656037.
Definition prime64 : Z := 1099511628211.

(** [fnv.New64()]: the FNV-1 hash, multiply then xor. *)
Definition New64 : Z := offset64.

Definition Write (h : Z) (data : list Z) : Z :=
  fold_left (fun hash c => Z.lxor (wrap_uint64 (hash * prime64)) c) data h.

Definition Sum64 (h : Z) : Z := h.
End fnv.

(** [[]byte(s)] *)
Definition bytes_of_string (s : string) : list Z :=
  map (fun c => Z.of_N (Ascii.N_of_ascii c)) (String.list_ascii_of_string s).

Module binary.
Definition MaxVarintLen64 : nat := 10.

(** [binary.PutUvarint(buf, x)]: seven bits per byte, least significant
    group first, the high bit marking continuation.  A [uint64] needs at
    most ten bytes, so the counter never runs out and no index leaves
    [buf]; bytes of [buf] past the encoding keep their old contents. *)
Fixpoint PutUvarint_from (n : nat) (i : nat) (buf : list Z) (x : Z) : list Z :=
  match n with
  | O => <[i := x mod 256]> buf
  | Datatypes.S n' =>
      if 128 <=? x
      then PutUvarint_from n' (Datatypes.S i) (<[i := Z.lor (x mod 256) 128]> buf) (Z.shiftr x 7)
      else <[i := x mod 256]> buf
  end.

Definition PutUvarint (buf : list Z) (x : Z) : list Z :=
  PutUvarint_from MaxVarintLen64 0 buf x.
End binary.

(** ** Data model *)

Record point : Type := Point { pt_x : float; pt_y : float }.

Record Item : Type := mkItem {
  ID : string;
  Tags : gmap string string;
  (** the engine's parsed coordinates; the nil map is the empty map *)
  nearnessTags : gmap string point
}.

(** [item.Tags[name]]: a missing key reads as the empty string. *)
Definition tagValue (item : Item) (name : string) : string :=
  default "" (Tags item !! name).

Definition RuleType : Type := string.
Definition RuleTypeSameness : RuleType := "Sameness".
Definition RuleTypeRelationship : RuleType := "Relationship".
Definition RuleTypeNearness : RuleType := "Nearness".

Record Rule : Type := mkRule {
  TagName : string;
  Type_ : RuleType;
  Weight : Z
}.

Record Group : Type := mkGroup {
  Name : string;
  MinSize : Z;
  MaxSize : Z;
  Items : list Item
}.

Definition setItems (g : Group) (its : list Item) : Group :=
  mkGroup (Name g) (MinSize g) (MaxSize g) its.

(** [len(g.Items)] as an [int]. *)
Definition lenItems (g : Group) : Z := Z.of_nat (length (Items g)).

Record State : Type := mkState {
  Groups : list Group;
  ItemsNotInGroups : list Item;
  Score : float
}.

Definition setScore (s : State) (sc : float) : State :=
  mkState (Groups s) (ItemsNotInGroups s) sc.

Definition setGroups (s : State) (gs : list Group) : State :=
  mkState gs (ItemsNotInGroups s) (Score s).

(** ** Digests *)

(** [Group.digest]: the items are sorted by ID on a copy, and the IDs are
    hashed in that order. *)
Definition Group_digest (g : Group) : Z :=
  let itemsSorted := sort_Slice (fun a b => String.ltb (ID a) (ID b)) (Items g) in
  fnv.Sum64
    (fold_left (fun h item => fnv.Write h (bytes_of_string (ID item))) itemsSorted fnv.New64).

(** The earlier revision of [Group.digest] hashes the IDs in slice order. *)
Definition Group_digest_unsorted (g : Group) : Z :=
  fnv.Sum64
    (fold_left (fun h item => fnv.Write h (bytes_of_string (ID item))) (Items g) fnv.New64).

(** [State.digest]: the group digests are sorted, each is written as a
    varint into the same ten-byte buffer, and the whole buffer is hashed. *)
Definition State_digest (s : State) : Z :=
  let digests := sort_Slice Z.ltb (map Group_digest (Groups s)) in
  let buf := replicate binary.MaxVarintLen64 0 in
  fnv.Sum64
    (snd (fold_left
            (fun '(buf, h) d => let buf' := binary.PutUvarint buf d in (buf', fnv.Write h buf'))
            digests (buf, fnv.New64))).

(** [Group.Copy] and [State.Copy]: new containers over the same items.  The
    copy of a state starts with the zero [Score]. *)
Definition Group_Copy (g : Group) : Group :=
  mkGroup (Name g) (MinSize g) (MaxSize g) ([] ++ Items g).

Definition State_Copy (s : State) : State :=
  mkState (map Group_Copy (Groups s)) ([] ++ ItemsNotInGroups s) 0%float.

Definition IsTerminal (s : State) : bool :=
  (length (ItemsNotInGroups s) =? 0)%nat.

(** ** The runner *)

(** The errors [run] returns: "bad configuration: there are %d items to
    arrange but only %d possible slots", and, in the earlier revision only,
    "failed to discover any workable state". *)
Inductive error : Type :=
| BadConfiguration (numItems : nat) (numSlots : Z)
| NoWorkableState.

Record runner : Type := mkRunner {
  items : list Item;
  rules : list Rule;
  groups : list Group;
  bestState : option State;
  (** [maxDistributionByTagName] memoises a value that depends on [items]
      and the tag only; [maxDistributionForTag] below recomputes it. *)
  statesTried : list Z;
  (** [None] is the nil slice of the first call of [getRandomState] *)
  currentPermutation : option (list nat)
}.

Definition set_bestState (r : runner) (b : option State) : runner :=
  mkRunner (items r) (rules r) (groups r) b (statesTried r) (currentPermutation r).
Definition set_statesTried (r : runner) (t : list Z) : runner :=
  mkRunner (items r) (rules r) (groups r) (bestState r) t (currentPermutation r).
Definition set_currentPermutation (r : runner) (p : option (list nat)) : runner :=
  mkRunner (items r) (rules r) (groups r) (bestState r) (statesTried r) p.
Definition set_items (r : runner) (its : list Item) : runner :=
  mkRunner its (rules r) (groups r) (bestState r) (statesTried r) (currentPermutation r).

Section Engine.

(** [strings.TrimSpace] and [strconv.ParseFloat(_, 64)] belong to Go's
    library; [ParseFloat] answers [None] where Go returns an error. *)
Variable TrimSpace : string -> string.
Variable ParseFloat : string -> option float.

(** *** Geometry *)

(** [strings.Split(str, ",")] *)
Fixpoint Split_comma (str : string) : list string :=
  match str with
  | EmptyString => [""%string]
  | String c rest =>
      if Ascii.eqb c ","%char then ""%string :: Split_comma rest
      else match Split_comma rest with
           | [] => [String c ""]
           | part :: parts => String c part :: parts
           end
  end.

Definition parsePoint (str : string) : option point :=
  match Split_comma str with
  | [px; py] =>
      match ParseFloat (TrimSpace px) with
      | None => None
      | Some vx =>
          match ParseFloat (TrimSpace py) with
          | None => None
          | Some vy => Some (Point vx vy)
          end
      end
  | _ => None
  end.

(** The body of the inner loop of [populateNearnessTagPoints]. *)
Definition populateItem (tagName : string) (item : Item) : Item :=
  let val := tagValue item tagName in
  if String.eqb val "" then item
  else match parsePoint val with
       | None => item
       | Some p => mkItem (ID item) (Tags item) (<[tagName := p]> (nearnessTags item))
       end.

Definition populateNearnessTagPoints (rs : list Rule) (its : list Item) : list Item :=
  fold_left
    (fun its rule =>
       if (Weight rule =? 0) || negb (String.eqb (Type_ rule) RuleTypeNearness)
       then its
       else map (populateItem (TagName rule)) its)
    rs its.

Definition clearNearnessTagPoints (its : list Item) : list Item :=
  map (fun item => mkItem (ID item) (Tags item) ∅) its.

(** The running bounding box of [getDistribution] and
    [getGroupDistribution]. *)
Record bbox : Type := mkBbox {
  maxX : float; minX : float; maxY : float; minY : float; numPoints : nat
}.

Definition bbox_zero : bbox := mkBbox 0 0 0 0 0.

Definition bbox_add (b : bbox) (p : point) : bbox :=
  if (0 <? numPoints b)%nat then
    mkBbox (if float_gt (pt_x p) (maxX b) then pt_x p else maxX b)
           (if float_lt (pt_x p) (minX b) then pt_x p else minX b)
           (if float_gt (pt_y p) (maxY b) then pt_y p else maxY b)
           (if float_lt (pt_y p) (minY b) then pt_y p else minY b)
           (S (numPoints b))
  else mkBbox (pt_x p) (pt_x p) (pt_y p) (pt_y p) (S (numPoints b)).

Definition bbox_spread (b : bbox) : float :=
  if (0 <? numPoints b)%nat
  then ((maxX b - minX b) + (maxY b - minY b))%float
  else 0%float.

(** The points a group contributes for a tag, in slice order. *)
Definition groupPoints (its : list Item) (tagName : string) : list point :=
  omap (fun item => nearnessTags item !! tagName) its.

Definition getGroupDistribution (group : Group) (tagName : string) : float * nat :=
  let b := fold_left
             (fun b item =>
                match nearnessTags item !! tagName with
                | Some p => bbox_add b p
                | None => b
                end)
             (Items group) bbox_zero in
  (bbox_spread b, numPoints b).

Definition getDistribution (points : list point) : float :=
  match points with
  | [] => 0%float
  | p0 :: rest =>
      let b := fold_left bbox_add rest (mkBbox (pt_x p0) (pt_x p0) (pt_y p0) (pt_y p0) 1) in
      ((maxX b - minX b) + (maxY b - minY b))%float
  end.

(** The points [maxDistributionForTag] collects from all items. *)
Definition allPoints (its : list Item) (tagName : string) : list point :=
  omap (fun item =>
          let val := tagValue item tagName in
          if String.eqb val "" then None else parsePoint val)
       its.

Definition maxDistributionForTag (r : runner) (tagName : string) : float :=
  getDistribution (allPoints (items r) tagName).

(** *** Score engine *)

(** [tagOccurrencesInGroup] after the counting loop. *)
Definition tagOccurrences (tagName : string) (its : list Item) : gmap string nat :=
  fold_left
    (fun occ item =>
       let val := tagValue item tagName in
       if String.eqb val "" then occ
       else <[val := S (default O (occ !! val))]> occ)
    its ∅.

(** One group's share of a Sameness rule.  Go ranges over the map in an
    unspecified order; [map_fold] fixes one.  The terms are whole numbers,
    so the sum is the same in every order as long as it stays below [2^53];
    for weights beyond that the sum in Go depends on the order met, and this
    definition gives one of the possible values. *)
Definition samenessGroup (rule : Rule) (score : float) (group : Group) : float :=
  map_fold
    (fun (_ : string) (count : nat) (score : float) =>
       (score + float64_of_int (Weight rule) * Pow2 (float64_of_int (Z.of_nat count)))%float)
    score (tagOccurrences (TagName rule) (Items group)).

Definition nearnessGroup (r : runner) (rule : Rule) (score : float) (group : Group) : float :=
  let '(distribution, n) := getGroupDistribution group (TagName rule) in
  let distributionRatio := (distribution / maxDistributionForTag r (TagName rule))%float in
  (score + float64_of_int (Weight rule) * float64_of_int (Z.of_nat n) * (1 - distributionRatio))%float.

(** One iteration of the loop over the rules in [CalculateCurrentScore]. *)
Definition scoreRule (r : runner) (s : State) (rule : Rule) (score : float) : outcome float :=
  if Weight rule =? 0 then Ret score
  else if String.eqb (Type_ rule) RuleTypeSameness then
    Ret (fold_left (samenessGroup rule) (Groups s) score)
  else if String.eqb (Type_ rule) RuleTypeRelationship then
    Panic "RuleTypeRelationship not yet implemented"
  else if String.eqb (Type_ rule) RuleTypeNearness then
    Ret (fold_left (nearnessGroup r rule) (Groups s) score)
  else Ret score.

Definition CalculateCurrentScore (r : runner) (s : State) : outcome float :=
  forRange (rules r) (scoreRule r s) 0%float.

(** The filling loop of the Nearness heuristic. *)
Fixpoint fillGroups (weight : Z) (maxDist : float) (groupsToFill : list (float * Z))
    (itemsWithPoints : Z) (maxScore : float) : float :=
  match groupsToFill with
  | [] => maxScore
  | (distribution, slotsLeft) :: rest =>
      if 0 <? itemsWithPoints then
        let numToFill := if slotsLeft <=? itemsWithPoints then slotsLeft else itemsWithPoints in
        let distributionRatio := (distribution / maxDist)%float in
        fillGroups weight maxDist rest (int_sub itemsWithPoints numToFill)
          (maxScore + float64_of_int weight * float64_of_int numToFill * (1 - distributionRatio))%float
      else maxScore
  end.

(** One rule's share of the heuristic.  The groups to fill are sorted with
    [sort_Slice], which is what Go runs on short slices and keeps groups of
    equal spread in slice order; on longer slices Go's [sort.Slice] may order
    groups of equal spread differently, and the sum below can then differ
    from this one in its last bit. *)
Definition potentialRule (r : runner) (s : State) (rule : Rule) (maxScore : float)
  : outcome float :=
  if Weight rule =? 0 then Ret maxScore
  else if String.eqb (Type_ rule) RuleTypeSameness then
    if Weight rule <? 0 then Ret maxScore
    else Ret (maxScore
              + float64_of_int (int_mul (Weight rule) (Z.of_nat (length (ItemsNotInGroups s)))))%float
  else if String.eqb (Type_ rule) RuleTypeRelationship then
    Panic "RuleTypeRelationship not yet implemented"
  else if String.eqb (Type_ rule) RuleTypeNearness then
    if Weight rule <? 0 then Ret maxScore
    else
      let itemsWithPoints :=
        Z.of_nat (length (groupPoints (ItemsNotInGroups s) (TagName rule))) in
      let groupsToFill :=
        omap (fun group =>
                let slotsLeft := int_sub (MaxSize group) (lenItems group) in
                if 0 <? slotsLeft
                then Some (fst (getGroupDistribution group (TagName rule)), slotsLeft)
                else None)
             (Groups s) in
      let sorted := sort_Slice (fun a b => float_lt (fst a) (fst b)) groupsToFill in
      Ret (fillGroups (Weight rule) (maxDistributionForTag r (TagName rule))
             sorted itemsWithPoints maxScore)
  else Ret maxScore.

Definition CalculateMaxPotentialScore (r : runner) (s : State) : outcome float :=
  maxScore ← CalculateCurrentScore r s;
  forRange (rules r) (potentialRule r s) maxScore.

(** A terminal state with a non-empty group below its [MinSize]. *)
Definition undersized (g : Group) : bool :=
  (0 <? lenItems g) && (lenItems g <? MinSize g).

Definition CalculateScore (r : runner) (s : State) : outcome float :=
  if negb (IsTerminal s) then CalculateMaxPotentialScore r s
  else if existsb undersized (Groups s) then Ret (- MaxFloat64)%float
  else CalculateCurrentScore r s.

(** *** Search driver *)

Definition validateInput (r : runner) : option error :=
  let numSlots := fold_left (fun n group => int_add n (MaxSize group)) (groups r) 0 in
  if numSlots <? Z.of_nat (length (items r))
  then Some (BadConfiguration (length (items r)) numSlots)
  else None.

(** The loop that moves [currentPermutation] to the next index vector,
    entered at [i = len - 1]. *)
Fixpoint incrementPermutation (i : nat) (perm : list nat) : list nat :=
  match i with
  | O => alter S O perm
  | S i' =>
      if (default O (perm !! i) <? length perm - i - 1)%nat
      then alter S i perm
      else incrementPermutation i' (<[i := O]> perm)
  end.

(** [l[i], l[j] = l[j], l[i]] *)
Definition swapAt {A : Type} (i j : nat) (l : list A) : outcome (list A) :=
  match l !! i, l !! j with
  | Some a, Some b => Ret (<[j := a]> (<[i := b]> l))
  | _, _ => Panic "index out of range"
  end.

Definition applyPermutation (perm : list nat) (its : list Item) : outcome (list Item) :=
  forRange (zip (seq 0 (length perm)) perm)
           (fun '(i, v) nextPerm => swapAt i (i + v) nextPerm)
           ([] ++ its).

(** The first filling loop, for one group: take items while the group is
    below its [MinSize]. *)
Fixpoint fillToMin (group : Group) (rest : list Item) : Group * list Item :=
  match rest with
  | [] => (group, [])
  | item :: rest' =>
      if lenItems group <? MinSize group
      then fillToMin (setItems group (Items group ++ [item])) rest'
      else (group, rest)
  end.

Fixpoint fillAllToMin (gs : list Group) (rest : list Item) : list Group * list Item :=
  match gs with
  | [] => ([], rest)
  | group :: gs' =>
      let '(group', rest') := fillToMin group rest in
      let '(gs'', rest'') := fillAllToMin gs' rest' in
      (group' :: gs'', rest'')
  end.

(** One pass of the inner round-robin loop; it is entered with items left
    and breaks when the last one is placed. *)
Fixpoint roundRobinPass (gs : list Group) (rest : list Item) : list Group * list Item :=
  match gs with
  | [] => ([], rest)
  | group :: gs' =>
      if lenItems group =? MaxSize group then
        let '(gs'', rest') := roundRobinPass gs' rest in (group :: gs'', rest')
      else
        match rest with
        | [] => (gs, [])
        | item :: rest' =>
            let group' := setItems group (Items group ++ [item]) in
            match rest' with
            | [] => (group' :: gs', [])
            | _ :: _ =>
                let '(gs'', rest'') := roundRobinPass gs' rest' in (group' :: gs'', rest'')
            end
        end
  end.

(** The outer round-robin loop.  A pass that places nothing leaves the
    state as it was, so the Go loop spins forever; otherwise every pass
    places an item and [length rest] passes are enough. *)
Fixpoint roundRobin (fuel : nat) (gs : list Group) (rest : list Item)
  : outcome (list Group) :=
  match rest with
  | [] => Ret gs
  | _ :: _ =>
      match fuel with
      | O => Diverges
      | S fuel' => let '(gs', rest') := roundRobinPass gs rest in roundRobin fuel' gs' rest'
      end
  end.

Definition emptyGroup (group : Group) : Group :=
  mkGroup (Name group) (MinSize group) (MaxSize group) [].

(** The second half of [getRandomState]: scatter the permuted items over
    fresh copies of the group templates and score the result. *)
Definition scatter (r : runner) (perm : list nat) : outcome State :=
  nextPerm ← applyPermutation perm (items r);
  let '(gs, rest) := fillAllToMin (map emptyGroup (groups r)) nextPerm in
  gs' ← roundRobin (length rest) gs rest;
  let s := mkState gs' [] 0%float in
  score ← CalculateScore r s;
  Ret (setScore s score).

(** [getRandomState]: the next state, or [None] for Go's nil once the
    permutations are exhausted, together with the updated runner. *)
Definition getRandomState (r : runner) : outcome (option State * runner) :=
  match currentPermutation r with
  | None =>
      let perm := replicate (length (items r)) O in
      s ← scatter r perm;
      Ret (Some s, set_currentPermutation r (Some perm))
  | Some perm =>
      let perm' :=
        match length perm with
        | O => perm
        | S i => incrementPermutation i perm
        end in
      match perm' with
      | [] => Panic "index out of range"
      | p0 :: _ =>
          let r' := set_currentPermutation r (Some perm') in
          if (length perm' <=? p0)%nat then Ret (None, r')
          else s ← scatter r perm'; Ret (Some s, r')
      end
  end.

(** Deleting [l[i]] by overwriting it with the last element and dropping
    the last cell. *)
Definition removeSwap {A : Type} (i : nat) (l : list A) : list A :=
  match last l with
  | None => l
  | Some x => take (length l - 1)%nat (<[i := x]> l)
  end.

(** The variables [bestOption] and [s] of [getBestNextStateFrom]. *)
Record search : Type := mkSearch { bestOption : State; cur : State }.

(** Inside the swap loop [g1] and [g2] keep pointing to the groups of the
    state they were read from.  After [bestOption = s; s = sourceState.Copy()]
    that state is [bestOption], and after a second such step it is a state
    no variable refers to any more. *)
Inductive alias : Type :=
| InCur
| InBest
| Detached (old : State).

Record swapping : Type := mkSwapping { sw_best : State; sw_cur : State; sw_alias : alias }.

Definition target (st : swapping) : State :=
  match sw_alias st with
  | InCur => sw_cur st
  | InBest => sw_best st
  | Detached old => old
  end.

Definition putTarget (st : swapping) (t : State) : swapping :=
  match sw_alias st with
  | InCur => mkSwapping (sw_best st) t InCur
  | InBest => mkSwapping t (sw_cur st) InBest
  | Detached _ => mkSwapping (sw_best st) (sw_cur st) (Detached t)
  end.

(** [g1.Items[i], g2.Items[i2] = g2.Items[i2], g1.Items[i]] on the groups
    at [gIndex1] and [gIndex2] of [t]. *)
Definition swapItems (gIndex1 i gIndex2 i2 : nat) (t : State) : outcome State :=
  match Groups t !! gIndex1, Groups t !! gIndex2 with
  | Some g1, Some g2 =>
      match Items g1 !! i, Items g2 !! i2 with
      | Some a, Some b =>
          Ret (setGroups t
                 (<[gIndex2 := setItems g2 (<[i2 := a]> (Items g2))]>
                    (<[gIndex1 := setItems g1 (<[i := b]> (Items g1))]> (Groups t))))
      | _, _ => Panic "index out of range"
      end
  | _, _ => Panic "index out of range"
  end.

Definition trySwap (r : runner) (sourceState : State) (gIndex1 i gIndex2 i2 : nat)
    (st : swapping) : outcome swapping :=
  t ← swapItems gIndex1 i gIndex2 i2 (target st);
  let st1 := putTarget st t in
  score ← CalculateScore r (sw_cur st1);
  let st2 := mkSwapping (sw_best st1) (setScore (sw_cur st1) score) (sw_alias st1) in
  if float_gt score (Score (sw_best st2)) then
    Ret (mkSwapping (sw_cur st2) (State_Copy sourceState)
           (match sw_alias st2 with
            | InCur => InBest
            | InBest => Detached (sw_best st2)
            | Detached old => Detached old
            end))
  else
    t' ← swapItems gIndex1 i gIndex2 i2 (target st2);
    Ret (putTarget st2 t').

(** [len(t.Groups[gIndex].Items)]; the index comes from a range over the
    groups, so it is never out of range. *)
Definition lenGroupItems (t : State) (gIndex : nat) : nat :=
  from_option (fun g => length (Items g)) O (Groups t !! gIndex).

(** The body of the loop over [gIndex2]. *)
Definition tryGroup (r : runner) (sourceState : State) (gIndex1 i gIndex2 : nat)
    (st : search) : outcome search :=
  match Groups (cur st) !! gIndex1, Groups (cur st) !! gIndex2 with
  | Some g1, Some g2 =>
      if (gIndex1 =? gIndex2)%nat then Ret st
      else if lenItems g2 <? MaxSize g2 then
        match Items g1 !! i with
        | None => Panic "index out of range"
        | Some item =>
            let moved :=
              setGroups (cur st)
                (<[gIndex1 := setItems g1 (removeSwap i ([] ++ Items g1))]>
                   (<[gIndex2 := setItems g2 (Items g2 ++ [item])]> (Groups (cur st)))) in
            score ← CalculateScore r moved;
            if float_gt score (Score (bestOption st))
            then Ret (mkSearch (setScore moved score) (State_Copy sourceState))
            else Ret (mkSearch (bestOption st) (setScore (cur st) score))
        end
      else
        st' ← forUpTo (length (Items g2)) O
                (fun st => lenGroupItems (target st) gIndex2)
                (trySwap r sourceState gIndex1 i gIndex2)
                (mkSwapping (bestOption st) (cur st) InCur);
        Ret (mkSearch (sw_best st') (sw_cur st'))
  | _, _ => Panic "index out of range"
  end.

Definition getBestNextStateFrom (r : runner) (sourceState : State) : outcome State :=
  let st0 := mkSearch sourceState (State_Copy sourceState) in
  st ← forRange (seq 0 (length (Groups (cur st0))))
         (fun gIndex1 st =>
            forUpTo (lenGroupItems sourceState gIndex1) O
              (fun st => lenGroupItems (cur st) gIndex1)
              (fun i st =>
                 forRange (seq 0 (length (Groups (cur st))))
                   (tryGroup r sourceState gIndex1 i) st)
              st)
         st0;
  Ret (bestOption st).

(** The main loop of [run].  [ctx k] tells whether the context is done at
    the [k]-th call of [quitting]. *)
Fixpoint mainLoop (fuel : nat) (ctx : nat -> bool) (k : nat) (r : runner) (next : State)
  : outcome runner :=
  match fuel with
  | O => Diverges
  | S fuel' =>
      if ctx k then Ret r
      else
        let digest := State_digest next in
        if existsb (Z.eqb digest) (statesTried r) then
          '(next', r') ← getRandomState r;
          match next' with
          | None => Ret r'
          | Some n => mainLoop fuel' ctx (S k) r' n
          end
        else
          let r1 := set_statesTried r (digest :: statesTried r) in
          best ← getBestNextStateFrom r1 next;
          if float_gt (Score best) (Score next) then mainLoop fuel' ctx (S k) r1 best
          else
            match bestState r1 with
            | None => Panic "nil pointer dereference"
            | Some b =>
                let r2 := if float_gt (Score next) (Score b)
                          then set_bestState r1 (Some next) else r1 in
                '(next', r3) ← getRandomState r2;
                match next' with
                | None => Ret r3
                | Some n => mainLoop fuel' ctx (S k) r3 n
                end
            end
  end.

(** What the caller sees of a group once the deferred
    [clearNearnessTagPoints] has run on the shared items. *)
Definition clearGroup (g : Group) : Group :=
  setItems g (clearNearnessTagPoints (Items g)).

Definition run (fuel : nat) (ctx : nat -> bool) (r : runner)
  : outcome ((list Group + error) * runner) :=
  match validateInput r with
  | Some err => Ret (inr err, r)
  | None =>
      let r0 := set_items r (populateNearnessTagPoints (rules r) (items r)) in
      '(first, r1) ← getRandomState r0;
      match first with
      | None => Panic "nil pointer dereference"
      | Some next =>
          r2 ← mainLoop fuel ctx O (set_bestState r1 (Some next)) next;
          match bestState r2 with
          | None => Panic "nil pointer dereference"
          | Some b =>
              Ret (inl (map clearGroup (Groups b)),
                   set_items r2 (clearNearnessTagPoints (items r2)))
          end
      end
  end.

Definition newRunner (its : list Item) (rs : list Rule) (gs : list Group) : runner :=
  mkRunner its rs gs None [] None.

Definition GetArrangement (fuel : nat) (ctx : nat -> bool)
    (its : list Item) (rs : list Rule) (gs : list Group) : outcome (list Group + error) :=
  '(res, _) ← run fuel ctx (newRunner its rs gs); Ret res.

End Engine.

(** ** Extra stuff *)

(** [factorial]; the multiplications are [int] multiplications.  (For the
    greatest [int] the Go loop never ends, its counter wraps around; the
    model covers every other argument.) *)
Definition factorial (n : Z) : Z :=
  if n <=? 0 then 1
  else fold_left (fun final i => int_mul final i) (map Z.of_nat (seq 1 (Z.to_nat n))) 1.

(** ** The command line: items from CSV records

    [readItemsFromCSV] of [main.go], from the records that [getRecords] has
    read: there is at least the header row. *)

(** The loop over [record[1:]] that fills [item.Tags]. *)
Definition readTags (columnNames values : list string) : outcome (gmap string string) :=
  forRange (zip (seq 0 (length values)) values)
    (fun '(i, columnValue) tags =>
       match columnNames !! i with
       | Some name => Ret (<[name := columnValue]> tags)
       | None => Panic "index out of range"
       end)
    ∅.

Definition readItemsFromCSV (records : list (list string)) : outcome (list Item) :=
  match records with
  | [] => Panic "index out of range"
  | [] :: _ => Panic "slice bounds out of range"
  | (_ :: columnNames) :: records =>
      forRange records
        (fun record items =>
           match record with
           | [] => Ret items
           | id :: values =>
               tags ← readTags columnNames values;
               Ret (items ++ [mkItem id tags ∅])
           end)
        []
  end.

(** ** The earlier revision: priority search over partial states

    [src/arrangeit.go] holds an earlier revision of the engine.  It shares
    the data model, the validation, the coordinate parsing and the heuristic
    with the revision above, scores Sameness with [weight * (count - 1)],
    and searches partial states from a frontier kept sorted by score. *)

Module PrioritySearch.

Section Engine.

Variable TrimSpace : string -> string.
Variable ParseFloat : string -> option float.

Definition getGroupDistribution (group : Group) (tagName : string) : float * nat :=
  let points := groupPoints (Items group) tagName in
  (getDistribution points, length points).

Definition samenessGroup (rule : Rule) (score : float) (group : Group) : float :=
  map_fold
    (fun (_ : string) (count : nat) (score : float) =>
       (score + float64_of_int (int_mul (Weight rule) (int_sub (Z.of_nat count) 1)))%float)
    score (tagOccurrences (TagName rule) (Items group)).

Definition nearnessGroup (r : runner) (rule : Rule) (score : float) (group : Group) : float :=
  let '(distribution, n) := getGroupDistribution group (TagName rule) in
  let distributionRatio :=
    (distribution / maxDistributionForTag TrimSpace ParseFloat r (TagName rule))%float in
  (score + float64_of_int (Weight rule) * float64_of_int (Z.of_nat n) * (1 - distributionRatio))%float.

Definition scoreRule (r : runner) (s : State) (rule : Rule) (score : float) : outcome float :=
  if Weight rule =? 0 then Ret score
  else if String.eqb (Type_ rule) RuleTypeSameness then
    Ret (fold_left (samenessGroup rule) (Groups s) score)
  else if String.eqb (Type_ rule) RuleTypeRelationship then
    Panic "RuleTypeRelationship not yet implemented"
  else if String.eqb (Type_ rule) RuleTypeNearness then
    Ret (fold_left (nearnessGroup r rule) (Groups s) score)
  else Ret score.

Definition CalculateCurrentScore (r : runner) (s : State) : outcome float :=
  forRange (rules r) (scoreRule r s) 0%float.

Definition potentialRule (r : runner) (s : State) (rule : Rule) (maxScore : float)
  : outcome float :=
  if Weight rule =? 0 then Ret maxScore
  else if String.eqb (Type_ rule) RuleTypeSameness then
    if Weight rule <? 0 then Ret maxScore
    else Ret (maxScore
              + float64_of_int (int_mul (Weight rule) (Z.of_nat (length (ItemsNotInGroups s)))))%float
  else if String.eqb (Type_ rule) RuleTypeRelationship then
    Panic "RuleTypeRelationship not yet implemented"
  else if String.eqb (Type_ rule) RuleTypeNearness then
    if Weight rule <? 0 then Ret maxScore
    else
      let itemsWithPoints :=
        Z.of_nat (length (groupPoints (ItemsNotInGroups s) (TagName rule))) in
      let groupsToFill :=
        omap (fun group =>
                let slotsLeft := int_sub (MaxSize group) (lenItems group) in
                if 0 <? slotsLeft
                then Some (fst (getGroupDistribution group (TagName rule)), slotsLeft)
                else None)
             (Groups s) in
      let sorted := sort_Slice (fun a b => float_lt (fst a) (fst b)) groupsToFill in
      Ret (fillGroups (Weight rule) (maxDistributionForTag TrimSpace ParseFloat r (TagName rule))
             sorted itemsWithPoints maxScore)
  else Ret maxScore.

Definition CalculateMaxPotentialScore (r : runner) (s : State) : outcome float :=
  maxScore ← CalculateCurrentScore r s;
  forRange (rules r) (potentialRule r s) maxScore.

Definition CalculateScore (r : runner) (s : State) : outcome float :=
  if negb (IsTerminal s) then CalculateMaxPotentialScore r s
  else if existsb undersized (Groups s) then Ret (- MaxFloat64)%float
  else CalculateCurrentScore r s.

(** The loop of [getPossibleNextStatesFrom]; the accumulator carries
    [triedEmptyGroup] and [nextStates]. *)
Definition expandInto (r : runner) (s : State) (i : nat) (acc : bool * list State)
  : outcome (bool * list State) :=
  let '(triedEmptyGroup, nextStates) := acc in
  match Groups s !! i with
  | None => Panic "index out of range"
  | Some group =>
      if lenItems group =? MaxSize group then Ret acc
      else if (length (Items group) =? 0)%nat && triedEmptyGroup then Ret acc
      else
        let tried := if (length (Items group) =? 0)%nat then true else triedEmptyGroup in
        let newState := State_Copy s in
        match ItemsNotInGroups newState with
        | [] => Panic "index out of range"
        | itemToAdd :: rest =>
            let placed :=
              mkState (alter (fun g => setItems g (Items g ++ [itemToAdd])) i (Groups newState))
                      rest (Score newState) in
            score ← CalculateScore r placed;
            Ret (tried, nextStates ++ [setScore placed score])
        end
  end.

Definition getPossibleNextStatesFrom (r : runner) (s : State) : outcome (list State) :=
  '(_, nextStates) ← forRange (seq 0 (length (Groups s))) (expandInto r s) (false, []);
  Ret nextStates.

(** [sort.Search(n, f)]: binary search for the least index where [f] holds. *)
Fixpoint Search (fuel : nat) (i j : nat) (f : nat -> bool) : nat :=
  match fuel with
  | O => i
  | S fuel' =>
      if (i <? j)%nat then
        let h := ((i + j) / 2)%nat in
        if f h then Search fuel' i h f else Search fuel' (S h) j f
      else i
  end.

Definition insertStateToTry (states : list State) (toInsert : State) : list State :=
  let i := Search (length states) O (length states)
             (fun i => match states !! i with
                       | Some st => float_lt (Score st) (Score toInsert)
                       | None => false
                       end) in
  if (i <? length states)%nat
  then take i states ++ [toInsert] ++ drop i states
  else states ++ [toInsert].

(** [next.Score <= r.bestState.Score] behind the nil test. *)
Definition cannotBeat (best : option State) (next : State) : bool :=
  match best with
  | None => false
  | Some b => (Score next <=? Score b)%float
  end.

(** The body of the loop over the children of [next]; the state is
    [bestState] and [statesToTry]. *)
Definition consider (next s : State) (st : option State * list State)
  : outcome (option State * list State) :=
  let '(best, statesToTry) := st in
  if IsTerminal s then
    match best with
    | None => Ret (Some s, statesToTry)
    | Some b => if float_gt (Score s) (Score b) then Ret (Some s, statesToTry) else Ret st
    end
  else if cannotBeat best next then Ret st
  else Ret (best, insertStateToTry statesToTry s).

Fixpoint mainLoop (fuel : nat) (ctx : nat -> bool) (k : nat) (r : runner)
    (best : option State) (statesToTry : list State) : outcome (option State) :=
  match fuel with
  | O => Diverges
  | S fuel' =>
      match last statesToTry with
      | None => Ret best
      | Some next =>
          if ctx k then Ret best
          else
            let popped := take (length statesToTry - 1)%nat statesToTry in
            if cannotBeat best next then mainLoop fuel' ctx (S k) r best popped
            else
              children ← getPossibleNextStatesFrom r next;
              '(best', statesToTry') ← forRange children (consider next) (best, popped);
              mainLoop fuel' ctx (S k) r best' statesToTry'
      end
  end.

Definition run (fuel : nat) (ctx : nat -> bool) (r : runner)
  : outcome (list Group + error) :=
  match validateInput r with
  | Some err => Ret (inr err)
  | None =>
      let r0 := set_items r (populateNearnessTagPoints TrimSpace ParseFloat (rules r) (items r)) in
      let initialState := mkState (map emptyGroup (groups r0)) (items r0) 0%float in
      score ← CalculateScore r0 initialState;
      best ← mainLoop fuel ctx O r0 None [setScore initialState score];
      match best with
      | None => Ret (inr NoWorkableState)
      | Some b => Ret (inl (map (clearGroup) (Groups b)))
      end
  end.

Definition GetArrangement (fuel : nat) (ctx : nat -> bool)
    (its : list Item) (rs : list Rule) (gs : list Group) : outcome (list Group + error) :=
  run fuel ctx (newRunner its rs gs).

End Engine.

End PrioritySearch.

(** * Specification-side notions *)

(** Two groups hold the same items up to order: their ID sequences are
    permutations of each other (for the unique IDs the engine requires, the
    same ID sets). *)
Definition sameItemSets (g g' : Group) : Prop :=
  map ID (Items g) ≡ₚ map ID (Items g').

(** Two states induce the same multiset of item-ID sets: after reordering the
    groups of the first, the groups correspond one to one. *)
Definition sameArrangement (s1 s2 : State) : Prop :=
  exists gs, Groups s1 ≡ₚ gs /\ Forall2 sameItemSets gs (Groups s2).

(** The items whose value for a tag is not the empty string. *)
Definition withoutEmpty (tagName : string) (its : list Item) : list Item :=
  List.filter (fun item => negb (String.eqb (tagValue item tagName) "")) its.

(** A state with the items of empty tag value taken out of every group. *)
Definition dropEmpty (tagName : string) (s : State) : State :=
  setGroups s (map (fun g => setItems g (withoutEmpty tagName (Items g))) (Groups s)).

(** Items as they enter a run: no parsed coordinates yet. *)
Definition clean (its : list Item) : Prop :=
  Forall (fun item => nearnessTags item = ∅) its.

(** An item without a value for the tag has no parsed coordinate for it. *)
Definition unparsedIfEmpty (item : Item) : Prop :=
  forall tagName, tagValue item tagName = ""%string -> nearnessTags item !! tagName = None.

(** Every item of every group of the state is one of the given items. *)
Definition drawnFrom (its : list Item) (s : State) : Prop :=
  Forall (fun g => Forall (fun item => item ∈ its) (Items g)) (Groups s).

(** The best state of the runner, if any, has the property. *)
Definition bestHas (P : State -> Prop) (r : runner) : Prop :=
  forall b, bestState r = Some b -> P b.

(** The groups of the state hold exactly the given items, each once. *)
Definition partitions (its : list Item) (s : State) : Prop :=
  concat (map Items (Groups s)) ≡ₚ its.

(** A group within its capacity, and a template a group can satisfy. *)
Definition capped (g : Group) : Prop := lenItems g <= MaxSize g.
Definition wellFormed (g : Group) : Prop := 0 <= MaxSize g /\ MinSize g <= MaxSize g.
Definition withinCapacity (s : State) : Prop := Forall capped (Groups s).

(** A group that is within its capacity and whose minimum can be met. *)
Definition fits (g : Group) : Prop := capped g /\ MinSize g <= MaxSize g.

(** Every parsed coordinate of the item is the parse of its tag value. *)
Definition parsedFromTags (TrimSpace : string -> string) (ParseFloat : string -> option float)
    (item : Item) : Prop :=
  forall tagName p,
    nearnessTags item !! tagName = Some p ->
    tagValue item tagName <> ""%string
    /\ parsePoint TrimSpace ParseFloat (tagValue item tagName) = Some p.

(** The state is the source itself or scores strictly above it. *)
Definition improvesOn (source s : State) : Prop :=
  s = source \/ float_gt (Score s) (Score source) = true.

(** Inside the swap loop: once [g1] and [g2] point away from [s], the best
    option is a state that already beat the source. *)
Definition climbing (source : State) (st : swapping) : Prop :=
  improvesOn source (sw_best st)
  /\ (sw_alias st <> InCur -> float_gt (Score (sw_best st)) (Score source) = true).

(** The number of items placed in the groups, and the number of items the
    groups still need to reach their minimum sizes. *)
Definition totalPlaced (gs : list Group) : Z :=
  foldr (fun group acc => lenItems group + acc) 0 gs.
Definition totalNeeded (gs : list Group) : Z :=
  foldr (fun group acc => Z.max 0 (MinSize group - lenItems group) + acc) 0 gs.

(** A group at or above its minimum size. *)
Definition filled (g : Group) : Prop := MinSize g <= lenItems g.

(** The number of commas in a string. *)
Fixpoint commas (str : string) : nat :=
  match str with
  | EmptyString => O
  | String c rest => if Ascii.eqb c ","%char then S (commas rest) else commas rest
  end.

(** [strings.Join(parts, ",")] *)
Definition Join_comma (parts : list string) : string := String.concat "," parts.

(** The rules that take part in scoring. *)
Definition activeRules (rs : list Rule) : list Rule :=
  List.filter (fun rule => negb (Weight rule =? 0)) rs.

Definition set_rules (r : runner) (rs : list Rule) : runner :=
  mkRunner (items r) rs (groups r) (bestState r) (statesTried r) (currentPermutation r).

(** The factorial of a natural number, as an integer. *)
Fixpoint factorialOf (n : nat) : Z :=
  match n with
  | O => 1
  | S k => Z.of_nat (S k) * factorialOf k
  end.

(** The index vectors of the shuffle in [getRandomState]: the entry at
    position [i] of a vector of length [n] is at most [n - 1 - i], so that
    [i + v] is an index of the items. *)
Fixpoint indexVector (perm : list nat) : bool :=
  match perm with
  | [] => true
  | v :: rest => (v <=? length rest)%nat && indexVector rest
  end.

(** The number an index vector stands for in the factorial number system,
    most significant entry first. *)
Fixpoint rank (perm : list nat) : Z :=
  match perm with
  | [] => 0
  | v :: rest => Z.of_nat v * factorialOf (length rest) + rank rest
  end.

(** The shuffle loop of [getRandomState], entered at index [k] with the
    entries [perm] still to come. *)
Definition shuffleFrom {A : Type} (k : nat) (perm : list nat) (l : list A) : outcome (list A) :=
  forRange (zip (seq k (length perm)) perm)
           (fun '(i, v) nextPerm => swapAt i (i + v) nextPerm) l.

(** [getBestNextStateFrom], run on the given items and rules, finds no
    state that scores above [b]. *)
Definition localMaximum (TrimSpace : string -> string) (ParseFloat : string -> option float)
    (its : list Item) (rs : list Rule) (b : State) : Prop :=
  exists r best,
    items r = its /\ rules r = rs
    /\ getBestNextStateFrom TrimSpace ParseFloat r b = Ret best
    /\ float_gt (Score best) (Score b) = false.

(** The best state of the runner is [first], or a local maximum that
    scores strictly above it. *)
Definition bestSince (TrimSpace : string -> string) (ParseFloat : string -> option float)
    (first : State) (r : runner) : Prop :=
  exists b, bestState r = Some b
    /\ (b = first
        \/ float_gt (Score b) (Score first) = true
           /\ localMaximum TrimSpace ParseFloat (items r) (rules r) b).

(** A state of the priority search accounts for the items: its groups and
    its items not in groups together hold exactly them, each once. *)
Definition accountsFor (its : list Item) (s : State) : Prop :=
  concat (map Items (Groups s)) ++ ItemsNotInGroups s ≡ₚ its.

(** [c] is [s] with its first unplaced item appended to one group that was
    not at its [MaxSize]. *)
Definition placesNext (s c : State) : Prop :=
  exists i group item,
    Groups s !! i = Some group /\ lenItems group <> MaxSize group
    /\ ItemsNotInGroups s = item :: ItemsNotInGroups c
    /\ Groups c = <[i := setItems group (Items group ++ [item])]> (Groups s).

(** [c] is [s] with its first unplaced item appended to the group at index
    [i], which was not at its [MaxSize]; and whether the group at [i] is
    empty in [s]. *)
Definition placesNextAt (s : State) (i : nat) (c : State) : Prop :=
  exists group item,
    Groups s !! i = Some group /\ lenItems group <> MaxSize group
    /\ ItemsNotInGroups s = item :: ItemsNotInGroups c
    /\ Groups c = <[i := setItems group (Items group ++ [item])]> (Groups s).

Definition emptyAt (s : State) (i : nat) : bool :=
  match Groups s !! i with
  | Some group => (length (Items group) =? 0)%nat
  | None => false
  end.

(** The groups are the templates, with items in them. *)
Definition instantiates (gs : list Group) (s : State) : Prop :=
  map emptyGroup (Groups s) = map emptyGroup gs.

(** The first state does not score below the second; a frontier sorted
    from highest to lowest score has every state before the states it is not
    below. *)
Definition notBelow (a b : State) : Prop := float_lt (Score a) (Score b) = false.

(** The item a CSV record stands for under the tag columns: of two columns
    of one name the later one counts. *)
Definition itemOfRecord (columnNames record : list string) : Item :=
  mkItem (hd ""%string record) (list_to_map (rev (zip columnNames (tail record)))) ∅.

(** The number of states in the tree below a state of the priority search
    with [k] items to place and [g] groups, and the sum of it over a
    frontier: the turns of the main loop that are left at most. *)
Fixpoint searchTreeSize (g k : nat) : nat :=
  match k with
  | O => 1
  | S k' => S (g * searchTreeSize g k')
  end.

Definition frontierWork (g : nat) (states : list State) : nat :=
  foldr (fun s acc => searchTreeSize g (length (ItemsNotInGroups s)) + acc)%nat O states.

(** The groups of the state have the sizes of the groups of the source. *)
Definition sameShape (source s : State) : Prop :=
  map (fun g => length (Items g)) (Groups s) = map (fun g => length (Items g)) (Groups source).

(** The turns the main loop of [run] has left at most: every turn records a
    new digest or draws the next permutation. *)
Definition searchBudget (tried : list Z) (perm : list nat) : Z :=
  (2 ^ 64 - Z.of_nat (length tried)) + (factorialOf (length perm) - rank perm).

(** The mathematical sum of the groups' [MaxSize]. *)
Definition totalMaxSize (gs : list Group) : Z :=
  foldr (fun group acc => MaxSize group + acc) 0 gs.


(** * Concrete inputs

    The inputs below carry no Nearness rule that reaches a tag value, so the
    two library functions are never called; any instance serves. *)

Definition TrimSpace_id (str : string) : string := str.
Definition ParseFloat_none (_ : string) : option float := None.

Definition plainItem (id : string) : Item := mkItem id ∅ ∅.
Definition taggedItem (id tag val : string) : Item := mkItem id (<[tag := val]> ∅) ∅.
Definition neverDone (_ : nat) : bool := false.


(** One item and one group that wants two: no arrangement is feasible. *)
Definition loneItem : list Item := [plainItem "a"].
Definition pairGroup : list Group := [mkGroup "Group 1" 2 2 []].
Definition relationshipRule : list Rule := [mkRule "friend" RuleTypeRelationship 1].

(** A partial state with two "m" items placed and a third one waiting, and
    the terminal state reached by placing it. *)
Definition genderRule : list Rule := [mkRule "gender" RuleTypeSameness 1].
Definition threeMen : list Item :=
  [taggedItem "guy1" "gender" "m"; taggedItem "guy2" "gender" "m"; taggedItem "guy3" "gender" "m"].
Definition genderRunner : runner := newRunner threeMen genderRule [mkGroup "Group 1" 0 3 []].
Definition twoPlaced : State :=
  mkState [mkGroup "Group 1" 0 3 [taggedItem "guy1" "gender" "m"; taggedItem "guy2" "gender" "m"]]
          [taggedItem "guy3" "gender" "m"] 0%float.
Definition allPlaced : State :=
  mkState [mkGroup "Group 1" 0 3 threeMen] [] 0%float.

(** A Nearness rule on a tag that no item carries: the global spread is 0. *)
Definition locationRule : list Rule := [mkRule "location" RuleTypeNearness 1].
Definition twoPlain : list Item := [plainItem "a"; plainItem "b"].
Definition looseGroups : list Group := [mkGroup "Group 1" 1 2 []; mkGroup "Group 2" 2 2 []].
Definition locationRunner : runner := newRunner twoPlain locationRule looseGroups.
Definition splitState : State :=
  mkState [mkGroup "Group 1" 1 2 [plainItem "a"]; mkGroup "Group 2" 2 2 [plainItem "b"]] [] 0%float.
Definition joinedState : State :=
  mkState [mkGroup "Group 1" 1 2 [plainItem "a"; plainItem "b"]; mkGroup "Group 2" 2 2 []] [] 0%float.

(** The first scenario of the test file: two men, two women, one Sameness
    rule on gender, two groups of one to two. *)
Definition basicItems : list Item :=
  [taggedItem "guy1" "gender" "m"; taggedItem "girl1" "gender" "f";
   taggedItem "guy2" "gender" "m"; taggedItem "girl2" "gender" "f"].
Definition basicGroups : list Group :=
  [mkGroup "Group 1" 1 2 []; mkGroup "Group 2" 1 2 []].
Definition basicResult : list Group :=
  [mkGroup "Group 1" 1 2 [taggedItem "guy1" "gender" "m"; taggedItem "guy2" "gender" "m"];
   mkGroup "Group 2" 1 2 [taggedItem "girl1" "gender" "f"; taggedItem "girl2" "gender" "f"]].

(** A template whose minimum exceeds its maximum. *)
Definition crampedGroups : list Group :=
  [mkGroup "Group 1" 2 1 []; mkGroup "Group 2" 0 1 []].

(** The same arrangement written in two ways. *)
Definition arrangedOneWay : State :=
  mkState [mkGroup "Group 1" 1 2 [plainItem "a"; plainItem "b"];
           mkGroup "Group 2" 1 2 [plainItem "c"]] [] 0%float.
Definition arrangedOtherWay : State :=
  mkState [mkGroup "Group 2" 1 2 [plainItem "c"];
           mkGroup "Group 1" 1 2 [plainItem "b"; plainItem "a"]] [] 0%float.

(** One tagged and one untagged item in a single group. *)
Definition mixedItems : list Item := [taggedItem "guy1" "gender" "m"; plainItem "x"].
Definition mixedRunner : runner := newRunner mixedItems genderRule [mkGroup "Group 1" 0 2 []].
Definition mixedState : State := mkState [mkGroup "Group 1" 0 2 mixedItems] [] 0%float.

(** Group templates whose [MaxSize] values do not add up within [int]:
    upwards, and downwards. *)
Definition overflowingGroups : list Group :=
  [mkGroup "Group 1" 0 int_max []; mkGroup "Group 2" 0 1 []].
Definition negativeGroups : list Group :=
  [mkGroup "Group 1" 0 int_min []; mkGroup "Group 2" 0 (-1) []].

(** One item seated, one waiting, and two groups still empty. *)
Definition oneSeated : State :=
  mkState [mkGroup "Group 1" 0 3 [taggedItem "guy1" "gender" "m"];
           mkGroup "Group 2" 0 3 []; mkGroup "Group 3" 0 3 []]
          [taggedItem "guy2" "gender" "m"] 0%float.

(** A context that is done from the start, and a parser that reads every
    text as zero. *)
Definition doneAtOnce (_ : nat) : bool := true.
Definition ParseFloat_zero (_ : string) : option float := Some 0%float.

(** The first scenario as a runner, and an arrangement of it that mixes the
    genders. *)
Definition basicRunner : runner := newRunner basicItems genderRule basicGroups.
Definition mixedUp : State :=
  mkState [mkGroup "Group 1" 1 2 [taggedItem "guy1" "gender" "m"; taggedItem "girl1" "gender" "f"];
           mkGroup "Group 2" 1 2 [taggedItem "guy2" "gender" "m"; taggedItem "girl2" "gender" "f"]]
          [] 0%float.

(** A runner that has drawn both orders of its two items. *)
Definition bothDrawn : runner :=
  mkRunner twoPlain [] [mkGroup "Group 1" 0 2 []] None [] (Some [1%nat; 0%nat]).

(** A state known by its score only. *)
Definition scored (score : Z) : State := mkState [] [] (float64_of_int score).

(** * Properties *)

(** ** Machine arithmetic *)

Lemma wrap_int_small (z : Z) : int_range z -> wrap_int z = z.
Proof.
  unfold int_range, int_min, int_max, wrap_int. intros Hz.
  rewrite Z.mod_small by lia. lia.
Qed.

Lemma wrap_int_add_l (a b : Z) : wrap_int (wrap_int a + b) = wrap_int (a + b).
Proof.
  unfold wrap_int.
  replace ((a + 2 ^ 63) mod 2 ^ 64 - 2 ^ 63 + b + 2 ^ 63)
    with ((a + 2 ^ 63) mod 2 ^ 64 + b) by lia.
  rewrite Zplus_mod_idemp_l. f_equal. f_equal. lia.
Qed.

Lemma numSlots_wrap (gs : list Group) (n : Z) :
  fold_left (fun n group => int_add n (MaxSize group)) gs (wrap_int n)
  = wrap_int (n + totalMaxSize gs).
Proof.
  revert n. induction gs as [|g gs IH]; intros n; simpl.
  - f_equal. lia.
  - unfold int_add at 2. rewrite wrap_int_add_l, IH. f_equal. lia.
Qed.

Lemma numSlots_exact (gs : list Group) :
  int_range (totalMaxSize gs) ->
  fold_left (fun n group => int_add n (MaxSize group)) gs 0 = totalMaxSize gs.
Proof.
  intros Hr. change 0 with (wrap_int 0) at 1.
  rewrite numSlots_wrap. simpl. apply wrap_int_small, Hr.
Qed.

(** ** sort.Slice on a total order *)

Section SortTheory.

Context {K : Type} (ltb : K -> K -> bool).

Hypothesis ltb_asym : forall a b, ltb a b = true -> ltb b a = false.
Hypothesis le_trans : forall a b c, notAfter ltb a b -> notAfter ltb b c -> notAfter ltb a c.
Hypothesis le_antisym : forall a b, notAfter ltb a b -> notAfter ltb b a -> a = b.

Lemma sink_Permutation {A : Type} (less : A -> A -> bool) (a : A) (r : list A) :
  sink less a r ≡ₚ a :: r.
Proof.
  induction r as [|b r IH]; simpl; [reflexivity|].
  destruct (less a b); [|reflexivity].
  rewrite IH. apply Permutation_swap.
Qed.

Lemma sort_Slice_Permutation {A : Type} (less : A -> A -> bool) (l : list A) :
  sort_Slice less l ≡ₚ l.
Proof.
  unfold sort_Slice.
  assert (H : forall acc, fold_left (fun r a => sink less a r) l acc ≡ₚ l ++ acc).
  { induction l as [|a l IH]; intros acc; simpl; [reflexivity|].
    rewrite IH, sink_Permutation. symmetry. apply Permutation_middle. }
  rewrite <- Permutation_rev, H, app_nil_r. reflexivity.
Qed.

Lemma sink_descending (a : K) (r : list K) :
  StronglySorted (fun x y => notAfter ltb y x) r ->
  StronglySorted (fun x y => notAfter ltb y x) (sink ltb a r).
Proof.
  induction 1 as [|b r Hs IH Hb]; simpl.
  - repeat constructor.
  - destruct (ltb a b) eqn:Hab.
    + constructor; [exact IH|].
      eapply Permutation_Forall; [symmetry; apply sink_Permutation|].
      constructor; [|exact Hb]. apply ltb_asym, Hab.
    + constructor; [constructor; assumption|].
      constructor; [exact Hab|].
      eapply Forall_impl; [exact Hb|]. intros y Hy. eapply le_trans; [exact Hy|exact Hab].
Qed.

Lemma StronglySorted_rev_flip (R : K -> K -> Prop) (l : list K) :
  StronglySorted (fun x y => R y x) l -> StronglySorted R (rev l).
Proof.
  induction 1 as [|a l Hs IH Ha]; simpl; [constructor|].
  clear Hs. revert IH Ha. generalize (rev_involutive l).
  assert (Hin : forall y, In y (rev l) -> In y l) by (intros y; apply in_rev).
  revert Hin. generalize (rev l) as m. intros m Hin _ IH Ha.
  induction IH as [|b m Hs IH' Hb]; simpl.
  - repeat constructor.
  - constructor.
    + apply IH'. intros y Hy. apply Hin. right. exact Hy.
    + apply Forall_app. split; [exact Hb|].
      constructor; [|constructor].
      rewrite Forall_forall in Ha. apply Ha.
      apply list_elem_of_In, Hin. left. reflexivity.
Qed.

Lemma sort_Slice_sorted (l : list K) : StronglySorted (notAfter ltb) (sort_Slice ltb l).
Proof.
  unfold sort_Slice. apply StronglySorted_rev_flip.
  assert (H : forall acc, StronglySorted (fun x y => notAfter ltb y x) acc ->
                          StronglySorted (fun x y => notAfter ltb y x)
                            (fold_left (fun r a => sink ltb a r) l acc)).
  { induction l as [|a l IH]; intros acc Hacc; simpl; [exact Hacc|].
    apply IH, sink_descending, Hacc. }
  apply H. constructor.
Qed.

Lemma sorted_Permutation_eq (l1 l2 : list K) :
  StronglySorted (notAfter ltb) l1 -> StronglySorted (notAfter ltb) l2 -> l1 ≡ₚ l2 -> l1 = l2.
Proof.
  intros H1. revert l2. induction H1 as [|a l1 Hs1 IH Ha]; intros l2 H2 Hp.
  - apply Permutation_nil in Hp. congruence.
  - destruct H2 as [|b l2 Hs2 Hb].
    + symmetry in Hp. apply Permutation_nil in Hp. discriminate.
    + assert (a = b) as ->.
      { assert (Hain : a ∈ b :: l2) by (rewrite <- Hp; left).
        assert (Hbin : b ∈ a :: l1) by (rewrite Hp; left).
        apply elem_of_cons in Hain as [->|Hain]; [reflexivity|].
        apply elem_of_cons in Hbin as [->|Hbin]; [reflexivity|].
        rewrite Forall_forall in Ha, Hb.
        apply le_antisym; [apply Ha, Hbin|apply Hb, Hain]. }
      f_equal. apply IH; [exact Hs2|]. eapply Permutation_cons_inv, Hp.
Qed.

(** The sorted slice depends on the multiset of its elements only. *)
Lemma sort_Slice_canonical (l1 l2 : list K) :
  l1 ≡ₚ l2 -> sort_Slice ltb l1 = sort_Slice ltb l2.
Proof.
  intros Hp. apply sorted_Permutation_eq; try apply sort_Slice_sorted.
  rewrite !sort_Slice_Permutation. exact Hp.
Qed.

(** Sorting by a key and reading the keys is sorting the keys. *)
Lemma sort_Slice_map {A : Type} (key : A -> K) (l : list A) :
  map key (sort_Slice (fun a b => ltb (key a) (key b)) l) = sort_Slice ltb (map key l).
Proof.
  unfold sort_Slice. rewrite map_rev. f_equal.
  assert (Hsink : forall a r,
             map key (sink (fun a b => ltb (key a) (key b)) a r) = sink ltb (key a) (map key r)).
  { intros a r. induction r as [|b r IH]; simpl; [reflexivity|].
    destruct (ltb (key a) (key b)); simpl; [rewrite IH|]; reflexivity. }
  assert (H : forall acc,
             map key (fold_left (fun r a => sink (fun a b => ltb (key a) (key b)) a r) l acc)
             = fold_left (fun r a => sink ltb a r) (map key l) (map key acc)).
  { induction l as [|a l IH]; intros acc; simpl; [reflexivity|].
    rewrite IH, Hsink. reflexivity. }
  apply (H []).
Qed.

End SortTheory.

(** ** Go's orders on strings and on [uint64] *)

Lemma string_ltb_asym (a b : string) : String.ltb a b = true -> String.ltb b a = false.
Proof.
  unfold String.ltb. rewrite (String.compare_antisym a b).
  destruct (String.compare b a); simpl; congruence.
Qed.

Lemma string_le_antisym (a b : string) :
  String.ltb b a = false -> String.ltb a b = false -> a = b.
Proof.
  unfold String.ltb. rewrite (String.compare_antisym a b).
  destruct (String.compare b a) eqn:Hc; simpl; try congruence.
  intros _ _. symmetry. apply String.compare_eq_iff, Hc.
Qed.

Lemma string_le_trans (a b c : string) :
  String.ltb b a = false -> String.ltb c b = false -> String.ltb c a = false.
Proof.
  unfold String.ltb. intros Hba Hcb.
  destruct (String.compare c a) eqn:Hca; try reflexivity. exfalso.
  destruct (String.compare b a) eqn:Hb; try discriminate.
  - apply String.compare_eq_iff in Hb. subst b. rewrite Hca in Hcb. discriminate.
  - assert (Hab : String.compare a b = Lt).
    { rewrite String.compare_antisym, Hb. reflexivity. }
    apply String_as_OT.cmp_lt in Hca, Hab.
    pose proof (String_as_OT.lt_trans _ _ _ Hca Hab) as Hcb'.
    apply String_as_OT.cmp_lt in Hcb'. unfold String_as_OT.cmp in Hcb'.
    rewrite Hcb' in Hcb. discriminate.
Qed.

Lemma sort_strings_canonical (l1 l2 : list string) :
  l1 ≡ₚ l2 -> sort_Slice String.ltb l1 = sort_Slice String.ltb l2.
Proof.
  apply sort_Slice_canonical.
  - exact string_ltb_asym.
  - intros a b c. apply string_le_trans.
  - intros a b. apply string_le_antisym.
Qed.

Lemma sort_uint64_canonical (l1 l2 : list Z) :
  l1 ≡ₚ l2 -> sort_Slice Z.ltb l1 = sort_Slice Z.ltb l2.
Proof.
  apply sort_Slice_canonical; unfold notAfter; intros; lia.
Qed.

(** ** Digests *)

(** The group digest is a function of the sorted ID sequence. *)
Lemma Group_digest_ids (g : Group) :
  Group_digest g =
  fold_left (fun h id => fnv.Write h (bytes_of_string id))
            (sort_Slice String.ltb (map ID (Items g))) fnv.New64.
Proof.
  unfold Group_digest, fnv.Sum64.
  rewrite <- (sort_Slice_map String.ltb ID).
  generalize (sort_Slice (fun a b => String.ltb (ID a) (ID b)) (Items g)) as l.
  generalize fnv.New64 as h.
  intros h l. revert h. induction l as [|a l IH]; intros h; simpl; [reflexivity|apply IH].
Qed.

Lemma Group_digest_sameItemSets (g g' : Group) :
  sameItemSets g g' -> Group_digest g = Group_digest g'.
Proof.
  intros Hs. rewrite !Group_digest_ids. f_equal. apply sort_strings_canonical, Hs.
Qed.

(** C5.  Digest canonicality: two states whose groups hold the same items
    up to the order of the groups and the order of the items inside each
    group have the same [State.digest]. *)
Theorem digest_canonical (s1 s2 : State) :
  sameArrangement s1 s2 -> State_digest s1 = State_digest s2.
Proof.
  intros (gs & Hperm & Hsame). unfold State_digest.
  assert (Hmap : map Group_digest gs = map Group_digest (Groups s2)).
  { clear Hperm. induction Hsame as [|g g' gs gs' Hg _ IH]; simpl; [reflexivity|].
    f_equal; [apply Group_digest_sameItemSets, Hg|exact IH]. }
  rewrite (sort_uint64_canonical (map Group_digest (Groups s1)) (map Group_digest (Groups s2)));
    [reflexivity|].
  rewrite <- Hmap. apply Permutation_map, Hperm.
Qed.

Section Properties.

Variable TrimSpace : string -> string.
Variable ParseFloat : string -> option float.


(** *** Capacity validation *)

Lemma validateInput_spec (r : runner) :
  int_range (totalMaxSize (groups r)) ->
  validateInput r =
    if totalMaxSize (groups r) <? Z.of_nat (length (items r))
    then Some (BadConfiguration (length (items r)) (totalMaxSize (groups r)))
    else None.
Proof.
  intros Hr. unfold validateInput. rewrite (numSlots_exact _ Hr). reflexivity.
Qed.

Lemma validateInput_wrap (r : runner) :
  validateInput r =
    if wrap_int (totalMaxSize (groups r)) <? Z.of_nat (length (items r))
    then Some (BadConfiguration (length (items r)) (wrap_int (totalMaxSize (groups r))))
    else None.
Proof.
  unfold validateInput. cbv zeta.
  pose proof (numSlots_wrap (groups r) 0) as Hsum.
  change (wrap_int 0) with 0 in Hsum. rewrite Hsum, Z.add_0_l. reflexivity.
Qed.

(** C7.  [validateInput] adds the [MaxSize] values in Go's [int], with
    wrap-around; the sum it compares is the mathematical total reduced to 64
    bits, and is that total whenever it fits [int].  When this sum is below
    the number of items, [run] returns the configuration error whatever the
    fuel and the context, and hands the runner back untouched: no permutation
    was started, no digest recorded, no best state set.  Otherwise validation
    passes. *)
Theorem capacity_prevalidation (fuel : nat) (ctx : nat -> bool)
    (its : list Item) (rs : list Rule) (gs : list Group) :
  (wrap_int (totalMaxSize gs) < Z.of_nat (length its) ->
     run TrimSpace ParseFloat fuel ctx (newRunner its rs gs)
     = Ret (inr (BadConfiguration (length its) (wrap_int (totalMaxSize gs))),
            newRunner its rs gs)
     /\ GetArrangement TrimSpace ParseFloat fuel ctx its rs gs
        = Ret (inr (BadConfiguration (length its) (wrap_int (totalMaxSize gs)))))
  /\ (Z.of_nat (length its) <= wrap_int (totalMaxSize gs) ->
        validateInput (newRunner its rs gs) = None)
  /\ (int_range (totalMaxSize gs) -> wrap_int (totalMaxSize gs) = totalMaxSize gs).
Proof.
  pose proof (validateInput_wrap (newRunner its rs gs)) as Hv. simpl in Hv.
  split; [|split].
  - intros Hcmp. apply Z.ltb_lt in Hcmp. rewrite Hcmp in Hv.
    assert (Hrun : run TrimSpace ParseFloat fuel ctx (newRunner its rs gs)
                   = Ret (inr (BadConfiguration (length its) (wrap_int (totalMaxSize gs))),
                          newRunner its rs gs)).
    { unfold run. rewrite Hv. reflexivity. }
    split; [exact Hrun|].
    unfold GetArrangement. rewrite Hrun. reflexivity.
  - intros Hcmp. apply Z.ltb_ge in Hcmp. rewrite Hcmp in Hv. exact Hv.
  - apply wrap_int_small.
Qed.

(** *** The reject sentinel *)

(** A terminal state with a non-empty group below its [MinSize] scores
    [-math.MaxFloat64], without any rule being looked at. *)
Lemma CalculateScore_undersized (r : runner) (s : State) :
  IsTerminal s = true ->
  existsb undersized (Groups s) = true ->
  CalculateScore TrimSpace ParseFloat r s = Ret (- MaxFloat64)%float.
Proof.
  intros Ht Hu. unfold CalculateScore. rewrite Ht, Hu. reflexivity.
Qed.

Lemma CalculateScore_feasible (r : runner) (s : State) :
  IsTerminal s = true ->
  existsb undersized (Groups s) = false ->
  CalculateScore TrimSpace ParseFloat r s = CalculateCurrentScore TrimSpace ParseFloat r s.
Proof.
  intros Ht Hu. unfold CalculateScore. rewrite Ht, Hu. reflexivity.
Qed.

(** *** Empty tag values *)

Lemma populateItem_unparsedIfEmpty (tagName : string) (item : Item) :
  unparsedIfEmpty item -> unparsedIfEmpty (populateItem TrimSpace ParseFloat tagName item).
Proof.
  intros Hitem name Hname. unfold populateItem in *.
  destruct (String.eqb_spec (tagValue item tagName) "") as [He|Hne]; [apply Hitem, Hname|].
  destruct (parsePoint TrimSpace ParseFloat (tagValue item tagName)); [|apply Hitem, Hname].
  unfold tagValue in *. simpl in *.
  rewrite lookup_insert_ne; [apply Hitem, Hname|]. congruence.
Qed.

Lemma populate_unparsedIfEmpty (rs : list Rule) (its : list Item) :
  Forall unparsedIfEmpty its ->
  Forall unparsedIfEmpty (populateNearnessTagPoints TrimSpace ParseFloat rs its).
Proof.
  unfold populateNearnessTagPoints. revert its.
  induction rs as [|rule rs IH]; intros its Hits; simpl; [exact Hits|].
  apply IH. destruct (_ || _); [exact Hits|].
  apply Forall_map. eapply Forall_impl; [exact Hits|].
  intros item. apply populateItem_unparsedIfEmpty.
Qed.

Lemma clean_unparsedIfEmpty (its : list Item) : clean its -> Forall unparsedIfEmpty its.
Proof.
  intros Hc. eapply Forall_impl; [exact Hc|].
  intros item Hitem name _. simpl in Hitem. rewrite Hitem. apply lookup_empty.
Qed.

Lemma tagOccurrences_withoutEmpty (tagName : string) (its : list Item) :
  tagOccurrences tagName its = tagOccurrences tagName (withoutEmpty tagName its).
Proof.
  unfold tagOccurrences. generalize (∅ : gmap string nat) as occ.
  induction its as [|item its IH]; intros occ; simpl; [reflexivity|].
  destruct (String.eqb (tagValue item tagName) "") eqn:He; simpl; [apply IH|].
  rewrite He. apply IH.
Qed.

Lemma allPoints_withoutEmpty (tagName : string) (its : list Item) :
  allPoints TrimSpace ParseFloat its tagName
  = allPoints TrimSpace ParseFloat (withoutEmpty tagName its) tagName.
Proof.
  unfold allPoints. induction its as [|item its IH]; simpl; [reflexivity|].
  destruct (String.eqb (tagValue item tagName) "") eqn:He; simpl; [exact IH|].
  rewrite He. destruct (parsePoint _ _ _); simpl; [f_equal|]; exact IH.
Qed.

Lemma getGroupDistribution_withoutEmpty (tagName : string) (g : Group) :
  Forall unparsedIfEmpty (Items g) ->
  getGroupDistribution g tagName
  = getGroupDistribution (setItems g (withoutEmpty tagName (Items g))) tagName.
Proof.
  unfold getGroupDistribution. simpl. generalize bbox_zero as b.
  induction (Items g) as [|item its IH]; intros b Hall; simpl; [reflexivity|].
  apply Forall_cons in Hall as [Hitem Hall].
  destruct (String.eqb_spec (tagValue item tagName) "") as [He|Hne]; simpl.
  - rewrite (Hitem _ He). apply IH, Hall.
  - apply IH, Hall.
Qed.

Lemma fold_left_map_Forall {A B : Type} (F F' : B -> A -> B) (f : A -> A) (l : list A) (b : B) :
  Forall (fun a => forall b, F b a = F' b (f a)) l ->
  fold_left F l b = fold_left F' (map f l) b.
Proof.
  intros Hall. revert b. induction Hall as [|a l Ha _ IH]; intros b; simpl; [reflexivity|].
  rewrite Ha. apply IH.
Qed.

(** C10.  Empty tag values are score-neutral.  In a run whose items entered
    without parsed coordinates, for a rule on tag [T] and a state over the
    run's items: the Sameness counting of every group skips the items whose
    value for [T] is empty; such items have no parsed coordinate for [T];
    the global maximum spread does not see them; and the rule adds the same
    score to any accumulator as it does once these items are taken out of
    every group and out of the run. *)
Theorem empty_tag_values_neutral (r : runner) (its0 : list Item) (rule : Rule)
    (s : State) (score : float) :
  clean its0 ->
  items r = populateNearnessTagPoints TrimSpace ParseFloat (rules r) its0 ->
  drawnFrom (items r) s ->
  Forall (fun g => tagOccurrences (TagName rule) (Items g)
                   = tagOccurrences (TagName rule) (withoutEmpty (TagName rule) (Items g)))
         (Groups s)
  /\ Forall (fun item => tagValue item (TagName rule) = ""%string ->
                         nearnessTags item !! TagName rule = None) (items r)
  /\ maxDistributionForTag TrimSpace ParseFloat r (TagName rule)
     = maxDistributionForTag TrimSpace ParseFloat
         (set_items r (withoutEmpty (TagName rule) (items r))) (TagName rule)
  /\ scoreRule TrimSpace ParseFloat r s rule score
     = scoreRule TrimSpace ParseFloat
         (set_items r (withoutEmpty (TagName rule) (items r)))
         (dropEmpty (TagName rule) s) rule score.
Proof.
  intros Hclean Hitems Hdrawn.
  assert (Hun : Forall unparsedIfEmpty (items r)).
  { rewrite Hitems. apply populate_unparsedIfEmpty, clean_unparsedIfEmpty, Hclean. }
  assert (Hmax : maxDistributionForTag TrimSpace ParseFloat r (TagName rule)
                 = maxDistributionForTag TrimSpace ParseFloat
                     (set_items r (withoutEmpty (TagName rule) (items r))) (TagName rule)).
  { unfold maxDistributionForTag. simpl. rewrite <- allPoints_withoutEmpty. reflexivity. }
  split; [|split; [|split]].
  - apply Forall_forall. intros g _. apply tagOccurrences_withoutEmpty.
  - eapply Forall_impl; [exact Hun|]. intros item Hitem. apply Hitem.
  - exact Hmax.
  - unfold scoreRule.
    destruct (Weight rule =? 0); [reflexivity|].
    destruct (String.eqb (Type_ rule) RuleTypeSameness).
    { f_equal. simpl. apply fold_left_map_Forall.
      apply Forall_forall. intros g _ b. unfold samenessGroup. simpl.
      rewrite <- tagOccurrences_withoutEmpty. reflexivity. }
    destruct (String.eqb (Type_ rule) RuleTypeRelationship); [reflexivity|].
    destruct (String.eqb (Type_ rule) RuleTypeNearness); [|reflexivity].
    f_equal. simpl. apply fold_left_map_Forall.
    eapply Forall_impl; [exact Hdrawn|]. intros g Hg b. simpl in Hg.
    unfold nearnessGroup.
    rewrite <- getGroupDistribution_withoutEmpty, <- Hmax; [reflexivity|].
    eapply Forall_impl; [exact Hg|]. intros item Hin. simpl in Hin.
    rewrite Forall_forall in Hun. apply Hun, Hin.
Qed.

(** *** The points of a group are points of the run *)

Lemma populateItem_parsedFromTags (tagName : string) (item : Item) :
  parsedFromTags TrimSpace ParseFloat item ->
  parsedFromTags TrimSpace ParseFloat (populateItem TrimSpace ParseFloat tagName item).
Proof.
  intros Hitem name p. unfold populateItem.
  destruct (String.eqb_spec (tagValue item tagName) "") as [He|Hne]; [apply Hitem|].
  destruct (parsePoint TrimSpace ParseFloat (tagValue item tagName)) as [q|] eqn:Hq;
    [|apply Hitem].
  unfold tagValue in *. simpl.
  destruct (decide (tagName = name)) as [->|Hdiff].
  - rewrite lookup_insert_eq. intros Hp. inversion Hp; subst q. split; assumption.
  - rewrite lookup_insert_ne by exact Hdiff. apply Hitem.
Qed.

Lemma populate_parsedFromTags (rs : list Rule) (its : list Item) :
  Forall (parsedFromTags TrimSpace ParseFloat) its ->
  Forall (parsedFromTags TrimSpace ParseFloat)
         (populateNearnessTagPoints TrimSpace ParseFloat rs its).
Proof.
  unfold populateNearnessTagPoints. revert its.
  induction rs as [|rule rs IH]; intros its Hits; simpl; [exact Hits|].
  apply IH. destruct (_ || _); [exact Hits|].
  apply Forall_map. eapply Forall_impl; [exact Hits|].
  intros item. apply populateItem_parsedFromTags.
Qed.

(** In a run whose items entered without parsed coordinates, every point a
    group contributes for a tag is among the points from which
    [maxDistributionForTag] computes the global spread. *)
Lemma group_points_among_all_points (r : runner) (its0 : list Item) (s : State)
    (tagName : string) :
  clean its0 ->
  items r = populateNearnessTagPoints TrimSpace ParseFloat (rules r) its0 ->
  drawnFrom (items r) s ->
  Forall (fun g => Forall (fun p => p ∈ allPoints TrimSpace ParseFloat (items r) tagName)
                          (groupPoints (Items g) tagName))
         (Groups s).
Proof.
  intros Hclean Hitems Hdrawn.
  assert (Hparsed : Forall (parsedFromTags TrimSpace ParseFloat) (items r)).
  { rewrite Hitems. apply populate_parsedFromTags.
    eapply Forall_impl; [exact Hclean|]. intros item Hc name p. simpl in Hc.
    rewrite Hc, lookup_empty. discriminate. }
  eapply Forall_impl; [exact Hdrawn|]. intros g Hg. simpl in Hg.
  apply Forall_forall. intros p Hp. unfold groupPoints in Hp.
  apply list_elem_of_omap in Hp as (item & Hin & Hnear).
  rewrite Forall_forall in Hg, Hparsed.
  specialize (Hg _ Hin). destruct (Hparsed _ Hg _ _ Hnear) as [Hne Hparse].
  unfold allPoints. apply list_elem_of_omap. exists item. split; [exact Hg|].
  destruct (String.eqb_spec (tagValue item tagName) ""); [contradiction|exact Hparse].
Qed.

End Properties.

(** ** Loops and invariants *)

Lemma bind_Ret {A B : Type} (m : outcome A) (f : A -> outcome B) (b : B) :
  (m ≫= f) = Ret b -> exists a, m = Ret a /\ f a = Ret b.
Proof.
  destruct m as [a| |]; simpl; try discriminate. intros H. exists a. split; [reflexivity|exact H].
Qed.

Lemma forRange_invariant {A S : Type} (Q : S -> Prop) (l : list A)
    (body : A -> S -> outcome S) (st st' : S) :
  (forall a st st', a ∈ l -> Q st -> body a st = Ret st' -> Q st') ->
  Q st -> forRange l body st = Ret st' -> Q st'.
Proof.
  revert st. induction l as [|a l IH]; intros st Hbody Hst Hrun; simpl in Hrun.
  - congruence.
  - apply bind_Ret in Hrun as (st1 & H1 & H2).
    eapply IH; [|eapply Hbody; [left|exact Hst|exact H1]|exact H2].
    intros a' s1 s2 Hin. apply Hbody. right. exact Hin.
Qed.

Lemma forUpTo_invariant {S : Type} (Q : S -> Prop) (fuel i : nat) (bound : S -> nat)
    (body : nat -> S -> outcome S) (st st' : S) :
  (forall i st st', (i < bound st)%nat -> Q st -> body i st = Ret st' -> Q st') ->
  Q st -> forUpTo fuel i bound body st = Ret st' -> Q st'.
Proof.
  intros Hbody. revert i st. induction fuel as [|fuel IH]; intros i st Hst Hrun; simpl in Hrun.
  - destruct (i <? bound st)%nat; [discriminate|congruence].
  - destruct (i <? bound st)%nat eqn:Hlt; [|congruence].
    apply bind_Ret in Hrun as (st1 & H1 & H2).
    eapply IH; [|exact H2]. eapply Hbody; [apply Nat.ltb_lt, Hlt|exact Hst|exact H1].
Qed.

(** ** Invariants of the local search

    Any property of states that survives rescoring, copying, a swap between
    two different groups and a relocation into a group with room is kept by
    [getBestNextStateFrom] and by the main loop, whatever the scores are. *)

Section SearchInvariant.

Variable TrimSpace : string -> string.
Variable ParseFloat : string -> option float.

Variable P : State -> Prop.

Hypothesis P_setScore : forall s sc, P s -> P (setScore s sc).
Hypothesis P_Copy : forall s, P s -> P (State_Copy s).
Hypothesis P_swap : forall s t gIndex1 i gIndex2 i2,
  gIndex1 <> gIndex2 -> P s -> swapItems gIndex1 i gIndex2 i2 s = Ret t -> P t.
Hypothesis P_move : forall s gIndex1 gIndex2 g1 g2 i item,
  gIndex1 <> gIndex2 -> P s ->
  Groups s !! gIndex1 = Some g1 -> Groups s !! gIndex2 = Some g2 ->
  lenItems g2 < MaxSize g2 -> Items g1 !! i = Some item ->
  P (setGroups s
       (<[gIndex1 := setItems g1 (removeSwap i ([] ++ Items g1))]>
          (<[gIndex2 := setItems g2 (Items g2 ++ [item])]> (Groups s)))).

Lemma swapTarget_invariant (gIndex1 i gIndex2 i2 : nat) (st : swapping) (t : State) :
  gIndex1 <> gIndex2 ->
  P (sw_best st) /\ P (sw_cur st) ->
  swapItems gIndex1 i gIndex2 i2 (target st) = Ret t ->
  P (sw_best (putTarget st t)) /\ P (sw_cur (putTarget st t)).
Proof.
  intros Hne [Hb Hc] Hswap. unfold target, putTarget in *.
  destruct (sw_alias st); simpl; split; try assumption.
  - eapply P_swap; [exact Hne|exact Hc|exact Hswap].
  - eapply P_swap; [exact Hne|exact Hb|exact Hswap].
Qed.

Lemma trySwap_invariant (r : runner) (source : State) (gIndex1 i gIndex2 i2 : nat)
    (st st' : swapping) :
  gIndex1 <> gIndex2 -> P source ->
  P (sw_best st) /\ P (sw_cur st) ->
  trySwap TrimSpace ParseFloat r source gIndex1 i gIndex2 i2 st = Ret st' ->
  P (sw_best st') /\ P (sw_cur st').
Proof.
  intros Hne Hsrc Hst Hrun. unfold trySwap in Hrun.
  apply bind_Ret in Hrun as (t & Hswap & Hrun).
  pose proof (swapTarget_invariant _ _ _ _ _ _ Hne Hst Hswap) as [Hb Hc].
  apply bind_Ret in Hrun as (score & _ & Hrun).
  set (st2 := mkSwapping (sw_best (putTarget st t))
                (setScore (sw_cur (putTarget st t)) score) (sw_alias (putTarget st t))) in *.
  assert (Hst2 : P (sw_best st2) /\ P (sw_cur st2)).
  { split; simpl; [exact Hb|apply P_setScore, Hc]. }
  destruct (float_gt score (Score (sw_best st2))).
  - inversion Hrun; subst st'. simpl. split; [apply P_setScore, Hc|apply P_Copy, Hsrc].
  - apply bind_Ret in Hrun as (t' & Hswap' & Hrun). inversion Hrun; subst st'.
    eapply swapTarget_invariant; [exact Hne|exact Hst2|exact Hswap'].
Qed.

Lemma tryGroup_invariant (r : runner) (source : State) (gIndex1 i gIndex2 : nat)
    (st st' : search) :
  P source ->
  P (bestOption st) /\ P (cur st) ->
  tryGroup TrimSpace ParseFloat r source gIndex1 i gIndex2 st = Ret st' ->
  P (bestOption st') /\ P (cur st').
Proof.
  intros Hsrc [Hb Hc] Hrun. unfold tryGroup in Hrun.
  destruct (Groups (cur st) !! gIndex1) as [g1|] eqn:Hg1; [|discriminate].
  destruct (Groups (cur st) !! gIndex2) as [g2|] eqn:Hg2; [|discriminate].
  destruct (Nat.eqb_spec gIndex1 gIndex2) as [Heq|Hne].
  { inversion Hrun; subst st'. split; assumption. }
  destruct (lenItems g2 <? MaxSize g2) eqn:Hroom.
  - destruct (Items g1 !! i) as [item|] eqn:Hitem; [|discriminate].
    apply bind_Ret in Hrun as (score & _ & Hrun).
    destruct (float_gt score (Score (bestOption st))); inversion Hrun; subst st'; simpl.
    + split; [|apply P_Copy, Hsrc].
      apply P_setScore. eapply P_move; try eassumption. apply Z.ltb_lt, Hroom.
    + split; [exact Hb|apply P_setScore, Hc].
  - apply bind_Ret in Hrun as (sw & Hloop & Hrun). inversion Hrun; subst st'. simpl.
    eapply (forUpTo_invariant (fun sw => P (sw_best sw) /\ P (sw_cur sw))); [| |exact Hloop].
    + intros i2 sw1 sw2 _ Hsw1 Hstep.
      eapply trySwap_invariant; [exact Hne|exact Hsrc|exact Hsw1|exact Hstep].
    + simpl. split; assumption.
Qed.

(** The state [getBestNextStateFrom] returns has the property of its source. *)
Lemma getBestNextStateFrom_invariant (r : runner) (source best : State) :
  P source ->
  getBestNextStateFrom TrimSpace ParseFloat r source = Ret best ->
  P best.
Proof.
  intros Hsrc Hrun. unfold getBestNextStateFrom in Hrun.
  apply bind_Ret in Hrun as (st & Hloop & Hrun). inversion Hrun; subst best.
  apply (forRange_invariant (fun st => P (bestOption st) /\ P (cur st))) in Hloop.
  - apply Hloop.
  - intros gIndex1 st1 st2 _ Hst1 Hi.
    eapply (forUpTo_invariant (fun st => P (bestOption st) /\ P (cur st))); [|exact Hst1|exact Hi].
    intros i st3 st4 _ Hst3 Hg.
    eapply (forRange_invariant (fun st => P (bestOption st) /\ P (cur st))); [|exact Hst3|exact Hg].
    intros gIndex2 st5 st6 _ Hst5 Hstep.
    eapply tryGroup_invariant; [exact Hsrc|exact Hst5|exact Hstep].
  - simpl. split; [exact Hsrc|apply P_Copy, Hsrc].
Qed.

(** A property of runners kept by the bookkeeping of [run], under which
    [getRandomState] produces states with the property [P]. *)
Variable R : runner -> Prop.

Hypothesis R_statesTried : forall r t, R r -> R (set_statesTried r t).
Hypothesis R_bestState : forall r b, R r -> R (set_bestState r b).
Hypothesis R_random : forall r o r',
  R r -> getRandomState TrimSpace ParseFloat r = Ret (o, r') ->
  R r' /\ bestState r' = bestState r /\ forall s, o = Some s -> P s.

Lemma mainLoop_invariant (fuel : nat) (ctx : nat -> bool) (k : nat) (r r' : runner)
    (next : State) :
  R r -> bestHas P r -> P next ->
  mainLoop TrimSpace ParseFloat fuel ctx k r next = Ret r' ->
  bestHas P r'.
Proof.
  revert k r next. induction fuel as [|fuel IH]; intros k r next HR Hbest Hnext Hrun;
    simpl in Hrun; [discriminate|].
  destruct (ctx k); [inversion Hrun; subst r'; exact Hbest|].
  destruct (existsb _ (statesTried r)).
  - apply bind_Ret in Hrun as ([o r1] & Hrand & Hrun).
    destruct (R_random _ _ _ HR Hrand) as (HR1 & Hb1 & Ho).
    assert (Hbest1 : bestHas P r1) by (unfold bestHas; rewrite Hb1; exact Hbest).
    destruct o as [n|]; [|inversion Hrun; subst r'; exact Hbest1].
    eapply IH; [exact HR1|exact Hbest1|apply Ho; reflexivity|exact Hrun].
  - set (r1 := set_statesTried r (State_digest next :: statesTried r)) in *.
    assert (HR1 : R r1) by (apply R_statesTried, HR).
    assert (Hbest1 : bestHas P r1) by exact Hbest.
    apply bind_Ret in Hrun as (best & Hclimb & Hrun).
    pose proof (getBestNextStateFrom_invariant _ _ _ Hnext Hclimb) as Hbestopt.
    destruct (float_gt (Score best) (Score next)).
    + eapply IH; [exact HR1|exact Hbest1|exact Hbestopt|exact Hrun].
    + change (bestState r1) with (bestState r) in Hrun.
      destruct (bestState r) as [b|] eqn:Hb; [|discriminate].
      set (r2 := if float_gt (Score next) (Score b) then set_bestState r1 (Some next) else r1) in *.
      assert (HR2 : R r2) by (unfold r2; destruct (float_gt _ _); [apply R_bestState|]; exact HR1).
      assert (Hbest2 : bestHas P r2).
      { unfold r2. destruct (float_gt _ _); [|exact Hbest1].
        intros b' Hb'. simpl in Hb'. inversion Hb'; subst b'. exact Hnext. }
      apply bind_Ret in Hrun as ([o r3] & Hrand & Hrun).
      destruct (R_random _ _ _ HR2 Hrand) as (HR3 & Hb3 & Ho).
      assert (Hbest3 : bestHas P r3) by (unfold bestHas; rewrite Hb3; exact Hbest2).
      destruct o as [n|]; [|inversion Hrun; subst r'; exact Hbest3].
      eapply IH; [exact HR3|exact Hbest3|apply Ho; reflexivity|exact Hrun].
Qed.

End SearchInvariant.

(** ** Slices updated in place *)

Lemma insert_Permutation {A : Type} (l : list A) (i : nat) (x y : A) :
  l !! i = Some x -> <[i := y]> l ++ [x] ≡ₚ l ++ [y].
Proof.
  revert i. induction l as [|a l IH]; intros [|i] Hi; simpl in *; try discriminate.
  - inversion Hi; subst a. rewrite <- !Permutation_cons_append. apply Permutation_swap.
  - rewrite (IH _ Hi). reflexivity.
Qed.

Lemma swapAt_Permutation {A : Type} (i j : nat) (l l' : list A) :
  swapAt i j l = Ret l' -> l' ≡ₚ l.
Proof.
  unfold swapAt. destruct (l !! i) as [a|] eqn:Hi; [|discriminate].
  destruct (l !! j) as [b|] eqn:Hj; [|discriminate].
  intros H; inversion H; subst l'; clear H.
  destruct (decide (i = j)) as [->|Hne].
  - assert (a = b) by congruence. subst b.
    rewrite list_insert_insert_eq, list_insert_id; [reflexivity|exact Hi].
  - apply (Permutation_app_inv_r ([b] ++ [a])).
    rewrite app_assoc.
    rewrite (insert_Permutation (<[i := b]> l) j b a)
      by (rewrite list_lookup_insert_ne; [exact Hj|exact Hne]).
    rewrite <- app_assoc.
    rewrite app_assoc, (insert_Permutation l i a b Hi).
    rewrite <- !app_assoc. reflexivity.
Qed.

Lemma removeSwap_Permutation {A : Type} (i : nat) (l : list A) (x : A) :
  l !! i = Some x -> removeSwap i l ++ [x] ≡ₚ l.
Proof.
  intros Hi. unfold removeSwap.
  destruct (last l) as [y|] eqn:Hlast.
  - apply last_Some in Hlast as [l' ->].
    rewrite length_app. simpl. replace (length l' + 1 - 1)%nat with (length l') by lia.
    destruct (decide (i < length l')%nat) as [Hlt|Hge].
    + rewrite insert_app_l by exact Hlt.
      rewrite take_app_length' by (rewrite length_insert; reflexivity).
      rewrite lookup_app_l in Hi by exact Hlt.
      apply insert_Permutation, Hi.
    + assert (i = length l') as ->.
      { apply lookup_lt_Some in Hi. rewrite length_app in Hi. simpl in Hi. lia. }
      rewrite list_lookup_middle in Hi by reflexivity. inversion Hi; subst y.
      rewrite list_insert_id by (apply list_lookup_middle; reflexivity).
      rewrite take_app_length. reflexivity.
  - apply last_None in Hlast. subst l. discriminate.
Qed.

Lemma removeSwap_length {A : Type} (i : nat) (l : list A) :
  (length (removeSwap i l) <= length l)%nat.
Proof.
  unfold removeSwap. destruct (last l); [|lia].
  rewrite length_take, length_insert. lia.
Qed.

(** Replacing one group in the slice of groups. *)
Lemma insert_group_Permutation (gs : list Group) (i : nat) (g g' : Group) :
  gs !! i = Some g ->
  concat (map Items (<[i := g']> gs)) ++ Items g ≡ₚ concat (map Items gs) ++ Items g'.
Proof.
  revert i. induction gs as [|a gs IH]; intros [|i] Hi; simpl in *; try discriminate.
  - inversion Hi; subst a.
    rewrite <- !app_assoc.
    rewrite (Permutation_app_comm (concat (map Items gs)) (Items g)).
    rewrite (Permutation_app_comm (concat (map Items gs)) (Items g')).
    rewrite !app_assoc. apply Permutation_app_tail, Permutation_app_comm.
  - rewrite <- !app_assoc. rewrite (IH _ Hi). reflexivity.
Qed.

(** Replacing two different groups by two that hold the same items. *)
Lemma insert_groups_Permutation (gs : list Group) (i1 i2 : nat) (g1 g2 g1' g2' : Group) :
  i1 <> i2 -> gs !! i1 = Some g1 -> gs !! i2 = Some g2 ->
  Items g1' ++ Items g2' ≡ₚ Items g1 ++ Items g2 ->
  concat (map Items (<[i1 := g1']> (<[i2 := g2']> gs))) ≡ₚ concat (map Items gs).
Proof.
  intros Hne H1 H2 Hsame.
  apply (Permutation_app_inv_r (Items g1 ++ Items g2)).
  rewrite app_assoc.
  rewrite (insert_group_Permutation (<[i2 := g2']> gs) i1 g1 g1')
    by (rewrite list_lookup_insert_ne; [exact H1|congruence]).
  rewrite <- app_assoc, (Permutation_app_comm (Items g1') (Items g2)), app_assoc.
  rewrite (insert_group_Permutation gs i2 g2 g2' H2).
  rewrite <- !app_assoc. apply Permutation_app_head.
  rewrite (Permutation_app_comm (Items g2') (Items g1')). exact Hsame.
Qed.

(** ** The partition invariant *)

Lemma partitions_setScore (its : list Item) (s : State) (sc : float) :
  partitions its s -> partitions its (setScore s sc).
Proof. exact id. Qed.

Lemma Copy_Groups (gs : list Group) : map Group_Copy gs = gs.
Proof.
  induction gs as [|[n mi ma it] gs IH]; simpl; [reflexivity|]. rewrite IH. reflexivity.
Qed.

Lemma partitions_Copy (its : list Item) (s : State) :
  partitions its s -> partitions its (State_Copy s).
Proof. unfold partitions. simpl. rewrite Copy_Groups. exact id. Qed.

Lemma partitions_swap (its : list Item) (s t : State) (gIndex1 i gIndex2 i2 : nat) :
  gIndex1 <> gIndex2 -> partitions its s ->
  swapItems gIndex1 i gIndex2 i2 s = Ret t -> partitions its t.
Proof.
  unfold partitions, swapItems. intros Hne Hs Hswap.
  destruct (Groups s !! gIndex1) as [g1|] eqn:H1; [|discriminate].
  destruct (Groups s !! gIndex2) as [g2|] eqn:H2; [|discriminate].
  destruct (Items g1 !! i) as [a|] eqn:Ha; [|discriminate].
  destruct (Items g2 !! i2) as [b|] eqn:Hb; [|discriminate].
  inversion Hswap; subst t; clear Hswap. simpl. rewrite <- Hs.
  eapply insert_groups_Permutation; [congruence|exact H2|exact H1|]. simpl.
  apply (Permutation_app_inv_r ([b] ++ [a])).
  transitivity ((<[i2 := a]> (Items g2) ++ [b]) ++ (<[i := b]> (Items g1) ++ [a]));
    [solve_Permutation|].
  rewrite (insert_Permutation _ _ _ _ Ha), (insert_Permutation _ _ _ _ Hb).
  solve_Permutation.
Qed.

Lemma partitions_move (its : list Item) (s : State) (gIndex1 gIndex2 : nat)
    (g1 g2 : Group) (i : nat) (item : Item) :
  gIndex1 <> gIndex2 -> partitions its s ->
  Groups s !! gIndex1 = Some g1 -> Groups s !! gIndex2 = Some g2 ->
  Items g1 !! i = Some item ->
  partitions its
    (setGroups s
       (<[gIndex1 := setItems g1 (removeSwap i ([] ++ Items g1))]>
          (<[gIndex2 := setItems g2 (Items g2 ++ [item])]> (Groups s)))).
Proof.
  unfold partitions. intros Hne Hs H1 H2 Hitem. simpl. rewrite <- Hs.
  eapply insert_groups_Permutation; [exact Hne|exact H1|exact H2|]. simpl.
  rewrite (Permutation_app_comm (Items g2) [item]), app_assoc.
  rewrite (removeSwap_Permutation _ _ _ Hitem). reflexivity.
Qed.

Lemma applyPermutation_Permutation (perm : list nat) (its l : list Item) :
  applyPermutation perm its = Ret l -> l ≡ₚ its.
Proof.
  unfold applyPermutation. intros Hrun.
  eapply (forRange_invariant (fun l => l ≡ₚ its)); [| |exact Hrun].
  - intros [i v] l1 l2 _ Hl1 Hswap. rewrite <- Hl1. eapply swapAt_Permutation, Hswap.
  - reflexivity.
Qed.

Lemma fillToMin_items (g : Group) (rest : list Item) :
  Items (fillToMin g rest).1 ++ (fillToMin g rest).2 = Items g ++ rest.
Proof.
  revert g. induction rest as [|item rest IH]; intros g; simpl; [reflexivity|].
  destruct (lenItems g <? MinSize g); [|reflexivity].
  rewrite IH. simpl. rewrite <- app_assoc. reflexivity.
Qed.

Lemma fillAllToMin_Permutation (gs : list Group) (rest : list Item) :
  concat (map Items (fillAllToMin gs rest).1) ++ (fillAllToMin gs rest).2
  ≡ₚ concat (map Items gs) ++ rest.
Proof.
  revert rest. induction gs as [|g gs IH]; intros rest; simpl; [reflexivity|].
  pose proof (fillToMin_items g rest) as Hg.
  destruct (fillToMin g rest) as [g' rest1]. simpl in Hg.
  specialize (IH rest1). destruct (fillAllToMin gs rest1) as [gs' rest2]. simpl in *.
  rewrite <- !app_assoc, IH.
  transitivity ((Items g' ++ rest1) ++ concat (map Items gs)); [solve_Permutation|].
  rewrite Hg. solve_Permutation.
Qed.

Lemma roundRobinPass_Permutation (gs : list Group) (rest : list Item) :
  concat (map Items (roundRobinPass gs rest).1) ++ (roundRobinPass gs rest).2
  ≡ₚ concat (map Items gs) ++ rest.
Proof.
  revert rest. induction gs as [|g gs IH]; intros rest; simpl; [reflexivity|].
  destruct (lenItems g =? MaxSize g).
  - specialize (IH rest). destruct (roundRobinPass gs rest) as [gs' rest']. simpl in *.
    rewrite <- !app_assoc, IH. reflexivity.
  - destruct rest as [|item [|item' rest]]; simpl.
    + reflexivity.
    + solve_Permutation.
    + specialize (IH (item' :: rest)).
      destruct (roundRobinPass gs (item' :: rest)) as [gs' rest']. simpl in *.
      rewrite <- !app_assoc, IH. solve_Permutation.
Qed.

Lemma roundRobin_Permutation (fuel : nat) (gs gs' : list Group) (rest : list Item) :
  roundRobin fuel gs rest = Ret gs' ->
  concat (map Items gs') ≡ₚ concat (map Items gs) ++ rest.
Proof.
  revert gs rest. induction fuel as [|fuel IH]; intros gs rest Hrun; simpl in Hrun.
  - destruct rest; [|discriminate]. inversion Hrun; subst gs'. rewrite app_nil_r. reflexivity.
  - destruct rest as [|item rest].
    + inversion Hrun; subst gs'. rewrite app_nil_r. reflexivity.
    + pose proof (roundRobinPass_Permutation gs (item :: rest)) as Hpass.
      destruct (roundRobinPass gs (item :: rest)) as [gs1 rest1]. simpl in Hpass.
      rewrite (IH _ _ Hrun). exact Hpass.
Qed.

Lemma emptyGroups_items (gs : list Group) : concat (map Items (map emptyGroup gs)) = [].
Proof. induction gs as [|g gs IH]; simpl; [reflexivity|exact IH]. Qed.

Section RandomState.

Variable TrimSpace : string -> string.
Variable ParseFloat : string -> option float.

Lemma scatter_partitions (r : runner) (perm : list nat) (s : State) :
  scatter TrimSpace ParseFloat r perm = Ret s -> partitions (items r) s.
Proof.
  unfold scatter, partitions. intros Hrun.
  apply bind_Ret in Hrun as (nextPerm & Hperm & Hrun).
  pose proof (fillAllToMin_Permutation (map emptyGroup (groups r)) nextPerm) as Hfill.
  destruct (fillAllToMin (map emptyGroup (groups r)) nextPerm) as [gs rest].
  apply bind_Ret in Hrun as (gs' & Hrr & Hrun).
  apply bind_Ret in Hrun as (score & _ & Hrun).
  inversion Hrun; subst s. simpl in *.
  rewrite (roundRobin_Permutation _ _ _ _ Hrr), Hfill, emptyGroups_items. simpl.
  eapply applyPermutation_Permutation, Hperm.
Qed.

(** [getRandomState] touches nothing but [currentPermutation]. *)
Lemma getRandomState_frame (r r' : runner) (o : option State) :
  getRandomState TrimSpace ParseFloat r = Ret (o, r') ->
  items r' = items r /\ rules r' = rules r /\ groups r' = groups r
  /\ bestState r' = bestState r /\ statesTried r' = statesTried r
  /\ exists perm, forall s, o = Some s -> scatter TrimSpace ParseFloat r perm = Ret s.
Proof.
  unfold getRandomState. intros Hrun.
  destruct (currentPermutation r) as [perm|].
  - destruct (match length perm with O => perm | S i => incrementPermutation i perm end)
      as [|p0 perm'] eqn:Hperm; [discriminate|].
    destruct (length (p0 :: perm') <=? p0)%nat.
    + inversion Hrun; subst o r'. simpl. repeat split; try reflexivity.
      exists []. intros s Hs. discriminate.
    + apply bind_Ret in Hrun as (s & Hs & Hrun). inversion Hrun; subst o r'. simpl.
      repeat split; try reflexivity.
      exists (p0 :: perm'). intros s' Hs'. inversion Hs'; subst s'. exact Hs.
  - apply bind_Ret in Hrun as (s & Hs & Hrun). inversion Hrun; subst o r'. simpl.
    repeat split; try reflexivity.
    eexists. intros s' Hs'. inversion Hs'; subst s'. exact Hs.
Qed.

End RandomState.

(** ** What the caller sees after the deferred clean-up *)

Lemma clear_populateItem (TrimSpace : string -> string) (ParseFloat : string -> option float)
    (tagName : string) (its : list Item) :
  clearNearnessTagPoints (map (populateItem TrimSpace ParseFloat tagName) its)
  = clearNearnessTagPoints its.
Proof.
  unfold clearNearnessTagPoints. rewrite map_map. apply map_ext. intros item.
  unfold populateItem. destruct (String.eqb _ _); [reflexivity|].
  destruct (parsePoint _ _ _); reflexivity.
Qed.

Lemma clear_populate (TrimSpace : string -> string) (ParseFloat : string -> option float)
    (rs : list Rule) (its : list Item) :
  clearNearnessTagPoints (populateNearnessTagPoints TrimSpace ParseFloat rs its)
  = clearNearnessTagPoints its.
Proof.
  unfold populateNearnessTagPoints. revert its.
  induction rs as [|rule rs IH]; intros its; simpl; [reflexivity|].
  rewrite IH. destruct (_ || _); [reflexivity|apply clear_populateItem].
Qed.

Lemma clear_clean (its : list Item) : clean its -> clearNearnessTagPoints its = its.
Proof.
  unfold clearNearnessTagPoints. induction 1 as [|[id tags near] its Hitem _ IH]; simpl;
    [reflexivity|].
  simpl in Hitem. rewrite Hitem, IH. reflexivity.
Qed.

Lemma clearGroups_items (gs : list Group) :
  concat (map Items (map clearGroup gs)) = clearNearnessTagPoints (concat (map Items gs)).
Proof.
  unfold clearNearnessTagPoints. induction gs as [|g gs IH]; simpl; [reflexivity|].
  rewrite IH, map_app. reflexivity.
Qed.

(** ** The run as a whole *)

Section Run.

Variable TrimSpace : string -> string.
Variable ParseFloat : string -> option float.

(** A successful run returns the groups of a state found by the search, as
    the caller sees them; the state has every property that the random
    states have and that the moves keep. *)
Lemma run_returns_searched (P : State -> Prop) (fuel : nat) (ctx : nat -> bool)
    (its : list Item) (rs : list Rule) (gs result : list Group) :
  (forall s sc, P s -> P (setScore s sc)) ->
  (forall s, P s -> P (State_Copy s)) ->
  (forall s t gIndex1 i gIndex2 i2,
      gIndex1 <> gIndex2 -> P s -> swapItems gIndex1 i gIndex2 i2 s = Ret t -> P t) ->
  (forall s gIndex1 gIndex2 g1 g2 i item,
      gIndex1 <> gIndex2 -> P s ->
      Groups s !! gIndex1 = Some g1 -> Groups s !! gIndex2 = Some g2 ->
      lenItems g2 < MaxSize g2 -> Items g1 !! i = Some item ->
      P (setGroups s
           (<[gIndex1 := setItems g1 (removeSwap i ([] ++ Items g1))]>
              (<[gIndex2 := setItems g2 (Items g2 ++ [item])]> (Groups s))))) ->
  (forall r perm s,
      items r = populateNearnessTagPoints TrimSpace ParseFloat rs its -> groups r = gs ->
      scatter TrimSpace ParseFloat r perm = Ret s -> P s) ->
  GetArrangement TrimSpace ParseFloat fuel ctx its rs gs = Ret (inl result) ->
  exists b, P b /\ result = map clearGroup (Groups b).
Proof.
  intros HsetScore HCopy Hswap Hmove Hscatter Hrun.
  unfold GetArrangement in Hrun. apply bind_Ret in Hrun as ([res rfin] & Hrun & Hres).
  inversion Hres; subst res; clear Hres.
  unfold run in Hrun. destruct (validateInput _); [discriminate|].
  apply bind_Ret in Hrun as ([first r1] & Hfirst & Hrun).
  set (R := fun r : runner =>
              items r = populateNearnessTagPoints TrimSpace ParseFloat rs its /\ groups r = gs).
  assert (Hrandom : forall r o r',
             R r -> getRandomState TrimSpace ParseFloat r = Ret (o, r') ->
             R r' /\ bestState r' = bestState r /\ forall s, o = Some s -> P s).
  { intros r o r' [HRi HRg] Hrand.
    destruct (getRandomState_frame _ _ _ _ _ Hrand)
      as (Hi & _ & Hg & Hb & _ & perm & Hperm).
    split; [split; congruence|]. split; [exact Hb|].
    intros s Hs. eapply Hscatter; [exact HRi|exact HRg|apply Hperm, Hs]. }
  assert (HR0 : R (set_items (newRunner its rs gs)
                     (populateNearnessTagPoints TrimSpace ParseFloat (rules (newRunner its rs gs))
                        (items (newRunner its rs gs))))) by (split; reflexivity).
  destruct (Hrandom _ _ _ HR0 Hfirst) as (HR1 & _ & Hfirst_P).
  destruct first as [next|]; [|discriminate].
  apply bind_Ret in Hrun as (r2 & Hloop & Hrun).
  destruct (bestState r2) as [b|] eqn:Hb; [|discriminate].
  inversion Hrun; subst result rfin; clear Hrun.
  exists b. split; [|reflexivity].
  eapply (mainLoop_invariant TrimSpace ParseFloat P HsetScore HCopy Hswap Hmove R)
    in Hloop; [apply Hloop, Hb| | |exact Hrandom|split; apply HR1| |apply Hfirst_P; reflexivity].
  - intros r t [Hi Hg]. split; assumption.
  - intros r b' [Hi Hg]. split; assumption.
  - intros b' Hb'. simpl in Hb'. inversion Hb'; subst b'. apply Hfirst_P. reflexivity.
Qed.

(** C1.  The partition invariant: every state that [getRandomState]
    produces holds each of the run's items exactly once; a neighbour chosen by
    [getBestNextStateFrom] holds the same items as its source; and the groups
    of a successful [GetArrangement] hold, as a multiset, exactly the input
    items as the caller sees them after the call (the input items themselves
    when they came in without parsed coordinates). *)
Theorem partition_invariant :
  (forall r r' s, getRandomState TrimSpace ParseFloat r = Ret (Some s, r') ->
                  partitions (items r) s)
  /\ (forall r its source best,
         partitions its source ->
         getBestNextStateFrom TrimSpace ParseFloat r source = Ret best ->
         partitions its best)
  /\ (forall fuel ctx its rs gs result,
         GetArrangement TrimSpace ParseFloat fuel ctx its rs gs = Ret (inl result) ->
         concat (map Items result) ≡ₚ clearNearnessTagPoints its
         /\ (clean its -> concat (map Items result) ≡ₚ its)).
Proof.
  split; [|split].
  - intros r r' s Hrand.
    destruct (getRandomState_frame _ _ _ _ _ Hrand) as (_ & _ & _ & _ & _ & perm & Hperm).
    eapply scatter_partitions, Hperm. reflexivity.
  - intros r its source best Hsrc Hbest.
    eapply (getBestNextStateFrom_invariant TrimSpace ParseFloat (partitions its));
      [apply partitions_setScore|apply partitions_Copy|apply partitions_swap| |exact Hsrc|exact Hbest].
    intros s g1i g2i g1 g2 i item Hne Hs H1 H2 _ Hitem. eapply partitions_move; eassumption.
  - intros fuel ctx its rs gs result Hrun.
    apply (run_returns_searched
             (partitions (populateNearnessTagPoints TrimSpace ParseFloat rs its))) in Hrun.
    + destruct Hrun as (b & Hb & ->).
      assert (Hclear : concat (map Items (map clearGroup (Groups b)))
                       ≡ₚ clearNearnessTagPoints its).
      { rewrite clearGroups_items. unfold partitions in Hb.
        rewrite <- (clear_populate TrimSpace ParseFloat rs its).
        unfold clearNearnessTagPoints. apply Permutation_map, Hb. }
      split; [exact Hclear|]. intros Hclean. rewrite Hclear, (clear_clean _ Hclean). reflexivity.
    + apply partitions_setScore.
    + apply partitions_Copy.
    + apply partitions_swap.
    + intros s g1i g2i g1 g2 i item Hne Hs H1 H2 _ Hitem. eapply partitions_move; eassumption.
    + intros r perm s Hi _ Hs. rewrite <- Hi. eapply scatter_partitions, Hs.
Qed.

End Run.

(** ** The capacity invariant *)

Lemma withinCapacity_Copy (s : State) : withinCapacity s -> withinCapacity (State_Copy s).
Proof. unfold withinCapacity. simpl. rewrite Copy_Groups. exact id. Qed.

Lemma withinCapacity_swap (s t : State) (gIndex1 i gIndex2 i2 : nat) :
  withinCapacity s -> swapItems gIndex1 i gIndex2 i2 s = Ret t -> withinCapacity t.
Proof.
  unfold withinCapacity, swapItems. intros Hs Hswap.
  destruct (Groups s !! gIndex1) as [g1|] eqn:H1; [|discriminate].
  destruct (Groups s !! gIndex2) as [g2|] eqn:H2; [|discriminate].
  destruct (Items g1 !! i) as [a|]; [|discriminate].
  destruct (Items g2 !! i2) as [b|]; [|discriminate].
  inversion Hswap; subst t; clear Hswap. simpl.
  pose proof (Forall_lookup_1 _ _ _ _ Hs H1) as Hc1.
  pose proof (Forall_lookup_1 _ _ _ _ Hs H2) as Hc2.
  apply Forall_insert; [apply Forall_insert; [exact Hs|]|];
    unfold capped, lenItems in *; simpl; rewrite length_insert; assumption.
Qed.

Lemma withinCapacity_move (s : State) (gIndex1 gIndex2 : nat) (g1 g2 : Group)
    (i : nat) (item : Item) :
  withinCapacity s ->
  Groups s !! gIndex1 = Some g1 -> Groups s !! gIndex2 = Some g2 ->
  lenItems g2 < MaxSize g2 ->
  withinCapacity
    (setGroups s
       (<[gIndex1 := setItems g1 (removeSwap i ([] ++ Items g1))]>
          (<[gIndex2 := setItems g2 (Items g2 ++ [item])]> (Groups s)))).
Proof.
  unfold withinCapacity. intros Hs H1 H2 Hroom. simpl.
  pose proof (Forall_lookup_1 _ _ _ _ Hs H1) as Hc1.
  apply Forall_insert; [apply Forall_insert; [exact Hs|]|]; unfold capped, lenItems in *; simpl.
  - rewrite length_app. simpl. lia.
  - pose proof (removeSwap_length i (Items g1)). lia.
Qed.

Lemma fillToMin_fits (g : Group) (rest : list Item) : fits g -> fits (fillToMin g rest).1.
Proof.
  revert g. induction rest as [|item rest IH]; intros g Hg; simpl; [exact Hg|].
  destruct (lenItems g <? MinSize g) eqn:Hlt; [|exact Hg].
  apply IH. apply Z.ltb_lt in Hlt. destruct Hg as [Hc Hm].
  unfold fits, capped, lenItems in *. simpl. rewrite length_app. simpl. lia.
Qed.

Lemma fillAllToMin_fits (gs : list Group) (rest : list Item) :
  Forall fits gs -> Forall fits (fillAllToMin gs rest).1.
Proof.
  intros Hgs. revert rest. induction Hgs as [|g gs Hg _ IH]; intros rest; simpl; [constructor|].
  pose proof (fillToMin_fits g rest Hg) as Hg'.
  destruct (fillToMin g rest) as [g' rest1]. specialize (IH rest1).
  destruct (fillAllToMin gs rest1) as [gs' rest2]. simpl in *.
  constructor; assumption.
Qed.

Lemma roundRobinPass_fits (gs : list Group) (rest : list Item) :
  Forall fits gs -> Forall fits (roundRobinPass gs rest).1.
Proof.
  intros Hgs. revert rest. induction Hgs as [|g gs Hg Hgs IH]; intros rest; simpl; [constructor|].
  destruct (lenItems g =? MaxSize g) eqn:Hfull.
  - specialize (IH rest). destruct (roundRobinPass gs rest) as [gs' rest'].
    constructor; assumption.
  - assert (Hg' : forall item, fits (setItems g (Items g ++ [item]))).
    { intros item. apply Z.eqb_neq in Hfull. destruct Hg as [Hc Hm].
      unfold fits, capped, lenItems in *. simpl. rewrite length_app. simpl. lia. }
    destruct rest as [|item [|item' rest]]; simpl.
    + constructor; assumption.
    + constructor; [apply Hg'|exact Hgs].
    + specialize (IH (item' :: rest)).
      destruct (roundRobinPass gs (item' :: rest)) as [gs' rest'].
      constructor; [apply Hg'|exact IH].
Qed.

Lemma roundRobin_fits (fuel : nat) (gs gs' : list Group) (rest : list Item) :
  Forall fits gs -> roundRobin fuel gs rest = Ret gs' -> Forall fits gs'.
Proof.
  revert gs rest. induction fuel as [|fuel IH]; intros gs rest Hgs Hrun; simpl in Hrun.
  - destruct rest; [|discriminate]. inversion Hrun; subst gs'. exact Hgs.
  - destruct rest as [|item rest]; [inversion Hrun; subst gs'; exact Hgs|].
    pose proof (roundRobinPass_fits gs (item :: rest) Hgs) as Hpass.
    destruct (roundRobinPass gs (item :: rest)) as [gs1 rest1].
    eapply IH; [exact Hpass|exact Hrun].
Qed.

Lemma scatter_withinCapacity (TrimSpace : string -> string)
    (ParseFloat : string -> option float) (r : runner) (perm : list nat) (s : State) :
  Forall wellFormed (groups r) ->
  scatter TrimSpace ParseFloat r perm = Ret s -> withinCapacity s.
Proof.
  unfold scatter, withinCapacity. intros Hwf Hrun.
  apply bind_Ret in Hrun as (nextPerm & _ & Hrun).
  assert (Hempty : Forall fits (map emptyGroup (groups r))).
  { apply Forall_map. eapply Forall_impl; [exact Hwf|].
    intros g [H0 Hm]. unfold fits, capped, lenItems. simpl. split; assumption. }
  pose proof (fillAllToMin_fits _ nextPerm Hempty) as Hfill.
  destruct (fillAllToMin (map emptyGroup (groups r)) nextPerm) as [gs rest].
  apply bind_Ret in Hrun as (gs' & Hrr & Hrun).
  apply bind_Ret in Hrun as (score & _ & Hrun).
  inversion Hrun; subst s. simpl.
  eapply Forall_impl; [eapply roundRobin_fits; [exact Hfill|exact Hrr]|].
  intros g [Hc _]. exact Hc.
Qed.

(** C2, as the code has it.  When every group template has
    [0 <= MaxSize] and [MinSize <= MaxSize], every group returned by a
    successful [GetArrangement] holds at most [MaxSize] items. *)
Theorem capacity_upper_bound (TrimSpace : string -> string)
    (ParseFloat : string -> option float) (fuel : nat) (ctx : nat -> bool)
    (its : list Item) (rs : list Rule) (gs result : list Group) :
  Forall wellFormed gs ->
  GetArrangement TrimSpace ParseFloat fuel ctx its rs gs = Ret (inl result) ->
  Forall capped result.
Proof.
  intros Hwf Hrun.
  apply (run_returns_searched TrimSpace ParseFloat withinCapacity) in Hrun.
  - destruct Hrun as (b & Hb & ->). apply Forall_map.
    eapply Forall_impl; [exact Hb|]. intros g Hg.
    unfold capped, lenItems, clearGroup, clearNearnessTagPoints in *. simpl.
    rewrite length_map. exact Hg.
  - intros s sc Hs. exact Hs.
  - apply withinCapacity_Copy.
  - intros s t g1i i g2i i2 _. apply withinCapacity_swap.
  - intros s g1i g2i g1 g2 i item _ Hs H1 H2 Hroom _. eapply withinCapacity_move; eassumption.
  - intros r perm s _ Hg Hs. eapply scatter_withinCapacity; [rewrite Hg; exact Hwf|exact Hs].
Qed.

(** * Further properties of the code *)

(** ** The order of [float64]

    Go's [<] on [float64] is the IEEE-754 comparison; through the
    specification of the primitive floats it is irreflexive, asymmetric and
    transitive, NaN included (NaN is below and above nothing). *)

Ltac compare_cases :=
  repeat match goal with
  | H : context [PosDef.Pos.compare_cont Eq ?a ?b] |- _ =>
      change (PosDef.Pos.compare_cont Eq a b) with (Pos.compare a b) in H
  | |- context [PosDef.Pos.compare_cont Eq ?a ?b] =>
      change (PosDef.Pos.compare_cont Eq a b) with (Pos.compare a b)
  end;
  repeat match goal with
  | H : context [(?a ?= ?b)%Z] |- _ => destruct (Z.compare_spec a b); simpl in H
  | H : context [(?a ?= ?b)%positive] |- _ => destruct (Pos.compare_spec a b); simpl in H
  | |- context [(?a ?= ?b)%Z] => destruct (Z.compare_spec a b); simpl
  | |- context [(?a ?= ?b)%positive] => destruct (Pos.compare_spec a b); simpl
  end.

Lemma SFcompare_Lt_trans (a b c : spec_float) :
  SFcompare a b = Some Lt -> SFcompare b c = Some Lt -> SFcompare a c = Some Lt.
Proof.
  destruct a as [sa|sa| |sa ma ea], b as [sb|sb| |sb mb eb], c as [sc|sc| |sc mc ec];
    simpl; try discriminate;
    try (destruct sa; try discriminate); try (destruct sb; try discriminate);
    try (destruct sc; try discriminate); try reflexivity; try discriminate;
    intros H1 H2; compare_cases; subst; try discriminate; try reflexivity; try lia.
Qed.

Lemma SFcompare_Lt_asym (a b : spec_float) :
  SFcompare a b = Some Lt -> SFcompare b a = Some Gt.
Proof.
  destruct a as [sa|sa| |sa ma ea], b as [sb|sb| |sb mb eb];
    simpl; try discriminate;
    try (destruct sa; try discriminate); try (destruct sb; try discriminate);
    try reflexivity; try discriminate;
    intros H1; compare_cases; subst; try discriminate; try reflexivity; try lia.
Qed.

Lemma float_lt_Lt (a b : float) :
  float_lt a b = true <-> SFcompare (Prim2SF a) (Prim2SF b) = Some Lt.
Proof.
  unfold float_lt. rewrite ltb_spec. unfold SFltb.
  destruct (SFcompare _ _) as [[]|]; split; congruence.
Qed.

Lemma float_lt_trans (a b c : float) :
  float_lt a b = true -> float_lt b c = true -> float_lt a c = true.
Proof. rewrite !float_lt_Lt. apply SFcompare_Lt_trans. Qed.

Lemma float_lt_asym (a b : float) : float_lt a b = true -> float_lt b a = false.
Proof.
  intros H. apply float_lt_Lt, SFcompare_Lt_asym in H.
  destruct (float_lt b a) eqn:Hba; [|reflexivity].
  apply float_lt_Lt in Hba. congruence.
Qed.

Lemma float_lt_irrefl (a : float) : float_lt a a = false.
Proof.
  destruct (float_lt a a) eqn:H; [|reflexivity].
  pose proof (float_lt_asym _ _ H). congruence.
Qed.

Lemma float_gt_trans (a b c : float) :
  float_gt a b = true -> float_gt b c = true -> float_gt a c = true.
Proof. unfold float_gt. intros H1 H2. change (float_lt c a = true). eapply float_lt_trans; eassumption. Qed.

(** ** Hill climbing *)

Section HillClimb.

Variable TrimSpace : string -> string.
Variable ParseFloat : string -> option float.

Lemma swapItems_Score (gIndex1 i gIndex2 i2 : nat) (s t : State) :
  swapItems gIndex1 i gIndex2 i2 s = Ret t -> Score t = Score s.
Proof.
  unfold swapItems. intros H.
  destruct (Groups s !! gIndex1); [|discriminate].
  destruct (Groups s !! gIndex2); [|discriminate].
  destruct (Items _ !! i); [|discriminate]. destruct (Items _ !! i2); [|discriminate].
  inversion H. reflexivity.
Qed.

Lemma improvesOn_step (source best : State) (score : float) :
  improvesOn source best -> float_gt score (Score best) = true ->
  float_gt score (Score source) = true.
Proof.
  intros [->|Hgt] Hstep; [exact Hstep|]. eapply float_gt_trans; eassumption.
Qed.

Lemma putTarget_climbing (source : State) (st : swapping) (t : State) :
  Score t = Score (target st) -> climbing source st -> climbing source (putTarget st t).
Proof.
  unfold climbing, target, putTarget. intros Hscore [Hq Ha].
  destruct (sw_alias st) eqn:Halias; simpl; split; try assumption; try congruence.
  - right. rewrite Hscore. apply Ha. discriminate.
  - intros _. rewrite Hscore. apply Ha. discriminate.
  - intros _. apply Ha. discriminate.
Qed.

Lemma trySwap_climbing (r : runner) (source : State) (gIndex1 i gIndex2 i2 : nat)
    (st st' : swapping) :
  climbing source st ->
  trySwap TrimSpace ParseFloat r source gIndex1 i gIndex2 i2 st = Ret st' ->
  climbing source st'.
Proof.
  intros Hst Hrun. unfold trySwap in Hrun.
  apply bind_Ret in Hrun as (t & Hswap & Hrun).
  pose proof (putTarget_climbing source st t (swapItems_Score _ _ _ _ _ _ Hswap) Hst) as H1.
  apply bind_Ret in Hrun as (score & _ & Hrun).
  set (st1 := putTarget st t) in *.
  set (st2 := mkSwapping (sw_best st1) (setScore (sw_cur st1) score) (sw_alias st1)) in *.
  assert (H2 : climbing source st2) by exact H1.
  destruct (float_gt score (Score (sw_best st2))) eqn:Hgt.
  - inversion Hrun; subst st'. unfold climbing. simpl.
    assert (Hnew : float_gt score (Score source) = true).
    { eapply improvesOn_step; [apply H2|exact Hgt]. }
    split; [right; exact Hnew|intros _; exact Hnew].
  - apply bind_Ret in Hrun as (t' & Hswap' & Hrun). inversion Hrun; subst st'.
    apply putTarget_climbing; [|exact H2].
    rewrite (swapItems_Score _ _ _ _ _ _ Hswap'). reflexivity.
Qed.

Lemma tryGroup_improvesOn (r : runner) (source : State) (gIndex1 i gIndex2 : nat)
    (st st' : search) :
  improvesOn source (bestOption st) ->
  tryGroup TrimSpace ParseFloat r source gIndex1 i gIndex2 st = Ret st' ->
  improvesOn source (bestOption st').
Proof.
  intros Hb Hrun. unfold tryGroup in Hrun.
  destruct (Groups (cur st) !! gIndex1) as [g1|]; [|discriminate].
  destruct (Groups (cur st) !! gIndex2) as [g2|]; [|discriminate].
  destruct (gIndex1 =? gIndex2)%nat; [inversion Hrun; subst st'; exact Hb|].
  destruct (lenItems g2 <? MaxSize g2).
  - destruct (Items g1 !! i) as [item|]; [|discriminate].
    apply bind_Ret in Hrun as (score & _ & Hrun).
    destruct (float_gt score (Score (bestOption st))) eqn:Hgt;
      inversion Hrun; subst st'; simpl; [|exact Hb].
    right. simpl. eapply improvesOn_step; eassumption.
  - apply bind_Ret in Hrun as (sw & Hloop & Hrun). inversion Hrun; subst st'. simpl.
    eapply (forUpTo_invariant (climbing source)) in Hloop; [apply Hloop| |].
    + intros i2 sw1 sw2 _ Hsw1 Hstep. eapply trySwap_climbing; eassumption.
    + split; [exact Hb|]. simpl. congruence.
Qed.

(** X1.  The neighbour [getBestNextStateFrom] returns is the source state itself
    or a state whose score is strictly greater than the source's. *)
Theorem getBestNextStateFrom_improves (r : runner) (source best : State) :
  getBestNextStateFrom TrimSpace ParseFloat r source = Ret best ->
  improvesOn source best.
Proof.
  intros Hrun. unfold getBestNextStateFrom in Hrun.
  apply bind_Ret in Hrun as (st & Hloop & Hrun). inversion Hrun; subst best.
  apply (forRange_invariant (fun st => improvesOn source (bestOption st))) in Hloop.
  - exact Hloop.
  - intros gIndex1 st1 st2 _ Hst1 Hi.
    eapply (forUpTo_invariant (fun st => improvesOn source (bestOption st)));
      [|exact Hst1|exact Hi].
    intros i st3 st4 _ Hst3 Hg.
    eapply (forRange_invariant (fun st => improvesOn source (bestOption st)));
      [|exact Hst3|exact Hg].
    intros gIndex2 st5 st6 _ Hst5 Hstep. eapply tryGroup_improvesOn; eassumption.
  - left. reflexivity.
Qed.

End HillClimb.

(** ** Scattering the items over the groups *)

Lemma fillToMin_counts (g : Group) (rest : list Item) :
  lenItems (fillToMin g rest).1 + Z.of_nat (length (fillToMin g rest).2)
  = lenItems g + Z.of_nat (length rest)
  /\ MaxSize (fillToMin g rest).1 = MaxSize g
  /\ MinSize (fillToMin g rest).1 = MinSize g.
Proof.
  revert g. induction rest as [|item rest IH]; intros g; simpl; [auto|].
  destruct (lenItems g <? MinSize g); [|auto].
  destruct (IH (setItems g (Items g ++ [item]))) as (Hc & Hmax & Hmin).
  rewrite Hc, Hmax, Hmin. unfold lenItems. simpl. rewrite length_app. simpl.
  repeat split; lia.
Qed.

Lemma fillAllToMin_counts (gs : list Group) (rest : list Item) :
  totalPlaced (fillAllToMin gs rest).1 + Z.of_nat (length (fillAllToMin gs rest).2)
  = totalPlaced gs + Z.of_nat (length rest)
  /\ totalMaxSize (fillAllToMin gs rest).1 = totalMaxSize gs.
Proof.
  revert rest. induction gs as [|g gs IH]; intros rest; simpl; [auto|].
  destruct (fillToMin_counts g rest) as (Hc & Hmax & _).
  destruct (fillToMin g rest) as [g' rest1]. simpl in *.
  destruct (IH rest1) as (Hc' & Hmax').
  destruct (fillAllToMin gs rest1) as [gs' rest2]. simpl in *. split; lia.
Qed.

Lemma roundRobinPass_counts (gs : list Group) (rest : list Item) :
  totalPlaced (roundRobinPass gs rest).1 + Z.of_nat (length (roundRobinPass gs rest).2)
  = totalPlaced gs + Z.of_nat (length rest)
  /\ totalMaxSize (roundRobinPass gs rest).1 = totalMaxSize gs.
Proof.
  revert rest. induction gs as [|g gs IH]; intros rest; simpl; [auto|].
  destruct (lenItems g =? MaxSize g).
  - destruct (IH rest) as (Hc & Hmax).
    destruct (roundRobinPass gs rest) as [gs' rest']. simpl in *. split; lia.
  - destruct rest as [|item [|item' rest]]; simpl.
    + auto.
    + unfold lenItems. simpl. rewrite length_app. simpl. split; lia.
    + destruct (IH (item' :: rest)) as (Hc & Hmax).
      destruct (roundRobinPass gs (item' :: rest)) as [gs' rest']. simpl in *.
      unfold lenItems in *. simpl. rewrite length_app. simpl. split; lia.
Qed.

Lemma roundRobinPass_rest_le (gs : list Group) (rest : list Item) :
  (length (roundRobinPass gs rest).2 <= length rest)%nat.
Proof.
  revert rest. induction gs as [|g gs IH]; intros rest; simpl; [lia|].
  destruct (lenItems g =? MaxSize g).
  - specialize (IH rest). destruct (roundRobinPass gs rest). simpl in *. exact IH.
  - destruct rest as [|i1 [|i2 rest]]; simpl; try lia.
    specialize (IH (i2 :: rest)). destruct (roundRobinPass gs (i2 :: rest)). simpl in *. lia.
Qed.

(** A pass over groups of which one has room places at least one item. *)
Lemma roundRobinPass_progress (gs : list Group) (item : Item) (rest : list Item) :
  totalPlaced gs < totalMaxSize gs ->
  (length (roundRobinPass gs (item :: rest)).2 < length (item :: rest))%nat.
Proof.
  intros Hroom.
  assert (Hex : Exists (fun g => lenItems g <> MaxSize g) gs).
  { clear item rest. induction gs as [|g gs IH]; simpl in Hroom; [lia|].
    destruct (decide (lenItems g = MaxSize g)) as [Heq|Hne].
    - right. apply IH. lia.
    - left. exact Hne. }
  clear Hroom. revert item rest.
  induction Hex as [g gs Hne|g gs Hex IH]; intros item rest; simpl.
  - apply Z.eqb_neq in Hne. rewrite Hne.
    destruct rest as [|item' rest]; simpl; [lia|].
    pose proof (roundRobinPass_rest_le gs (item' :: rest)) as Hle.
    destruct (roundRobinPass gs (item' :: rest)) as [gs' rest']. simpl in *. lia.
  - destruct (lenItems g =? MaxSize g).
    + specialize (IH item rest). destruct (roundRobinPass gs (item :: rest)). simpl in *. exact IH.
    + destruct rest as [|item' rest]; simpl; [lia|].
      specialize (IH item' rest). destruct (roundRobinPass gs (item' :: rest)).
      simpl in *. lia.
Qed.

(** With room for all the items the round-robin loop ends. *)
Lemma roundRobin_terminates (fuel : nat) (gs : list Group) (rest : list Item) :
  (length rest <= fuel)%nat ->
  totalPlaced gs + Z.of_nat (length rest) <= totalMaxSize gs ->
  exists gs', roundRobin fuel gs rest = Ret gs'.
Proof.
  revert gs rest. induction fuel as [|fuel IH]; intros gs rest Hfuel Hroom.
  - destruct rest; [|simpl in Hfuel; lia]. exists gs. reflexivity.
  - destruct rest as [|item rest]; [exists gs; reflexivity|]. simpl.
    pose proof (roundRobinPass_counts gs (item :: rest)) as [Hc Hmax].
    pose proof (roundRobinPass_progress gs item rest) as Hprog.
    destruct (roundRobinPass gs (item :: rest)) as [gs1 rest1]. simpl in *.
    apply IH; [|lia].
    assert (length rest1 < S (length rest))%nat; [|lia].
    apply Hprog. lia.
Qed.

Lemma forRange_never_diverges {A S : Type} (l : list A) (body : A -> S -> outcome S) (st : S) :
  (forall a st, body a st <> Diverges) -> forRange l body st <> Diverges.
Proof.
  intros Hbody. revert st. induction l as [|a l IH]; intros st; simpl; [discriminate|].
  specialize (Hbody a st). destruct (body a st); simpl; [apply IH|discriminate|congruence].
Qed.

Lemma applyPermutation_length (perm : list nat) (its l : list Item) :
  applyPermutation perm its = Ret l -> length l = length its.
Proof.
  unfold applyPermutation. intros Hrun.
  eapply (forRange_invariant (fun l => length l = length its)); [| |exact Hrun].
  - intros [i v] l1 l2 _ Hl1 Hswap. unfold swapAt in Hswap.
    destruct (l1 !! i); [|discriminate]. destruct (l1 !! (i + v)%nat); [|discriminate].
    inversion Hswap. rewrite !length_insert. exact Hl1.
  - reflexivity.
Qed.

Lemma emptyGroups_counts (gs : list Group) :
  totalPlaced (map emptyGroup gs) = 0 /\ totalMaxSize (map emptyGroup gs) = totalMaxSize gs.
Proof.
  induction gs as [|g gs [IH1 IH2]]; simpl; [auto|].
  unfold lenItems at 1. simpl. split; lia.
Qed.

Section Scatter.

Variable TrimSpace : string -> string.
Variable ParseFloat : string -> option float.

Lemma CalculateScore_never_diverges (r : runner) (s : State) :
  CalculateScore TrimSpace ParseFloat r s <> Diverges.
Proof.
  assert (Hcur : forall s, CalculateCurrentScore TrimSpace ParseFloat r s <> Diverges).
  { intros s0. apply forRange_never_diverges. intros rule sc. unfold scoreRule.
    destruct (Weight rule =? 0); [discriminate|].
    destruct (String.eqb (Type_ rule) RuleTypeSameness); [discriminate|].
    destruct (String.eqb (Type_ rule) RuleTypeRelationship); [discriminate|].
    destruct (String.eqb (Type_ rule) RuleTypeNearness); discriminate. }
  unfold CalculateScore. destruct (negb _); [|destruct (existsb _ _); [discriminate|apply Hcur]].
  unfold CalculateMaxPotentialScore. specialize (Hcur s).
  destruct (CalculateCurrentScore _ _ _ _); simpl; [|discriminate|congruence].
  apply forRange_never_diverges. intros rule sc. unfold potentialRule.
  destruct (Weight rule =? 0); [discriminate|].
  destruct (String.eqb (Type_ rule) RuleTypeSameness);
    [destruct (Weight rule <? 0); discriminate|].
  destruct (String.eqb (Type_ rule) RuleTypeRelationship); [discriminate|].
  destruct (String.eqb (Type_ rule) RuleTypeNearness); [|discriminate].
  destruct (Weight rule <? 0); discriminate.
Qed.

(** Scattering comes to an end once the validation has passed. *)
Lemma scatter_never_diverges (r : runner) (perm : list nat) :
  int_range (totalMaxSize (groups r)) ->
  validateInput r = None ->
  scatter TrimSpace ParseFloat r perm <> Diverges.
Proof.
  intros Hrange Hvalid. rewrite (validateInput_spec r Hrange) in Hvalid.
  destruct (totalMaxSize (groups r) <? Z.of_nat (length (items r))) eqn:Hlt; [discriminate|].
  apply Z.ltb_ge in Hlt. unfold scatter.
  destruct (applyPermutation perm (items r)) as [nextPerm| |] eqn:Hperm; simpl;
    [|discriminate|].
  - pose proof (applyPermutation_length _ _ _ Hperm) as Hlen.
    pose proof (fillAllToMin_counts (map emptyGroup (groups r)) nextPerm) as [Hc Hmax].
    destruct (emptyGroups_counts (groups r)) as [H0 HM].
    destruct (fillAllToMin (map emptyGroup (groups r)) nextPerm) as [gs rest]. simpl in *.
    destruct (roundRobin_terminates (length rest) gs rest) as [gs' Hrr]; [lia|lia|].
    rewrite Hrr. simpl.
    pose proof (CalculateScore_never_diverges r (mkState gs' [] 0%float)) as Hs.
    destruct (CalculateScore _ _ _ _); simpl; [discriminate|discriminate|congruence].
  - unfold applyPermutation in Hperm. exfalso. revert Hperm.
    apply forRange_never_diverges. intros [i v] l. unfold swapAt.
    destruct (l !! i); [|discriminate]. destruct (l !! (i + v)%nat); discriminate.
Qed.

(** X5.  The comment in [getRandomState] holds: once validation has passed (on a
    total capacity that fits [int]), scattering a permutation never spins in
    the round-robin loop, whatever the minimum and maximum sizes are. *)
Theorem scatter_terminates (r : runner) (perm : list nat) :
  int_range (totalMaxSize (groups r)) ->
  validateInput r = None ->
  scatter TrimSpace ParseFloat r perm <> Diverges.
Proof. exact (scatter_never_diverges r perm). Qed.

End Scatter.

(** *** Minimum sizes first *)

Lemma fillToMin_filled (g : Group) (rest : list Item) :
  Z.max 0 (MinSize g - lenItems g) <= Z.of_nat (length rest) ->
  filled (fillToMin g rest).1
  /\ Z.of_nat (length (fillToMin g rest).2)
     = Z.of_nat (length rest) - Z.max 0 (MinSize g - lenItems g).
Proof.
  revert g. induction rest as [|item rest IH]; intros g Hneed.
  - cbn [fillToMin fst snd length] in *. unfold filled. split; lia.
  - cbn [fillToMin]. rewrite length_cons, Nat2Z.inj_succ in *.
    destruct (lenItems g <? MinSize g) eqn:Hlt.
    + apply Z.ltb_lt in Hlt.
      assert (Hlen : lenItems (setItems g (Items g ++ [item])) = lenItems g + 1).
      { unfold lenItems. cbn [Items setItems]. rewrite length_app. cbn [length]. lia. }
      destruct (IH (setItems g (Items g ++ [item]))) as [Hf Hl].
      { rewrite Hlen. change (MinSize (setItems g (Items g ++ [item]))) with (MinSize g). lia. }
      split; [exact Hf|]. rewrite Hl, Hlen.
      change (MinSize (setItems g (Items g ++ [item]))) with (MinSize g). lia.
    + apply Z.ltb_ge in Hlt. cbn [fst snd]. unfold filled.
      rewrite length_cons, Nat2Z.inj_succ. split; lia.
Qed.

Lemma fillAllToMin_filled (gs : list Group) (rest : list Item) :
  totalNeeded gs <= Z.of_nat (length rest) -> Forall filled (fillAllToMin gs rest).1.
Proof.
  revert rest. induction gs as [|g gs IH]; intros rest Hneed; simpl in *; [constructor|].
  assert (0 <= totalNeeded gs).
  { clear. induction gs as [|g gs IH]; simpl; lia. }
  destruct (fillToMin_filled g rest) as [Hf Hl]; [lia|].
  destruct (fillToMin g rest) as [g' rest1]. simpl in *.
  specialize (IH rest1). destruct (fillAllToMin gs rest1) as [gs' rest2]. simpl in *.
  constructor; [exact Hf|]. apply IH. lia.
Qed.

Lemma roundRobinPass_filled (gs : list Group) (rest : list Item) :
  Forall filled gs -> Forall filled (roundRobinPass gs rest).1.
Proof.
  intros Hgs. revert rest. induction Hgs as [|g gs Hg Hgs IH]; intros rest; simpl; [constructor|].
  assert (Hg' : forall item, filled (setItems g (Items g ++ [item]))).
  { intros item. unfold filled, lenItems in *. simpl. rewrite length_app. simpl. lia. }
  destruct (lenItems g =? MaxSize g).
  - specialize (IH rest). destruct (roundRobinPass gs rest). simpl in *. constructor; assumption.
  - destruct rest as [|i1 [|i2 rest]]; simpl.
    + constructor; assumption.
    + constructor; [apply Hg'|exact Hgs].
    + specialize (IH (i2 :: rest)). destruct (roundRobinPass gs (i2 :: rest)). simpl in *.
      constructor; [apply Hg'|exact IH].
Qed.

Lemma roundRobin_filled (fuel : nat) (gs gs' : list Group) (rest : list Item) :
  Forall filled gs -> roundRobin fuel gs rest = Ret gs' -> Forall filled gs'.
Proof.
  revert gs rest. induction fuel as [|fuel IH]; intros gs rest Hgs Hrun; simpl in Hrun.
  - destruct rest; [|discriminate]. inversion Hrun; subst gs'. exact Hgs.
  - destruct rest as [|item rest]; [inversion Hrun; subst gs'; exact Hgs|].
    pose proof (roundRobinPass_filled gs (item :: rest) Hgs) as Hpass.
    destruct (roundRobinPass gs (item :: rest)) as [gs1 rest1].
    eapply IH; [exact Hpass|exact Hrun].
Qed.

Lemma filled_not_undersized (gs : list Group) :
  Forall filled gs -> existsb undersized gs = false.
Proof.
  induction 1 as [|g gs Hg _ IH]; simpl; [reflexivity|]. rewrite IH, orb_false_r.
  unfold undersized, filled in *. apply andb_false_iff. right. apply Z.ltb_ge. exact Hg.
Qed.

(** X6.  When there are at least as many items as the minimum sizes add up to,
    every state [getRandomState] scatters has all its groups at or above
    their minimum size, empty groups included, and is not rejected by
    [CalculateScore]. *)
Theorem scatter_meets_minimum_sizes (TrimSpace : string -> string)
    (ParseFloat : string -> option float) (r : runner) (perm : list nat) (s : State) :
  totalNeeded (map emptyGroup (groups r)) <= Z.of_nat (length (items r)) ->
  scatter TrimSpace ParseFloat r perm = Ret s ->
  Forall filled (Groups s) /\ existsb undersized (Groups s) = false.
Proof.
  intros Hneed Hrun. unfold scatter in Hrun.
  apply bind_Ret in Hrun as (nextPerm & Hperm & Hrun).
  pose proof (applyPermutation_length _ _ _ Hperm) as Hlen.
  pose proof (fillAllToMin_filled (map emptyGroup (groups r)) nextPerm) as Hfill.
  destruct (fillAllToMin (map emptyGroup (groups r)) nextPerm) as [gs rest].
  apply bind_Ret in Hrun as (gs' & Hrr & Hrun).
  apply bind_Ret in Hrun as (score & _ & Hrun). inversion Hrun; subst s. simpl in *.
  assert (Hall : Forall filled gs').
  { eapply roundRobin_filled; [|exact Hrr]. apply Hfill. rewrite Hlen. exact Hneed. }
  split; [exact Hall|apply filled_not_undersized, Hall].
Qed.

(** ** Geometry *)

Lemma bbox_fold_numPoints (points : list point) (b : bbox) :
  numPoints (fold_left bbox_add points b) = (numPoints b + length points)%nat.
Proof.
  revert b. induction points as [|p points IH]; intros b; simpl; [lia|].
  rewrite IH. unfold bbox_add. destruct (0 <? numPoints b)%nat; simpl; lia.
Qed.

Lemma bbox_fold_groupPoints (its : list Item) (tagName : string) (b : bbox) :
  fold_left (fun b item => match nearnessTags item !! tagName with
                           | Some p => bbox_add b p
                           | None => b
                           end) its b
  = fold_left bbox_add (groupPoints its tagName) b.
Proof.
  unfold groupPoints. revert b. induction its as [|item its IH]; intros b; simpl; [reflexivity|].
  destruct (nearnessTags item !! tagName); simpl; apply IH.
Qed.

(** X11.  [getGroupDistribution], which inlines the bounding-box loop, returns
    what the earlier revision computes by collecting the group's points and
    calling [getDistribution]: the spread of the points and their number. *)
Theorem getGroupDistribution_getDistribution (group : Group) (tagName : string) :
  getGroupDistribution group tagName
  = (getDistribution (groupPoints (Items group) tagName),
     length (groupPoints (Items group) tagName)).
Proof.
  unfold getGroupDistribution. rewrite bbox_fold_groupPoints.
  destruct (groupPoints (Items group) tagName) as [|p0 points]; [reflexivity|].
  cbn [fold_left getDistribution length].
  change (bbox_add bbox_zero p0) with (mkBbox (pt_x p0) (pt_x p0) (pt_y p0) (pt_y p0) 1).
  unfold bbox_spread. rewrite bbox_fold_numPoints. cbn [numPoints]. reflexivity.
Qed.

(** ** Splitting a coordinate *)

Lemma Split_comma_nonempty (str : string) : Split_comma str <> [].
Proof.
  destruct str as [|c rest]; simpl; [discriminate|].
  destruct (Ascii.eqb c ","); [discriminate|]. destruct (Split_comma rest); discriminate.
Qed.

(** Joining the parts of [strings.Split(str, ",")] with commas gives [str]
    back, there are one more parts than commas, and no part holds a comma. *)
Lemma Split_comma_Join (str : string) :
  Join_comma (Split_comma str) = str
  /\ length (Split_comma str) = S (commas str)
  /\ Forall (fun part => commas part = O) (Split_comma str).
Proof.
  unfold Join_comma. induction str as [|c rest (IHj & IHl & IHc)]; [repeat constructor|].
  simpl. destruct (Ascii.eqb_spec c ",") as [->|Hne].
  - pose proof (Split_comma_nonempty rest) as Hnil.
    destruct (Split_comma rest) as [|part parts] eqn:Hsplit; [contradiction|].
    split; [|split].
    + simpl in *. rewrite IHj. reflexivity.
    + simpl in *. lia.
    + constructor; [reflexivity|exact IHc].
  - destruct (Split_comma rest) as [|part parts] eqn:Hsplit.
    + simpl in IHl. discriminate.
    + apply Forall_cons in IHc as [Hpart Hparts]. split; [|split].
      * simpl in *. destruct parts; simpl in *; rewrite <- IHj; reflexivity.
      * simpl in *. lia.
      * constructor; [|exact Hparts]. simpl.
        destruct (Ascii.eqb_spec c ","); [contradiction|exact Hpart].
Qed.

Section Parsing.

Variable TrimSpace : string -> string.
Variable ParseFloat : string -> option float.

(** X12.  [parsePoint] fails on every text that does not hold exactly one comma;
    when it succeeds, the text is [a,b] with both sides free of commas and
    the coordinates are the floats parsed from the trimmed sides. *)
Theorem parsePoint_one_comma (str : string) :
  (commas str <> 1%nat -> parsePoint TrimSpace ParseFloat str = None)
  /\ (forall p, parsePoint TrimSpace ParseFloat str = Some p ->
        exists a b, str = (a ++ "," ++ b)%string
                    /\ commas a = O /\ commas b = O
                    /\ ParseFloat (TrimSpace a) = Some (pt_x p)
                    /\ ParseFloat (TrimSpace b) = Some (pt_y p)).
Proof.
  destruct (Split_comma_Join str) as (Hjoin & Hlen & Hparts).
  unfold parsePoint, Join_comma in *.
  destruct (Split_comma str) as [|a [|b [|c parts]]]; simpl in Hlen; split;
    try (intros; reflexivity); try discriminate; try (intros; lia).
  intros p Hp. exists a, b.
  apply Forall_cons in Hparts as [Ha Hb]. apply Forall_cons in Hb as [Hb _].
  destruct (ParseFloat (TrimSpace a)) as [vx|]; [|discriminate].
  destruct (ParseFloat (TrimSpace b)) as [vy|]; [|discriminate].
  inversion Hp; subst p. simpl in *. rewrite <- Hjoin. repeat split; assumption.
Qed.

End Parsing.

(** ** Rules of weight zero *)

Lemma forRange_filter {A S : Type} (keep : A -> bool) (l : list A)
    (body : A -> S -> outcome S) (st : S) :
  (forall a st, keep a = false -> body a st = Ret st) ->
  forRange l body st = forRange (List.filter keep l) body st.
Proof.
  intros Hskip. revert st. induction l as [|a l IH]; intros st; simpl; [reflexivity|].
  destruct (keep a) eqn:Hk; simpl.
  - destruct (body a st); simpl; [apply IH|reflexivity|reflexivity].
  - rewrite (Hskip _ _ Hk). simpl. apply IH.
Qed.

Section ZeroWeight.

Variable TrimSpace : string -> string.
Variable ParseFloat : string -> option float.

(** X13.  A rule of weight zero is inert whatever its type, Relationship
    included: the coordinates that are pre-parsed and the score of every
    state, terminal or not, are those of the run without the rule. *)
Theorem zero_weight_rules_inert (r : runner) (s : State) :
  populateNearnessTagPoints TrimSpace ParseFloat (rules r) (items r)
  = populateNearnessTagPoints TrimSpace ParseFloat (activeRules (rules r)) (items r)
  /\ CalculateScore TrimSpace ParseFloat r s
     = CalculateScore TrimSpace ParseFloat (set_rules r (activeRules (rules r))) s.
Proof.
  split.
  - unfold populateNearnessTagPoints, activeRules. generalize (items r) as its.
    induction (rules r) as [|rule rs IH]; intros its; simpl; [reflexivity|].
    destruct (Weight rule =? 0) eqn:Hw; simpl; [apply IH|]. rewrite Hw. simpl. apply IH.
  - assert (Hcur : forall s, CalculateCurrentScore TrimSpace ParseFloat r s
                   = CalculateCurrentScore TrimSpace ParseFloat
                       (set_rules r (activeRules (rules r))) s).
    { intros s0. unfold CalculateCurrentScore, activeRules. simpl.
      rewrite (forRange_filter (fun rule => negb (Weight rule =? 0))).
      - reflexivity.
      - intros rule sc Hk. unfold scoreRule.
        destruct (Weight rule =? 0); [reflexivity|discriminate]. }
    unfold CalculateScore. rewrite Hcur.
    destruct (negb (IsTerminal s)); [|reflexivity].
    unfold CalculateMaxPotentialScore. rewrite Hcur.
    destruct (CalculateCurrentScore _ _ _ _); simpl; try reflexivity.
    unfold activeRules. rewrite (forRange_filter (fun rule => negb (Weight rule =? 0))).
    + reflexivity.
    + intros rule sc Hk. unfold potentialRule.
      destruct (Weight rule =? 0); [reflexivity|discriminate].
Qed.

End ZeroWeight.

(** ** factorial *)

Lemma wrap_int_mul_l (a b : Z) : wrap_int (wrap_int a * b) = wrap_int (a * b).
Proof.
  unfold wrap_int. f_equal.
  pose proof (Z.div_mod (a + 2 ^ 63) (2 ^ 64) ltac:(lia)) as Hdm.
  replace (((a + 2 ^ 63) mod 2 ^ 64 - 2 ^ 63) * b + 2 ^ 63)
    with (a * b + 2 ^ 63 + (- ((a + 2 ^ 63) / 2 ^ 64) * b) * 2 ^ 64) by nia.
  apply Z_mod_plus_full.
Qed.

Lemma factorial_loop (k m : nat) (acc : Z) :
  fold_left (fun final i => int_mul final i) (map Z.of_nat (seq (S k) m)) (wrap_int acc)
  = wrap_int (acc * (factorialOf (k + m) / factorialOf k)).
Proof.
  assert (Hpos : forall n, 0 < factorialOf n).
  { induction n as [|n IH]; simpl factorialOf; [lia|]. nia. }
  revert k acc. induction m as [|m IH]; intros k acc.
  - simpl. rewrite Nat.add_0_r, Z.div_same by (pose proof (Hpos k); lia). f_equal. lia.
  - cbn [seq map fold_left]. unfold int_mul at 2. rewrite wrap_int_mul_l, IH. f_equal.
    replace (k + S m)%nat with (S k + m)%nat by lia.
    assert (Hk : factorialOf (S k) = Z.of_nat (S k) * factorialOf k) by reflexivity.
    assert (Hdiv : forall j, (factorialOf k | factorialOf (k + j))).
    { induction j as [|j IHj]; [rewrite Nat.add_0_r; apply Z.divide_refl|].
      replace (k + S j)%nat with (S (k + j)) by lia. simpl factorialOf.
      apply Z.divide_mul_r, IHj. }
    assert (Hdiv' : (factorialOf (S k) | factorialOf (S k + m))).
    { clear -Hpos. induction m as [|m IHm]; [rewrite Nat.add_0_r; apply Z.divide_refl|].
      replace (S k + S m)%nat with (S (S k + m)) by lia.
      change (factorialOf (S (S k + m))) with (Z.of_nat (S (S k + m)) * factorialOf (S k + m)).
      apply Z.divide_mul_r, IHm. }
    destruct Hdiv' as [q Hq]. rewrite Hq.
    rewrite Z.div_mul by (pose proof (Hpos (S k)); lia).
    rewrite Hk, Z.mul_assoc, Z.div_mul by (pose proof (Hpos k); lia). lia.
Qed.

(** X14.  [factorial n] is 1 for [n <= 0]; up to 20 it is the factorial of [n];
    beyond, below the greatest [int], it is the factorial reduced to a 64-bit
    two's complement [int]. *)
Theorem factorial_spec (n : Z) :
  (n <= 0 -> factorial n = 1)
  /\ (0 <= n < int_max -> factorial n = wrap_int (factorialOf (Z.to_nat n)))
  /\ (0 <= n <= 20 -> factorial n = factorialOf (Z.to_nat n)).
Proof.
  assert (Hgen : 0 <= n -> factorial n = wrap_int (factorialOf (Z.to_nat n))).
  { intros Hn. unfold factorial. destruct (n <=? 0) eqn:Hle.
    - apply Z.leb_le in Hle. replace n with 0 by lia. reflexivity.
    - change 1 with (wrap_int 1) at 1. rewrite (factorial_loop 0 (Z.to_nat n) 1).
      simpl factorialOf. rewrite Z.div_1_r. f_equal. simpl. lia. }
  split; [|split; [intros [Hn _]; exact (Hgen Hn)|]].
  - intros Hn. unfold factorial. apply Z.leb_le in Hn. rewrite Hn. reflexivity.
  - intros Hn. rewrite Hgen by lia. apply wrap_int_small.
    assert (Hmono : forall a b, (a <= b)%nat -> 0 < factorialOf a <= factorialOf b).
    { intros a b Hab. induction Hab as [|b Hab IH].
      - split; [|lia]. induction a as [|a IHa]; simpl factorialOf; [lia|nia].
      - simpl factorialOf. nia. }
    destruct (Hmono (Z.to_nat n) 20%nat) as [Hlo Hhi]; [lia|].
    assert (Hbig : factorialOf 20 = 2432902008176640000) by (vm_compute; reflexivity).
    unfold int_range, int_min, int_max. rewrite Hbig in Hhi. lia.
Qed.

(** ** The enumeration of permutations *)

Lemma factorialOf_pos (n : nat) : 0 < factorialOf n.
Proof. induction n as [|n IH]; simpl factorialOf; [lia|nia]. Qed.

Lemma factorialOf_S (n : nat) : factorialOf (S n) = Z.of_nat (S n) * factorialOf n.
Proof. reflexivity. Qed.

Lemma indexVector_zeros (k : nat) : indexVector (replicate k O) = true.
Proof. induction k as [|k IH]; [reflexivity|]. simpl. exact IH. Qed.

Lemma rank_zeros (k : nat) : rank (replicate k O) = 0.
Proof. induction k as [|k IH]; [reflexivity|]. simpl rank. rewrite IH. lia. Qed.

Lemma rank_app (a b : list nat) :
  rank (a ++ b) = rank (a ++ replicate (length b) O) + rank b.
Proof.
  induction a as [|v a IH].
  - simpl. rewrite rank_zeros. lia.
  - cbn [app rank]. rewrite IH, !length_app, length_replicate. lia.
Qed.

Lemma indexVector_app (a b : list nat) :
  indexVector (a ++ b) = indexVector (a ++ replicate (length b) O) && indexVector b.
Proof.
  induction a as [|v a IH].
  - simpl. rewrite indexVector_zeros. reflexivity.
  - cbn [app indexVector]. rewrite IH, !length_app, length_replicate.
    rewrite andb_assoc. reflexivity.
Qed.

Lemma rank_range (perm : list nat) :
  indexVector perm = true -> 0 <= rank perm < factorialOf (length perm).
Proof.
  induction perm as [|v rest IH]; intros Hv.
  - simpl. lia.
  - cbn [indexVector] in Hv. apply andb_true_iff in Hv as [Hle Hrest].
    apply Nat.leb_le in Hle. specialize (IH Hrest).
    cbn [rank length]. rewrite factorialOf_S.
    pose proof (factorialOf_pos (length rest)). nia.
Qed.

Lemma rank_injective (p q : list nat) :
  length p = length q -> indexVector p = true -> indexVector q = true ->
  rank p = rank q -> p = q.
Proof.
  revert q. induction p as [|v p IH]; intros [|w q] Hlen Hp Hq Hrank; try discriminate.
  - reflexivity.
  - cbn [indexVector] in Hp, Hq.
    apply andb_true_iff in Hp as [_ Hp]. apply andb_true_iff in Hq as [_ Hq].
    cbn [rank] in Hrank. injection Hlen as Hlen. rewrite Hlen in Hrank.
    pose proof (rank_range p Hp) as Hrp. pose proof (rank_range q Hq) as Hrq.
    rewrite Hlen in Hrp.
    assert (Hvw : Z.of_nat v = Z.of_nat w) by nia.
    assert (v = w) by lia. subst w.
    f_equal. apply IH; [exact Hlen|exact Hp|exact Hq|lia].
Qed.

(** The loop of [getRandomState] that moves to the next index vector, seen
    at position [i] with the [k] entries behind it already reset. *)
Lemma incrementPermutation_carry (i : nat) : forall (pre : list nat) (d k : nat),
  length pre = i ->
  indexVector (pre ++ d :: replicate k O) = true ->
  length (incrementPermutation i (pre ++ d :: replicate k O)) = (i + S k)%nat
  /\ rank (incrementPermutation i (pre ++ d :: replicate k O))
     = rank (pre ++ d :: replicate k O) + factorialOf k
  /\ (indexVector (incrementPermutation i (pre ++ d :: replicate k O)) = true
      \/ incrementPermutation i (pre ++ d :: replicate k O)
         = (i + S k)%nat :: replicate (i + k) O).
Proof.
  induction i as [|i IH]; intros pre d k Hlen Hvec.
  - destruct pre; [|discriminate]. cbn [app incrementPermutation].
    cbn [app indexVector] in Hvec. apply andb_true_iff in Hvec as [Hd _].
    apply Nat.leb_le in Hd. rewrite length_replicate in Hd.
    change (alter S O (d :: replicate k O)) with (S d :: replicate k O).
    cbn [length rank]. rewrite length_replicate.
    split; [lia|]. split; [lia|].
    destruct (decide (d = k)) as [->|Hne].
    + right. reflexivity.
    + left. cbn [indexVector]. rewrite length_replicate, indexVector_zeros.
      apply andb_true_iff. split; [apply Nat.leb_le; lia|reflexivity].
  - destruct pre as [|d' pre' _] using rev_ind; [discriminate|].
    rewrite length_app in Hlen. cbn [length] in Hlen.
    assert (Hlen' : length pre' = i) by lia.
    pose proof Hvec as Hd. rewrite indexVector_app in Hd.
    apply andb_true_iff in Hd as [Hpre Hd]. cbn [indexVector] in Hd.
    apply andb_true_iff in Hd as [Hd _]. apply Nat.leb_le in Hd.
    rewrite length_replicate in Hd.
    cbn [incrementPermutation].
    rewrite (list_lookup_middle (pre' ++ [d']) (replicate k O) d (S i))
      by (rewrite length_app; cbn [length]; lia).
    cbn [default from_option]. unfold id.
    rewrite !length_app. cbn [length]. rewrite length_replicate.
    replace (length pre' + 1 + S k - S i - 1)%nat with k by lia.
    destruct (d <? k)%nat eqn:Hlt.
    + apply Nat.ltb_lt in Hlt.
      assert (Halter : alter S (S i) ((pre' ++ [d']) ++ d :: replicate k O)
                       = (pre' ++ [d']) ++ S d :: replicate k O).
      { replace (S i) with (length (pre' ++ [d']) + 0)%nat
          by (rewrite length_app; cbn [length]; lia).
        rewrite alter_app_r. reflexivity. }
      rewrite Halter.
      split; [rewrite !length_app; cbn [length]; rewrite length_replicate; lia|].
      split.
      * rewrite (rank_app (pre' ++ [d']) (S d :: replicate k O)).
        rewrite (rank_app (pre' ++ [d']) (d :: replicate k O)).
        cbn [length rank]. rewrite !length_replicate. lia.
      * left. rewrite indexVector_app. apply andb_true_iff. split.
        -- cbn [length] in Hpre |- *. exact Hpre.
        -- cbn [indexVector]. rewrite length_replicate, indexVector_zeros.
           apply andb_true_iff. split; [apply Nat.leb_le; lia|reflexivity].
    + apply Nat.ltb_ge in Hlt. assert (d = k) by lia. subst d.
      assert (Hins : <[S i := O]> ((pre' ++ [d']) ++ k :: replicate k O)
                     = pre' ++ d' :: replicate (S k) O).
      { replace (S i) with (length (pre' ++ [d']) + 0)%nat
          by (rewrite length_app; cbn [length]; lia).
        rewrite insert_app_r, <- app_assoc. reflexivity. }
      rewrite Hins.
      assert (Hvec' : indexVector (pre' ++ d' :: replicate (S k) O) = true).
      { cbn [length] in Hpre. rewrite length_replicate in Hpre.
        rewrite <- app_assoc in Hpre. exact Hpre. }
      destruct (IH pre' d' (S k) Hlen' Hvec') as (Hl & Hr & Hv).
      split; [lia|]. split.
      * rewrite Hr.
        rewrite (rank_app (pre' ++ [d']) (k :: replicate k O)).
        cbn [length]. rewrite length_replicate, <- app_assoc. cbn [app].
        cbn [rank]. rewrite length_replicate, rank_zeros, factorialOf_S. lia.
      * destruct Hv as [Hv|Hv]; [left; exact Hv|right].
        rewrite Hv. f_equal; [lia|f_equal; lia].
Qed.

Lemma indexVector_last (perm : list nat) (d : nat) :
  indexVector (perm ++ [d]) = true -> d = O.
Proof.
  rewrite indexVector_app. intros Hv. apply andb_true_iff in Hv as [_ Hv].
  cbn [indexVector length] in Hv. apply andb_true_iff in Hv as [Hv _].
  apply Nat.leb_le in Hv. lia.
Qed.

(** One turn of the increment loop of [getRandomState] on an index vector. *)
Lemma incrementPermutation_next (perm : list nat) :
  perm <> [] -> indexVector perm = true ->
  length (incrementPermutation (length perm - 1) perm) = length perm
  /\ rank (incrementPermutation (length perm - 1) perm) = rank perm + 1
  /\ 0 <= rank perm < factorialOf (length perm)
  /\ (if rank perm + 1 <? factorialOf (length perm)
      then indexVector (incrementPermutation (length perm - 1) perm) = true
      else incrementPermutation (length perm - 1) perm
           = length perm :: replicate (length perm - 1) O).
Proof.
  intros Hne Hvec.
  destruct perm as [|d pre _] using rev_ind; [contradiction|].
  pose proof (indexVector_last _ _ Hvec) as ->.
  pose proof (rank_range _ Hvec) as Hrange.
  rewrite length_app in *. cbn [length] in *.
  replace (length pre + 1 - 1)%nat with (length pre) by lia.
  destruct (incrementPermutation_carry (length pre) pre O O eq_refl Hvec) as (Hl & Hr & Hv).
  cbn [replicate] in *. change (factorialOf 0) with 1 in Hr.
  split; [lia|]. split; [exact Hr|]. split; [exact Hrange|].
  destruct (rank (pre ++ [O]) + 1 <? factorialOf (length pre + 1)) eqn:Hlt.
  - apply Z.ltb_lt in Hlt. destruct Hv as [Hv|Hv]; [exact Hv|exfalso].
    rewrite Hv in Hr. cbn [rank] in Hr. rewrite length_replicate, rank_zeros in Hr.
    replace (length pre + 1)%nat with (S (length pre)) in Hlt by lia.
    rewrite factorialOf_S in Hlt.
    replace (length pre + 0)%nat with (length pre) in Hr by lia.
    replace (length pre + 1)%nat with (S (length pre)) in Hr by lia. lia.
  - apply Z.ltb_ge in Hlt. destruct Hv as [Hv|Hv].
    + exfalso. pose proof (rank_range _ Hv) as Hr'. rewrite Hl, Hr in Hr'. lia.
    + rewrite Hv. do 2 f_equal. lia.
Qed.

(** X9.  The increment loop of [getRandomState] is the successor of the
    factorial number system: on an index vector it keeps the length and adds
    one to the rank; the result is again an index vector, unless the rank
    has reached the factorial of the length, when the first entry is the
    length, which is what the code tests to stop. *)
Theorem incrementPermutation_successor (perm : list nat) :
  perm <> [] -> indexVector perm = true ->
  length (incrementPermutation (length perm - 1) perm) = length perm
  /\ rank (incrementPermutation (length perm - 1) perm) = rank perm + 1
  /\ 0 <= rank perm < factorialOf (length perm)
  /\ (if rank perm + 1 <? factorialOf (length perm)
      then indexVector (incrementPermutation (length perm - 1) perm) = true
      else incrementPermutation (length perm - 1) perm
           = length perm :: replicate (length perm - 1) O).
Proof. exact (incrementPermutation_next perm). Qed.

(** ** The shuffle *)

Lemma shuffleFrom_cons {A : Type} (k v : nat) (perm : list nat) (l : list A) :
  shuffleFrom k (v :: perm) l = swapAt k (k + v) l ≫= shuffleFrom (S k) perm.
Proof. reflexivity. Qed.

Lemma applyPermutation_shuffleFrom (perm : list nat) (its : list Item) :
  applyPermutation perm its = shuffleFrom 0 perm its.
Proof. reflexivity. Qed.

Lemma swapAt_in_range {A : Type} (i j : nat) (l : list A) :
  (i < length l)%nat -> (j < length l)%nat ->
  exists l', swapAt i j l = Ret l' /\ length l' = length l
    /\ l' !! i = l !! j
    /\ (forall n, n <> i -> n <> j -> l' !! n = l !! n).
Proof.
  intros Hi Hj. unfold swapAt.
  destruct (lookup_lt_is_Some_2 l i Hi) as [a Ha].
  destruct (lookup_lt_is_Some_2 l j Hj) as [b Hb].
  rewrite Ha, Hb. eexists. split; [reflexivity|].
  split; [rewrite !length_insert; reflexivity|]. split.
  - destruct (decide (i = j)) as [->|Hne].
    + rewrite list_lookup_insert_eq by (rewrite length_insert; exact Hj). congruence.
    + rewrite list_lookup_insert_ne by congruence.
      rewrite list_lookup_insert_eq by exact Hi. congruence.
  - intros n Hni Hnj. rewrite !list_lookup_insert_ne by congruence. reflexivity.
Qed.

(** On an index vector the shuffle never leaves the slice; it keeps what is
    before its starting index. *)
Lemma shuffleFrom_runs {A : Type} (perm : list nat) : forall (k : nat) (l : list A),
  indexVector perm = true -> (k + length perm <= length l)%nat ->
  exists l', shuffleFrom k perm l = Ret l' /\ length l' = length l
    /\ (forall n, (n < k)%nat -> l' !! n = l !! n).
Proof.
  induction perm as [|v perm IH]; intros k l Hvec Hlen.
  - exists l. split; [reflexivity|]. split; reflexivity.
  - cbn [indexVector] in Hvec. apply andb_true_iff in Hvec as [Hv Hvec].
    apply Nat.leb_le in Hv. cbn [length] in Hlen.
    destruct (swapAt_in_range k (k + v) l) as (l1 & Hswap & Hlen1 & _ & Hframe); [lia|lia|].
    destruct (IH (S k) l1 Hvec) as (l' & Hrun & Hlen' & Hframe'); [lia|].
    exists l'. rewrite shuffleFrom_cons, Hswap. split; [exact Hrun|].
    split; [congruence|].
    intros n Hn. rewrite Hframe' by lia. apply Hframe; lia.
Qed.

Lemma shuffleFrom_zeros {A : Type} (n : nat) : forall (k : nat) (l : list A),
  (k + n <= length l)%nat -> shuffleFrom k (replicate n O) l = Ret l.
Proof.
  induction n as [|n IH]; intros k l Hlen; [reflexivity|].
  cbn [replicate]. rewrite shuffleFrom_cons. unfold swapAt.
  rewrite Nat.add_0_r.
  destruct (lookup_lt_is_Some_2 l k) as [a Ha]; [lia|].
  rewrite Ha. cbn. rewrite list_insert_insert_eq, list_insert_id by exact Ha.
  apply IH. lia.
Qed.

Lemma shuffleFrom_injective {A : Type} (p : list nat) :
  forall (q : list nat) (k : nat) (l l' : list A),
  length p = length q -> indexVector p = true -> indexVector q = true ->
  (k + length p <= length l)%nat -> NoDup l ->
  shuffleFrom k p l = Ret l' -> shuffleFrom k q l = Ret l' -> p = q.
Proof.
  induction p as [|v p IH]; intros [|w q] k l l' Hlen Hp Hq Hk Hnd Hrp Hrq;
    try discriminate; [reflexivity|].
  cbn [indexVector] in Hp, Hq.
  apply andb_true_iff in Hp as [Hv Hp]. apply andb_true_iff in Hq as [Hw Hq].
  apply Nat.leb_le in Hv. apply Nat.leb_le in Hw.
  injection Hlen as Hlen. cbn [length] in Hk.
  rewrite shuffleFrom_cons in Hrp, Hrq.
  destruct (swapAt_in_range k (k + v) l) as (l1 & Hs1 & Hl1 & Hk1 & _); [lia|lia|].
  destruct (swapAt_in_range k (k + w) l) as (l2 & Hs2 & Hl2 & Hk2 & _); [lia|lia|].
  rewrite Hs1 in Hrp. rewrite Hs2 in Hrq. cbn in Hrp, Hrq.
  destruct (shuffleFrom_runs p (S k) l1 Hp) as (r1 & Hr1 & _ & Hf1); [lia|].
  destruct (shuffleFrom_runs q (S k) l2 Hq) as (r2 & Hr2 & _ & Hf2); [lia|].
  assert (r1 = l') by congruence. assert (r2 = l') by congruence. subst r1 r2.
  assert (Hsame : l !! (k + v)%nat = l !! (k + w)%nat).
  { rewrite <- Hk1, <- Hk2, <- (Hf1 k), <- (Hf2 k) by lia. reflexivity. }
  destruct (lookup_lt_is_Some_2 l (k + v)) as [a Ha]; [lia|].
  assert (Hvw : (k + v)%nat = (k + w)%nat).
  { eapply NoDup_lookup; [exact Hnd|exact Ha|]. rewrite <- Hsame. exact Ha. }
  assert (v = w) by lia. subst w.
  assert (l2 = l1) by congruence. subst l2.
  f_equal. eapply (IH q (S k) l1 l'); try eassumption; [lia|].
  eapply NoDup_Permutation_proper; [|exact Hnd]. eapply swapAt_Permutation, Hs1.
Qed.

(** X7.  The first state of [getRandomState] is drawn with the vector of zeros,
    which leaves the items in their given order. *)
Theorem applyPermutation_first (its : list Item) :
  applyPermutation (replicate (length its) O) its = Ret its.
Proof. rewrite applyPermutation_shuffleFrom. apply shuffleFrom_zeros. lia. Qed.

(** X8.  On an index vector as long as the items the shuffle of [getRandomState]
    indexes inside the slice only: it returns a reordering of the items.
    Two index vectors that reorder pairwise different items the same way are
    the same vector, so no order is drawn twice. *)
Theorem applyPermutation_index_vector (perm : list nat) (its : list Item) :
  indexVector perm = true -> length perm = length its ->
  (exists l, applyPermutation perm its = Ret l /\ l ≡ₚ its)
  /\ (forall q, indexVector q = true -> length q = length its -> NoDup its ->
        applyPermutation q its = applyPermutation perm its -> q = perm).
Proof.
  intros Hvec Hlen. rewrite applyPermutation_shuffleFrom.
  destruct (shuffleFrom_runs perm 0 its Hvec) as (l & Hrun & _); [lia|].
  split.
  - exists l. split; [exact Hrun|].
    eapply applyPermutation_Permutation. rewrite applyPermutation_shuffleFrom. exact Hrun.
  - intros q Hq Hlenq Hnd Heq. rewrite applyPermutation_shuffleFrom, Hrun in Heq.
    eapply (shuffleFrom_injective q perm 0 its l); try eassumption; [congruence|lia].
Qed.

Section Enumeration.

Variable TrimSpace : string -> string.
Variable ParseFloat : string -> option float.

(** A later call of [getRandomState], by the rank of its index vector. *)
Lemma getRandomState_next (r : runner) (perm : list nat) :
  currentPermutation r = Some perm -> indexVector perm = true ->
  match perm with
  | [] => getRandomState TrimSpace ParseFloat r = Panic "index out of range"
  | _ :: _ =>
      let perm' := incrementPermutation (length perm - 1) perm in
      let r' := set_currentPermutation r (Some perm') in
      getRandomState TrimSpace ParseFloat r
      = if rank perm + 1 <? factorialOf (length perm)
        then s ← scatter TrimSpace ParseFloat r perm'; Ret (Some s, r')
        else Ret (None, r')
  end.
Proof.
  intros Hcur Hvec. unfold getRandomState. rewrite Hcur.
  destruct perm as [|v perm]; [reflexivity|].
  destruct (incrementPermutation_next (v :: perm) ltac:(discriminate) Hvec)
    as (Hlen & Hrank & Hrange & Hnext).
  cbn [length] in *. replace (S (length perm) - 1)%nat with (length perm) in * by lia.
  cbv zeta.
  destruct (incrementPermutation (length perm) (v :: perm)) as [|p0 rest] eqn:Hinc;
    [discriminate|].
  destruct (rank (v :: perm) + 1 <? factorialOf (S (length perm))) eqn:Hlt.
  - cbn [indexVector] in Hnext. apply andb_true_iff in Hnext as [Hp0 _].
    apply Nat.leb_le in Hp0. cbn [length] in Hlen |- *.
    destruct (S (length rest) <=? p0)%nat eqn:Hle; [apply Nat.leb_le in Hle; lia|].
    reflexivity.
  - injection Hnext as -> ->. cbn [length]. rewrite length_replicate.
    destruct (S (length perm) <=? S (length perm))%nat eqn:Hle; [reflexivity|].
    apply Nat.leb_gt in Hle. lia.
Qed.

(** X10.  On an index vector that is not the last one, the next call of
    [getRandomState] scatters the items shuffled by its successor; on the
    last one, of rank [n! - 1], it returns nil.  With no item at all the
    test of [currentPermutation[0]] is out of range. *)
Theorem getRandomState_enumerates (r : runner) (perm : list nat) :
  currentPermutation r = Some perm -> indexVector perm = true ->
  match perm with
  | [] => getRandomState TrimSpace ParseFloat r = Panic "index out of range"
  | _ :: _ =>
      let perm' := incrementPermutation (length perm - 1) perm in
      let r' := set_currentPermutation r (Some perm') in
      getRandomState TrimSpace ParseFloat r
      = if rank perm + 1 <? factorialOf (length perm)
        then s ← scatter TrimSpace ParseFloat r perm'; Ret (Some s, r')
        else Ret (None, r')
  end.
Proof. exact (getRandomState_next r perm). Qed.

End Enumeration.

(** ** The bookkeeping of the run *)

Section Bookkeeping.

Variable TrimSpace : string -> string.
Variable ParseFloat : string -> option float.

Lemma populate_length (rs : list Rule) (its : list Item) :
  length (populateNearnessTagPoints TrimSpace ParseFloat rs its) = length its.
Proof.
  unfold populateNearnessTagPoints. revert its.
  induction rs as [|rule rs IH]; intros its; simpl; [reflexivity|].
  rewrite IH. destruct (_ || _); [reflexivity|apply length_map].
Qed.

(** The main loop leaves the items, the rules and the group templates of
    the runner alone, and its best state only moves to local maxima of
    strictly higher score. *)
Lemma mainLoop_bestSince (fuel : nat) (ctx : nat -> bool) (first : State) :
  forall (k : nat) (r r' : runner) (next : State),
  bestSince TrimSpace ParseFloat first r ->
  mainLoop TrimSpace ParseFloat fuel ctx k r next = Ret r' ->
  (items r' = items r /\ rules r' = rules r /\ groups r' = groups r)
  /\ bestSince TrimSpace ParseFloat first r'.
Proof.
  induction fuel as [|fuel IH]; intros k r r' next Hbest Hrun; simpl in Hrun; [discriminate|].
  assert (Hrandom : forall r0 o r1,
             bestSince TrimSpace ParseFloat first r0 ->
             getRandomState TrimSpace ParseFloat r0 = Ret (o, r1) ->
             (items r1 = items r0 /\ rules r1 = rules r0 /\ groups r1 = groups r0)
             /\ bestSince TrimSpace ParseFloat first r1).
  { intros r0 o r1 (b & Hb & Hcase) Hrand.
    destruct (getRandomState_frame _ _ _ _ _ Hrand) as (Hi & Hr & Hg & Hbs & _).
    split; [repeat split; assumption|].
    exists b. rewrite Hbs, Hi, Hr. split; [exact Hb|exact Hcase]. }
  destruct (ctx k).
  { inversion Hrun; subst r'. split; [repeat split|exact Hbest]. }
  destruct (existsb _ (statesTried r)).
  - apply bind_Ret in Hrun as ([o r1] & Hrand & Hrun).
    destruct (Hrandom _ _ _ Hbest Hrand) as ((Hi & Hr & Hg) & Hbest1).
    destruct o as [n|].
    + destruct (IH _ _ _ _ Hbest1 Hrun) as ((Hi' & Hr' & Hg') & Hbest').
      split; [repeat split; congruence|exact Hbest'].
    + inversion Hrun; subst r'. split; [repeat split; assumption|exact Hbest1].
  - set (r1 := set_statesTried r (State_digest next :: statesTried r)) in *.
    assert (Hbest1 : bestSince TrimSpace ParseFloat first r1) by exact Hbest.
    apply bind_Ret in Hrun as (best & Hclimb & Hrun).
    destruct (float_gt (Score best) (Score next)) eqn:Hgt.
    + destruct (IH _ _ _ _ Hbest1 Hrun) as (Hframe & Hbest'). split; assumption.
    + change (bestState r1) with (bestState r) in Hrun.
      destruct Hbest as (b & Hb & Hcase). rewrite Hb in Hrun.
      set (r2 := if float_gt (Score next) (Score b) then set_bestState r1 (Some next) else r1) in *.
      assert (Hframe2 : items r2 = items r /\ rules r2 = rules r /\ groups r2 = groups r).
      { unfold r2. destruct (float_gt (Score next) (Score b)); repeat split. }
      assert (Hbest2 : bestSince TrimSpace ParseFloat first r2).
      { unfold r2. destruct (float_gt (Score next) (Score b)) eqn:Hnb; [|exact Hbest1].
        exists next. split; [reflexivity|]. right. split.
        - destruct Hcase as [->|[Hbf _]]; [exact Hnb|].
          eapply float_gt_trans; [exact Hnb|exact Hbf].
        - exists r1, best. repeat split; assumption. }
      apply bind_Ret in Hrun as ([o r3] & Hrand & Hrun).
      destruct (Hrandom _ _ _ Hbest2 Hrand) as ((Hi & Hr & Hg) & Hbest3).
      destruct Hframe2 as (Hi2 & Hr2 & Hg2).
      destruct o as [n|].
      * destruct (IH _ _ _ _ Hbest3 Hrun) as ((Hi' & Hr' & Hg') & Hbest').
        split; [repeat split; congruence|exact Hbest'].
      * inversion Hrun; subst r'. split; [repeat split; congruence|exact Hbest3].
Qed.

(** X2.  What [run] hands back.  On an input that fails the validation nothing
    is touched.  Otherwise the first state is the one drawn with the items in
    their given order, and a run that returns hands back that state or a
    local maximum that scores strictly above it; the runner keeps its rules
    and group templates, and its items are the input items with the parsed
    coordinates removed again. *)
Theorem run_returns_first_or_better (fuel : nat) (ctx : nat -> bool) (r r' : runner)
    (res : list Group + error) :
  currentPermutation r = None ->
  run TrimSpace ParseFloat fuel ctx r = Ret (res, r') ->
  match validateInput r with
  | Some err => res = inr err /\ r' = r
  | None =>
      let its := populateNearnessTagPoints TrimSpace ParseFloat (rules r) (items r) in
      rules r' = rules r /\ groups r' = groups r
      /\ items r' = clearNearnessTagPoints (items r)
      /\ exists first b,
           scatter TrimSpace ParseFloat (set_items r its) (replicate (length (items r)) O)
           = Ret first
           /\ res = inl (map clearGroup (Groups b))
           /\ (b = first
               \/ float_gt (Score b) (Score first) = true
                  /\ localMaximum TrimSpace ParseFloat its (rules r) b)
  end.
Proof.
  intros Hperm Hrun. unfold run in Hrun.
  destruct (validateInput r) as [err|]; [inversion Hrun; split; reflexivity|].
  cbv zeta.
  apply bind_Ret in Hrun as ([o r1] & Hfirst & Hrun).
  unfold getRandomState in Hfirst. cbn [currentPermutation set_items] in Hfirst.
  rewrite Hperm in Hfirst.
  apply bind_Ret in Hfirst as (first & Hscatter & Hfirst).
  inversion Hfirst; subst o r1; clear Hfirst.
  apply bind_Ret in Hrun as (r2 & Hloop & Hrun).
  apply (mainLoop_bestSince _ _ first) in Hloop;
    [|exists first; split; [reflexivity|left; reflexivity]].
  destruct Hloop as ((Hi & Hr & Hg) & b & Hb & Hcase).
  rewrite Hb in Hrun. inversion Hrun; subst res r'; clear Hrun.
  cbn [rules groups items set_items] in *.
  split; [exact Hr|]. split; [exact Hg|]. split.
  - rewrite Hi. apply clear_populate.
  - exists first, b. cbn [items set_items] in Hscatter.
    rewrite populate_length in Hscatter.
    split; [exact Hscatter|]. split; [reflexivity|].
    destruct Hcase as [->|[Hgt Hmax]]; [left; reflexivity|right].
    split; [exact Hgt|]. rewrite Hi, Hr in Hmax. exact Hmax.
Qed.

(** X3.  A context that is done at the first test makes [GetArrangement] return
    the first state, the items scattered in their given order, with no
    error (on an input that passes the validation). *)
Theorem cancelled_run_returns_first_state (fuel : nat) (ctx : nat -> bool)
    (its : list Item) (rs : list Rule) (gs : list Group) :
  validateInput (newRunner its rs gs) = None -> ctx O = true ->
  GetArrangement TrimSpace ParseFloat (S fuel) ctx its rs gs
  = first ← scatter TrimSpace ParseFloat
              (set_items (newRunner its rs gs)
                 (populateNearnessTagPoints TrimSpace ParseFloat rs its))
              (replicate (length its) O);
    Ret (inl (map clearGroup (Groups first))).
Proof.
  intros Hvalid Hctx. unfold GetArrangement, run. rewrite Hvalid.
  unfold getRandomState. cbn [currentPermutation set_items newRunner items rules].
  rewrite populate_length.
  destruct (scatter _ _ _ _) as [first| |]; [|reflexivity|reflexivity].
  cbn. rewrite Hctx. reflexivity.
Qed.

End Bookkeeping.

(** ** No items at all *)

Lemma fillAllToMin_nil (gs : list Group) : fillAllToMin gs [] = (gs, []).
Proof. induction gs as [|g gs IH]; simpl; [reflexivity|]. rewrite IH. reflexivity. Qed.

Lemma lenGroupItems_empty (s : State) (gIndex : nat) :
  Forall (fun g => Items g = []) (Groups s) -> lenGroupItems s gIndex = O.
Proof.
  intros Hempty. unfold lenGroupItems.
  destruct (Groups s !! gIndex) as [g|] eqn:Hg; [|reflexivity].
  rewrite Forall_lookup in Hempty. simpl. rewrite (Hempty _ _ Hg). reflexivity.
Qed.

Lemma forRange_fixed {A S : Type} (l : list A) (body : A -> S -> outcome S) (st : S) :
  (forall a, body a st = Ret st) -> forRange l body st = Ret st.
Proof.
  intros Hbody. induction l as [|a l IH]; simpl; [reflexivity|].
  rewrite Hbody. exact IH.
Qed.

Section NoItems.

Variable TrimSpace : string -> string.
Variable ParseFloat : string -> option float.

(** With nothing in any group there is nothing to move or swap:
    [getBestNextStateFrom] hands back its source. *)
Lemma getBestNextStateFrom_empty (r : runner) (s : State) :
  Forall (fun g => Items g = []) (Groups s) ->
  getBestNextStateFrom TrimSpace ParseFloat r s = Ret s.
Proof.
  intros Hempty. unfold getBestNextStateFrom. cbv zeta.
  rewrite forRange_fixed; [reflexivity|].
  intros gIndex1. rewrite (lenGroupItems_empty s gIndex1 Hempty).
  cbn [forUpTo cur]. rewrite lenGroupItems_empty; [reflexivity|].
  cbn [State_Copy Groups]. rewrite Copy_Groups. exact Hempty.
Qed.

Lemma populate_nil (rs : list Rule) : populateNearnessTagPoints TrimSpace ParseFloat rs [] = [].
Proof.
  unfold populateNearnessTagPoints. induction rs as [|rule rs IH]; simpl; [reflexivity|].
  destruct (_ || _); exact IH.
Qed.

(** X4.  With no items [GetArrangement] does not return: once the first state,
    of empty groups, has been explored, [getRandomState] tests the first
    entry of an index vector that has none.  (When the score of the empty
    groups cannot be computed, that failure comes first; when the context is
    done at once, the empty groups are returned.) *)
Theorem no_items_index_out_of_range (fuel : nat) (ctx : nat -> bool)
    (rs : list Rule) (gs : list Group) (score : float) :
  validateInput (newRunner [] rs gs) = None ->
  CalculateScore TrimSpace ParseFloat (newRunner [] rs gs)
    (mkState (map emptyGroup gs) [] 0%float) = Ret score ->
  GetArrangement TrimSpace ParseFloat (S fuel) ctx [] rs gs
  = if ctx O then Ret (inl (map emptyGroup gs)) else Panic "index out of range".
Proof.
  intros Hvalid Hscore.
  set (next := setScore (mkState (map emptyGroup gs) [] 0%float) score).
  assert (Hfirst : getRandomState TrimSpace ParseFloat (newRunner [] rs gs)
                   = Ret (Some next, set_currentPermutation (newRunner [] rs gs) (Some []))).
  { unfold getRandomState, scatter.
    change (currentPermutation (newRunner [] rs gs)) with (@None (list nat)).
    change (items (newRunner [] rs gs)) with (@nil Item).
    change (groups (newRunner [] rs gs)) with gs.
    change (applyPermutation (replicate (length []) O) []) with (Ret (@nil Item)).
    change (Ret [] ≫= ?f) with (f []). cbv beta.
    rewrite fillAllToMin_nil.
    change (roundRobin (length []) (map emptyGroup gs) []) with (Ret (map emptyGroup gs)).
    change (Ret (map emptyGroup gs) ≫= ?f) with (f (map emptyGroup gs)). cbv beta zeta.
    rewrite Hscore. reflexivity. }
  assert (Hempty : Forall (fun g => Items g = []) (Groups next)).
  { apply Forall_forall. intros g Hg. apply list_elem_of_fmap in Hg as (g' & -> & _).
    reflexivity. }
  unfold GetArrangement, run. rewrite Hvalid.
  change (rules (newRunner [] rs gs)) with rs.
  change (items (newRunner [] rs gs)) with (@nil Item).
  rewrite populate_nil.
  change (set_items (newRunner [] rs gs) []) with (newRunner [] rs gs).
  rewrite Hfirst.
  change (Ret (Some next, ?r1) ≫= ?f) with (f (Some next, r1)). cbv beta iota.
  cbn [mainLoop]. destruct (ctx O).
  - change (Ret ?r2 ≫= ?f) with (f r2). cbv beta.
    cbn [bestState set_bestState]. 
    change (Ret ?x ≫= ?f) with (f x). cbv beta iota.
    f_equal. f_equal. cbn [Groups next setScore].
    unfold clearGroup, clearNearnessTagPoints.
    rewrite map_map. apply map_ext. intros g. reflexivity.
  - change (existsb _ (statesTried _)) with false. cbv iota.
    rewrite getBestNextStateFrom_empty by exact Hempty.
    change (Ret next ≫= ?f) with (f next). cbv beta.
    unfold float_gt at 1. fold (float_lt (Score next) (Score next)).
    rewrite float_lt_irrefl.
    cbn [bestState set_statesTried set_bestState set_currentPermutation newRunner].
    unfold float_gt at 1. fold (float_lt (Score next) (Score next)).
    rewrite float_lt_irrefl.
    reflexivity.
Qed.

End NoItems.

(** ** The earlier revision: the priority search *)

Lemma alter_lookup_insert {A : Type} (f : A -> A) (l : list A) (i : nat) (x : A) :
  l !! i = Some x -> alter f i l = <[i := f x]> l.
Proof.
  revert i. induction l as [|a l IH]; intros [|i] Hi; simpl in *; try discriminate.
  - inversion Hi; subst a. reflexivity.
  - f_equal. apply IH, Hi.
Qed.

Lemma placesNext_accountsFor (its : list Item) (s c : State) :
  placesNext s c -> accountsFor its s -> accountsFor its c.
Proof.
  intros (i & group & item & Hg & _ & Hrest & Hgroups) Hs.
  unfold accountsFor in *. rewrite Hrest in Hs. rewrite Hgroups, <- Hs.
  pose proof (insert_group_Permutation (Groups s) i group
                (setItems group (Items group ++ [item])) Hg) as Hins.
  cbn [Items setItems] in Hins.
  apply (Permutation_app_inv_r (Items group)).
  transitivity ((concat (map Items (<[i := setItems group (Items group ++ [item])]> (Groups s)))
                 ++ Items group) ++ ItemsNotInGroups c); [solve_Permutation|].
  rewrite Hins. solve_Permutation.
Qed.

Lemma placesNext_withinCapacity (s c : State) :
  placesNext s c -> withinCapacity s -> withinCapacity c.
Proof.
  intros (i & group & item & Hg & Hroom & _ & Hgroups) Hs.
  unfold withinCapacity in *. rewrite Hgroups. apply Forall_insert; [exact Hs|].
  rewrite Forall_lookup in Hs. specialize (Hs _ _ Hg).
  unfold capped, lenItems in *. cbn [Items MaxSize setItems].
  rewrite length_app. cbn [length]. lia.
Qed.

Lemma placesNext_instantiates (gs : list Group) (s c : State) :
  placesNext s c -> instantiates gs s -> instantiates gs c.
Proof.
  intros (i & group & item & Hg & _ & _ & Hgroups) Hs.
  unfold instantiates in *. rewrite Hgroups, <- Hs, list_fmap_insert.
  apply list_insert_id. rewrite list_lookup_fmap, Hg. reflexivity.
Qed.

Lemma insertStateToTry_Permutation (states : list State) (toInsert : State) :
  PrioritySearch.insertStateToTry states toInsert ≡ₚ toInsert :: states.
Proof.
  unfold PrioritySearch.insertStateToTry.
  set (i := PrioritySearch.Search _ _ _ _).
  destruct (i <? length states)%nat.
  - rewrite <- (take_drop i states) at 3. solve_Permutation.
  - solve_Permutation.
Qed.

Section PriorityQueue.

Variable TrimSpace : string -> string.
Variable ParseFloat : string -> option float.

(** The children of a state of the priority search. *)
Lemma getPossibleNextStatesFrom_placesNext (r : runner) (s : State) (children : list State) :
  PrioritySearch.getPossibleNextStatesFrom TrimSpace ParseFloat r s = Ret children ->
  Forall (placesNext s) children /\ (length children <= length (Groups s))%nat.
Proof.
  unfold PrioritySearch.getPossibleNextStatesFrom. intros Hrun.
  apply bind_Ret in Hrun as ([tried nextStates] & Hloop & Hrun).
  inversion Hrun; subst children; clear Hrun.
  assert (Hgen : forall l acc acc',
             forRange l (PrioritySearch.expandInto TrimSpace ParseFloat r s) acc = Ret acc' ->
             Forall (placesNext s) acc.2 ->
             Forall (placesNext s) acc'.2
             /\ (length acc'.2 <= length acc.2 + length l)%nat).
  { induction l as [|i l IH]; intros acc acc' Hl Hacc; simpl in Hl.
    - inversion Hl; subst acc'. split; [exact Hacc|lia].
    - apply bind_Ret in Hl as (acc1 & Hstep & Hl).
      assert (Hacc1 : Forall (placesNext s) acc1.2
                      /\ (length acc1.2 <= S (length acc.2))%nat).
      { destruct acc as [t ns]. unfold PrioritySearch.expandInto in Hstep.
        destruct (Groups s !! i) as [group|] eqn:Hg; [|discriminate].
        destruct (lenItems group =? MaxSize group) eqn:Hfull;
          [inversion Hstep; subst acc1; split; [exact Hacc|simpl; lia]|].
        destruct ((length (Items group) =? 0)%nat && t);
          [inversion Hstep; subst acc1; split; [exact Hacc|simpl; lia]|].
        cbn [State_Copy ItemsNotInGroups Groups Score app] in Hstep.
        destruct (ItemsNotInGroups s) as [|item rest] eqn:Hrest; [discriminate|].
        apply bind_Ret in Hstep as (score & _ & Hstep). inversion Hstep; subst acc1.
        cbn [snd]. split; [|rewrite length_app; cbn [length]; lia].
        apply Forall_app. split; [exact Hacc|]. apply Forall_singleton.
        exists i, group, item. split; [exact Hg|]. split; [apply Z.eqb_neq, Hfull|].
        split; [exact Hrest|]. cbn [Groups setScore].
        rewrite Copy_Groups.
        exact (alter_lookup_insert (fun g => setItems g (Items g ++ [item])) _ _ _ Hg). }
      destruct Hacc1 as [Hacc1 Hlen1].
      destruct (IH _ _ Hl Hacc1) as [Hacc' Hlen']. split; [exact Hacc'|]. cbn [length]. lia. }
  destruct (Hgen _ _ _ Hloop (Forall_nil_2 _)) as [Hall Hlen].
  split; [exact Hall|]. cbn [snd length] in Hlen. rewrite length_seq in Hlen. exact Hlen.
Qed.

(** The loop of [getPossibleNextStatesFrom] from index [k] on: the states
    it adds, and the indexes of the groups they fill. *)
Lemma expandInto_indices (r : runner) (s : State) (m : nat) :
  forall (k : nat) (tried : bool) (nextStates : list State) (acc' : bool * list State),
  forRange (seq k m) (PrioritySearch.expandInto TrimSpace ParseFloat r s) (tried, nextStates)
  = Ret acc' ->
  exists idxs added,
    acc'.2 = nextStates ++ added
    /\ Forall2 (placesNextAt s) idxs added
    /\ StronglySorted Nat.lt idxs
    /\ Forall (fun i => (k <= i)%nat) idxs
    /\ (length (List.filter (emptyAt s) idxs) <= 1)%nat
    /\ (tried = true -> List.filter (emptyAt s) idxs = []).
Proof.
  induction m as [|m IH]; intros k tried nextStates acc' Hrun.
  - inversion Hrun; subst acc'. exists [], []. cbn [snd]. rewrite app_nil_r.
    split; [reflexivity|]. split; [constructor|]. split; [constructor|].
    split; [constructor|]. split; [simpl; lia|reflexivity].
  - cbn [seq forRange] in Hrun. apply bind_Ret in Hrun as (acc1 & Hstep & Hrun).
    assert (Hskip : acc1 = (tried, nextStates) ->
              exists idxs added,
                acc'.2 = nextStates ++ added
                /\ Forall2 (placesNextAt s) idxs added
                /\ StronglySorted Nat.lt idxs
                /\ Forall (fun i => (k <= i)%nat) idxs
                /\ (length (List.filter (emptyAt s) idxs) <= 1)%nat
                /\ (tried = true -> List.filter (emptyAt s) idxs = [])).
    { intros ->. destruct (IH _ _ _ _ Hrun) as (idxs & added & H1 & H2 & H3 & H4 & H5 & H6).
      exists idxs, added. repeat (split; [assumption|]). split; [|split; assumption].
      eapply Forall_impl; [exact H4|]. intros i Hi. cbv beta in Hi. lia. }
    unfold PrioritySearch.expandInto in Hstep.
    destruct (Groups s !! k) as [group|] eqn:Hg; [|discriminate].
    destruct (lenItems group =? MaxSize group) eqn:Hfull;
      [apply Hskip; congruence|].
    assert (Hk : emptyAt s k = (length (Items group) =? 0)%nat)
      by (unfold emptyAt; rewrite Hg; reflexivity).
    destruct (length (Items group) =? 0)%nat eqn:Hempty; destruct tried;
      cbn [andb] in Hstep; try (apply Hskip; congruence).
    all: cbn [State_Copy ItemsNotInGroups Groups Score app] in Hstep.
    all: destruct (ItemsNotInGroups s) as [|item rest] eqn:Hrest; [discriminate|].
    all: apply bind_Ret in Hstep as (score & _ & Hstep); inversion Hstep; subst acc1; clear Hstep.
    all: destruct (IH _ _ _ _ Hrun) as (idxs & added & H1 & H2 & H3 & H4 & H5 & H6).
    all: match type of H1 with
         | _ = (_ ++ [?child]) ++ _ =>
             exists (k :: idxs), (child :: added);
             assert (Hchild : placesNextAt s k child)
         end.
    all: try (exists group, item; split; [exact Hg|]; split; [apply Z.eqb_neq, Hfull|];
              split; [exact Hrest|]; cbn [Groups setScore]; rewrite Copy_Groups;
              exact (alter_lookup_insert (fun g => setItems g (Items g ++ [item])) _ _ _ Hg)).
    all: split; [rewrite H1, <- app_assoc; reflexivity|].
    all: split; [constructor; assumption|].
    all: split; [constructor; [exact H3|];
                 eapply Forall_impl; [exact H4|]; intros i Hi; cbv beta in Hi; unfold Nat.lt; lia|].
    all: split; [constructor; [lia|];
                 eapply Forall_impl; [exact H4|]; intros i Hi; cbv beta in Hi; lia|].
    all: cbn [List.filter]; rewrite Hk.
    + rewrite (H6 eq_refl). split; [simpl; lia|discriminate].
    + split; [exact H5|exact H6].
    + split; [exact H5|exact H6].
Qed.

(** X15.  Every state that [getPossibleNextStatesFrom] returns is its argument
    with the first unplaced item put into a group that had room.  The groups
    filled are different ones, met in slice order, so there is at most one
    state per group; and at most one of them was empty. *)
Theorem getPossibleNextStatesFrom_children (r : runner) (s : State) (children : list State) :
  PrioritySearch.getPossibleNextStatesFrom TrimSpace ParseFloat r s = Ret children ->
  exists idxs : list nat,
    Forall2 (placesNextAt s) idxs children
    /\ StronglySorted Nat.lt idxs
    /\ (length (List.filter (emptyAt s) idxs) <= 1)%nat
    /\ Forall (placesNext s) children
    /\ (length children <= length (Groups s))%nat.
Proof.
  intros Hrun.
  destruct (getPossibleNextStatesFrom_placesNext r s children Hrun) as [Hall Hlen].
  unfold PrioritySearch.getPossibleNextStatesFrom in Hrun.
  apply bind_Ret in Hrun as ([tried nextStates] & Hloop & Hrun).
  inversion Hrun; subst children; clear Hrun.
  destruct (expandInto_indices r s _ _ _ _ _ Hloop) as (idxs & added & H1 & H2 & H3 & _ & H5 & _).
  cbn [snd app] in H1. subst added.
  exists idxs. repeat (split; [assumption|]). exact Hlen.
Qed.

Lemma consider_invariant (P : State -> Prop) (next s : State)
    (st st' : option State * list State) :
  P s ->
  (forall b, st.1 = Some b -> P b /\ IsTerminal b = true) /\ Forall P st.2 ->
  PrioritySearch.consider next s st = Ret st' ->
  (forall b, st'.1 = Some b -> P b /\ IsTerminal b = true) /\ Forall P st'.2.
Proof.
  intros Hs [Hbest Hsts] Hrun. destruct st as [best sts].
  unfold PrioritySearch.consider in Hrun. cbn [fst snd] in *.
  destruct (IsTerminal s) eqn:Hterm.
  - destruct best as [b|].
    + destruct (float_gt (Score s) (Score b)); inversion Hrun; subst st'; cbn [fst snd].
      * split; [|exact Hsts]. intros b' Hb'. inversion Hb'; subst b'. split; assumption.
      * split; assumption.
    + inversion Hrun; subst st'. cbn [fst snd]. split; [|exact Hsts].
      intros b' Hb'. inversion Hb'; subst b'. split; assumption.
  - destruct (PrioritySearch.cannotBeat best next); inversion Hrun; subst st'; cbn [fst snd].
    + split; assumption.
    + split; [exact Hbest|]. rewrite insertStateToTry_Permutation.
      apply Forall_cons. split; assumption.
Qed.

Lemma priority_mainLoop_invariant (P : State -> Prop) (r : runner) (fuel : nat)
    (ctx : nat -> bool) :
  (forall s c, placesNext s c -> P s -> P c) ->
  forall (k : nat) (best best' : option State) (statesToTry : list State),
  (forall b, best = Some b -> P b /\ IsTerminal b = true) ->
  Forall P statesToTry ->
  PrioritySearch.mainLoop TrimSpace ParseFloat fuel ctx k r best statesToTry = Ret best' ->
  forall b, best' = Some b -> P b /\ IsTerminal b = true.
Proof.
  intros Hchild. induction fuel as [|fuel IH]; intros k best best' sts Hbest Hsts Hrun;
    simpl in Hrun; [discriminate|].
  destruct (last sts) as [next|] eqn:Hlast; [|inversion Hrun; subst best'; exact Hbest].
  destruct (ctx k); [inversion Hrun; subst best'; exact Hbest|].
  assert (Hnext : P next).
  { rewrite Forall_forall in Hsts. apply Hsts. eapply last_Some_elem_of, Hlast. }
  assert (Hpopped : Forall P (take (length sts - 1) sts)) by (apply Forall_take, Hsts).
  destruct (PrioritySearch.cannotBeat best next).
  - eapply IH; [exact Hbest|exact Hpopped|exact Hrun].
  - apply bind_Ret in Hrun as (children & Hchildren & Hrun).
    apply bind_Ret in Hrun as ([best1 sts1] & Hloop & Hrun).
    destruct (getPossibleNextStatesFrom_placesNext _ _ _ Hchildren) as [Hplaces _].
    apply (forRange_invariant
             (fun st => (forall b, st.1 = Some b -> P b /\ IsTerminal b = true)
                        /\ Forall P st.2)) in Hloop.
    + destruct Hloop as [Hbest1 Hsts1]. eapply IH; [exact Hbest1|exact Hsts1|exact Hrun].
    + intros c st st' Hc Hst Hstep. eapply consider_invariant; [|exact Hst|exact Hstep].
      rewrite Forall_forall in Hplaces. eapply Hchild; [apply Hplaces, Hc|exact Hnext].
    + split; [exact Hbest|exact Hpopped].
Qed.

(** X16.  The earlier revision returns a complete arrangement: its groups are the
    templates, filled with exactly the input items as the caller sees them,
    each once; and no group is above a [MaxSize] that is not negative. *)
Theorem priority_search_arrangement (fuel : nat) (ctx : nat -> bool)
    (its : list Item) (rs : list Rule) (gs result : list Group) :
  PrioritySearch.GetArrangement TrimSpace ParseFloat fuel ctx its rs gs = Ret (inl result) ->
  concat (map Items result) ≡ₚ clearNearnessTagPoints its
  /\ map emptyGroup result = map emptyGroup gs
  /\ (Forall (fun g => 0 <= MaxSize g) gs -> Forall capped result).
Proof.
  unfold PrioritySearch.GetArrangement, PrioritySearch.run. intros Hrun.
  destruct (validateInput _); [discriminate|].
  cbn [rules items groups newRunner set_items] in Hrun.
  set (its' := populateNearnessTagPoints TrimSpace ParseFloat rs its) in *.
  apply bind_Ret in Hrun as (score & _ & Hrun).
  apply bind_Ret in Hrun as (best & Hloop & Hrun).
  destruct best as [b|]; [|discriminate]. inversion Hrun; subst result; clear Hrun.
  set (initial := setScore (mkState (map emptyGroup gs) its' 0%float) score) in *.
  assert (Hinv : forall P : State -> Prop,
             (forall s c, placesNext s c -> P s -> P c) -> P initial ->
             P b /\ IsTerminal b = true).
  { intros P Hchild Hinit.
    eapply (priority_mainLoop_invariant P _ _ _ Hchild _ None (Some b) [initial]);
      [intros ? ?; discriminate|apply Forall_singleton, Hinit|exact Hloop|reflexivity]. }
  destruct (Hinv (fun s => accountsFor its' s /\ instantiates gs s)) as [[Hacc Hinst] Hterm].
  { intros s c Hc [H1 H2]. split;
      [eapply placesNext_accountsFor|eapply placesNext_instantiates]; eassumption. }
  { split.
    - unfold accountsFor. cbn. rewrite emptyGroups_items. reflexivity.
    - unfold instantiates. cbn. rewrite map_map. apply map_ext. intros g. reflexivity. }
  unfold IsTerminal in Hterm. apply Nat.eqb_eq, nil_length_inv in Hterm.
  unfold accountsFor in Hacc. rewrite Hterm, app_nil_r in Hacc.
  split; [|split].
  - rewrite clearGroups_items, <- (clear_populate TrimSpace ParseFloat rs its).
    unfold clearNearnessTagPoints. apply Permutation_map, Hacc.
  - unfold instantiates in Hinst. rewrite <- Hinst, map_map. apply map_ext.
    intros g. reflexivity.
  - intros Hmax.
    destruct (Hinv withinCapacity placesNext_withinCapacity) as [Hcap _].
    { unfold withinCapacity. cbn.
      apply Forall_fmap. eapply Forall_impl; [exact Hmax|].
      intros g Hg. unfold capped, lenItems. cbn. exact Hg. }
    unfold withinCapacity in Hcap. apply Forall_fmap.
    eapply Forall_impl; [exact Hcap|].
    intros g Hg. unfold capped, lenItems, clearGroup, clearNearnessTagPoints in *.
    cbn. rewrite length_map. exact Hg.
Qed.

End PriorityQueue.

(** ** The sorted frontier of the earlier revision *)

Lemma SFcompare_not_Lt_trans (a b c : spec_float) :
  b <> S754_nan ->
  SFcompare a b <> Some Lt -> SFcompare b c <> Some Lt -> SFcompare a c <> Some Lt.
Proof.
  destruct a as [sa|sa| |sa ma ea], b as [sb|sb| |sb mb eb], c as [sc|sc| |sc mc ec];
    simpl; try congruence;
    try (destruct sa); try (destruct sb); try (destruct sc); try congruence;
    intros _ H1 H2; compare_cases; subst; try congruence; try lia.
Qed.

(** Where the middle one is a number, [<] on [float64] is negatively
    transitive. *)
Lemma float_lt_negative_trans (a b c : float) :
  PrimFloat.is_nan b = false ->
  float_lt a b = false -> float_lt b c = false -> float_lt a c = false.
Proof.
  intros Hb H1 H2.
  assert (Hnan : Prim2SF b <> S754_nan).
  { intros Hnan. unfold PrimFloat.is_nan in Hb. rewrite FloatAxioms.eqb_spec, Hnan in Hb. discriminate. }
  destruct (float_lt a c) eqn:H3; [exfalso|reflexivity].
  apply float_lt_Lt in H3. revert H3.
  apply (SFcompare_not_Lt_trans _ (Prim2SF b)); [exact Hnan| |].
  - intros H. apply float_lt_Lt in H. congruence.
  - intros H. apply float_lt_Lt in H. congruence.
Qed.

Lemma StronglySorted_app_inv {A : Type} (R : A -> A -> Prop) (l1 l2 : list A) :
  StronglySorted R (l1 ++ l2) ->
  StronglySorted R l1 /\ StronglySorted R l2 /\ Forall (fun x => Forall (R x) l2) l1.
Proof.
  induction l1 as [|a l1 IH]; simpl; intros Hs.
  - split; [constructor|]. split; [exact Hs|constructor].
  - apply StronglySorted_inv in Hs as [Hs Ha]. destruct (IH Hs) as (H1 & H2 & H3).
    apply Forall_app in Ha as [Ha1 Ha2].
    split; [constructor; assumption|]. split; [exact H2|]. constructor; assumption.
Qed.

Lemma StronglySorted_app_intro {A : Type} (R : A -> A -> Prop) (l1 l2 : list A) :
  StronglySorted R l1 -> StronglySorted R l2 -> Forall (fun x => Forall (R x) l2) l1 ->
  StronglySorted R (l1 ++ l2).
Proof.
  induction l1 as [|a l1 IH]; simpl; intros H1 H2 H3; [exact H2|].
  apply StronglySorted_inv in H1 as [H1 Ha]. apply Forall_cons in H3 as [Ha2 H3].
  constructor; [apply IH; assumption|]. apply Forall_app. split; assumption.
Qed.

(** [sort.Search] on a predicate that, once true, stays true up to [n]:
    the least index where it holds, or [n]. *)
Lemma Search_least (n : nat) (f : nat -> bool) (fuel : nat) : forall i j : nat,
  (forall k k', (k <= k')%nat -> (k' < n)%nat -> f k = true -> f k' = true) ->
  (i <= j)%nat -> (j <= n)%nat -> (j - i <= fuel)%nat ->
  (forall k, (k < i)%nat -> f k = false) ->
  (forall k, (j <= k)%nat -> (k < n)%nat -> f k = true) ->
  (PrioritySearch.Search fuel i j f <= n)%nat
  /\ (forall k, (k < PrioritySearch.Search fuel i j f)%nat -> f k = false)
  /\ (forall k, (PrioritySearch.Search fuel i j f <= k)%nat -> (k < n)%nat -> f k = true).
Proof.
  induction fuel as [|fuel IH]; intros i j Hmono Hij Hjn Hfuel Hlow Hhigh.
  - assert (i = j) by lia. subst j. simpl. split; [lia|]. split; assumption.
  - cbn [PrioritySearch.Search]. destruct (i <? j)%nat eqn:Hlt.
    + apply Nat.ltb_lt in Hlt.
      assert (Hh : (i <= (i + j) / 2 < j)%nat).
      { split; [apply Nat.div_le_lower_bound; lia|apply Nat.Div0.div_lt_upper_bound; lia]. }
      destruct (f ((i + j) / 2)%nat) eqn:Hfh.
      * apply IH; [exact Hmono|lia|lia|lia|exact Hlow|].
        intros k Hk Hkn. eapply Hmono; [exact Hk|exact Hkn|exact Hfh].
      * apply IH; [exact Hmono|lia|lia|lia| |exact Hhigh].
        intros k Hk. destruct (f k) eqn:Hfk; [|reflexivity].
        rewrite (Hmono k ((i + j) / 2)%nat) in Hfh; [discriminate|lia|lia|exact Hfk].
    + apply Nat.ltb_ge in Hlt. assert (i = j) by lia. subst j.
      split; [lia|]. split; assumption.
Qed.

(** X17.  [insertStateToTry] adds the state to the frontier and loses none.  On a
    frontier whose scores are numbers and which is sorted from highest to
    lowest score, the result is sorted so again. *)
Theorem insertStateToTry_sorted (states : list State) (toInsert : State) :
  PrioritySearch.insertStateToTry states toInsert ≡ₚ toInsert :: states
  /\ (Forall (fun s => PrimFloat.is_nan (Score s) = false) states ->
      StronglySorted notBelow states ->
      StronglySorted notBelow (PrioritySearch.insertStateToTry states toInsert)).
Proof.
  split; [apply insertStateToTry_Permutation|].
  intros Hnum Hsorted. unfold PrioritySearch.insertStateToTry.
  set (f := fun i : nat => match states !! i with
                           | Some st => float_lt (Score st) (Score toInsert)
                           | None => false
                           end).
  assert (Hmono : forall k k', (k <= k')%nat -> (k' < length states)%nat ->
                               f k = true -> f k' = true).
  { intros k k' Hkk Hk' Hfk. unfold f in *.
    destruct (states !! k) as [a|] eqn:Ha; [|discriminate].
    destruct (lookup_lt_is_Some_2 states k' Hk') as [b Hb]. rewrite Hb.
    destruct (decide (k = k')) as [->|Hne]; [congruence|].
    destruct (float_lt (Score b) (Score toInsert)) eqn:Hbx; [reflexivity|exfalso].
    assert (Hab : notBelow a b).
    { rewrite <- (take_drop_middle states k a Ha) in Hsorted, Hb.
      apply StronglySorted_app_inv in Hsorted as (_ & Hs & _).
      apply StronglySorted_inv in Hs as [_ Hs]. rewrite Forall_forall in Hs.
      apply Hs. rewrite lookup_app_r in Hb by (rewrite length_take; lia).
      rewrite length_take in Hb.
      assert (Hlen : (k < length states)%nat) by (eapply lookup_lt_Some; exact Ha).
      replace (k' - k `min` length states)%nat with (S (k' - k - 1)) in Hb by lia.
      cbn in Hb. eapply list_elem_of_lookup_2, Hb. }
    assert (Hnb : PrimFloat.is_nan (Score b) = false).
    { rewrite Forall_forall in Hnum. apply Hnum. eapply list_elem_of_lookup_2, Hb. }
    pose proof (float_lt_negative_trans _ _ _ Hnb Hab Hbx). congruence. }
  destruct (Search_least (length states) f (length states) O (length states) Hmono)
    as (Hle & Hlow & Hhigh); [lia|lia|lia|intros k Hk; lia|intros k Hk Hkn; lia|].
  set (i := PrioritySearch.Search (length states) O (length states) f) in *.
  assert (Hparts : StronglySorted notBelow (take i states ++ [toInsert] ++ drop i states)).
  { rewrite <- (take_drop i states) in Hsorted.
    apply StronglySorted_app_inv in Hsorted as (Htake & Hdrop & Hcross).
    assert (Hafter : Forall (notBelow toInsert) (drop i states)).
    { apply Forall_lookup. intros k b Hb. rewrite lookup_drop in Hb.
      assert (Hfk : f (i + k)%nat = true).
      { apply Hhigh; [lia|]. eapply lookup_lt_Some, Hb. }
      unfold f in Hfk. rewrite Hb in Hfk. apply float_lt_asym, Hfk. }
    apply StronglySorted_app_intro; [exact Htake|constructor; assumption|].
    apply Forall_lookup. intros k a Ha. apply lookup_take_Some in Ha as [Ha Hk].
    constructor.
    - specialize (Hlow k Hk). unfold f in Hlow. rewrite Ha in Hlow. exact Hlow.
    - rewrite Forall_lookup in Hcross. apply (Hcross k a).
      apply lookup_take_Some. split; assumption. }
  destruct (i <? length states)%nat eqn:Hlt; [exact Hparts|].
  apply Nat.ltb_ge in Hlt. assert (Hi : i = length states) by lia.
  rewrite Hi, take_ge, drop_ge in Hparts by lia. exact Hparts.
Qed.

(** ** Items from CSV records *)

Lemma readTags_loop (columnNames values : list string) :
  forall (k : nat) (tags : gmap string string),
  (k + length values <= length columnNames)%nat ->
  forRange (zip (seq k (length values)) values)
    (fun '(i, columnValue) tags =>
       match columnNames !! i with
       | Some name => Ret (<[name := columnValue]> tags)
       | None => Panic "index out of range"
       end)
    tags
  = Ret (foldl (fun tags p => <[p.1 := p.2]> tags) tags (zip (drop k columnNames) values)).
Proof.
  induction values as [|v values IH]; intros k tags Hlen.
  - cbn. destruct (drop k columnNames); reflexivity.
  - cbn [length] in Hlen. cbn [length seq zip zip_with forRange].
    destruct (lookup_lt_is_Some_2 columnNames k) as [name Hname]; [lia|].
    rewrite Hname. cbn [mbind outcome_bind].
    rewrite (drop_S _ _ _ Hname). cbn [zip zip_with foldl fst snd].
    apply IH. lia.
Qed.

Lemma foldl_insert_list_to_map (l : list (string * string)) :
  foldl (fun tags p => <[p.1 := p.2]> tags) (∅ : gmap string string) l = list_to_map (rev l).
Proof.
  induction l as [|[n v] l IH] using rev_ind; [reflexivity|].
  rewrite foldl_app, rev_app_distr. cbn. rewrite IH. reflexivity.
Qed.

(** X18.  On records as [encoding/csv] returns them, none empty and none
    longer than the header row, [readItemsFromCSV] indexes inside the column
    names only; it returns one item per record after the header, in order:
    the first field is the ID, the other fields are the values of the tags
    named by the header, and no item carries parsed coordinates. *)
Theorem readItemsFromCSV_items (idColumn : string) (columnNames : list string)
    (records : list (list string)) :
  Forall (fun record => (1 <= length record <= S (length columnNames))%nat) records ->
  readItemsFromCSV ((idColumn :: columnNames) :: records)
  = Ret (map (itemOfRecord columnNames) records)
  /\ clean (map (itemOfRecord columnNames) records).
Proof.
  intros Hrecords. split.
  - unfold readItemsFromCSV.
    assert (Hgen : forall items,
               forRange records
                 (fun record items =>
                    match record with
                    | [] => Ret items
                    | id :: values =>
                        tags ← readTags columnNames values;
                        Ret (items ++ [mkItem id tags ∅])
                    end) items
               = Ret (items ++ map (itemOfRecord columnNames) records)).
    { induction Hrecords as [|record records Hrecord _ IH]; intros items.
      - cbn. rewrite app_nil_r. reflexivity.
      - destruct record as [|id values]; [cbn in Hrecord; lia|].
        cbn [length] in Hrecord. cbn [forRange]. unfold readTags.
        rewrite (readTags_loop columnNames values 0 ∅) by (cbn; lia).
        cbn [mbind outcome_bind]. rewrite IH, <- app_assoc.
        rewrite drop_0, foldl_insert_list_to_map. reflexivity. }
    apply (Hgen []).
  - unfold clean. apply Forall_fmap, Forall_forall. intros record _. reflexivity.
Qed.

(** ** The earlier revision comes to an end *)

Lemma frontierWork_app (g : nat) (l1 l2 : list State) :
  frontierWork g (l1 ++ l2) = (frontierWork g l1 + frontierWork g l2)%nat.
Proof. induction l1 as [|s l1 IH]; simpl; [reflexivity|]. rewrite IH. lia. Qed.

Lemma frontierWork_Permutation (g : nat) (l1 l2 : list State) :
  l1 ≡ₚ l2 -> frontierWork g l1 = frontierWork g l2.
Proof. induction 1; simpl; lia. Qed.

Lemma placesNext_work (g : nat) (s : State) (children : list State) :
  Forall (placesNext s) children -> (length children <= g)%nat ->
  (frontierWork g children < searchTreeSize g (length (ItemsNotInGroups s)))%nat
  /\ Forall (fun c => length (Groups c) = length (Groups s)) children.
Proof.
  intros Hall Hlen. split.
  - destruct (ItemsNotInGroups s) as [|item rest] eqn:Hrest.
    + destruct Hall as [|c children (i & group & it & _ & _ & Hc & _) _]; [simpl; lia|].
      rewrite Hrest in Hc. discriminate.
    + cbn [length searchTreeSize].
      assert (Hwork : (frontierWork g children
                       <= length children * searchTreeSize g (length rest))%nat).
      { clear Hlen. induction Hall as [|c children (i & group & it & _ & _ & Hc & _) _ IH];
          [simpl; lia|].
        rewrite Hrest in Hc. injection Hc as _ Hc. cbn [frontierWork foldr length].
        fold (frontierWork g children). rewrite <- Hc. lia. }
      nia.
  - eapply Forall_impl; [exact Hall|].
    intros c (i & group & it & _ & _ & _ & Hgroups). rewrite Hgroups. apply length_insert.
Qed.

Section PriorityTermination.

Variable TrimSpace : string -> string.
Variable ParseFloat : string -> option float.

Lemma priority_CalculateScore_never_diverges (r : runner) (s : State) :
  PrioritySearch.CalculateScore TrimSpace ParseFloat r s <> Diverges.
Proof.
  assert (Hcur : forall s,
             PrioritySearch.CalculateCurrentScore TrimSpace ParseFloat r s <> Diverges).
  { intros s0. apply forRange_never_diverges. intros rule sc. unfold PrioritySearch.scoreRule.
    destruct (Weight rule =? 0); [discriminate|].
    destruct (String.eqb (Type_ rule) RuleTypeSameness); [discriminate|].
    destruct (String.eqb (Type_ rule) RuleTypeRelationship); [discriminate|].
    destruct (String.eqb (Type_ rule) RuleTypeNearness); discriminate. }
  unfold PrioritySearch.CalculateScore.
  destruct (negb _); [|destruct (existsb _ _); [discriminate|apply Hcur]].
  unfold PrioritySearch.CalculateMaxPotentialScore. specialize (Hcur s).
  destruct (PrioritySearch.CalculateCurrentScore _ _ _ _); simpl; [|discriminate|congruence].
  apply forRange_never_diverges. intros rule sc. unfold PrioritySearch.potentialRule.
  destruct (Weight rule =? 0); [discriminate|].
  destruct (String.eqb (Type_ rule) RuleTypeSameness);
    [destruct (Weight rule <? 0); discriminate|].
  destruct (String.eqb (Type_ rule) RuleTypeRelationship); [discriminate|].
  destruct (String.eqb (Type_ rule) RuleTypeNearness); [|discriminate].
  destruct (Weight rule <? 0); discriminate.
Qed.

Lemma getPossibleNextStatesFrom_never_diverges (r : runner) (s : State) :
  PrioritySearch.getPossibleNextStatesFrom TrimSpace ParseFloat r s <> Diverges.
Proof.
  unfold PrioritySearch.getPossibleNextStatesFrom.
  assert (Hloop : forall l acc,
             forRange l (PrioritySearch.expandInto TrimSpace ParseFloat r s) acc <> Diverges).
  { intros l acc. apply forRange_never_diverges. intros i [tried nextStates].
    unfold PrioritySearch.expandInto.
    destruct (Groups s !! i) as [group|]; [|discriminate].
    destruct (lenItems group =? MaxSize group); [discriminate|].
    destruct ((length (Items group) =? 0)%nat && tried); [discriminate|].
    destruct (ItemsNotInGroups (State_Copy s)) as [|item rest]; [discriminate|].
    pose proof (priority_CalculateScore_never_diverges r
                  (mkState (alter (fun g => setItems g (Items g ++ [item])) i
                              (Groups (State_Copy s))) rest (Score (State_Copy s)))) as Hscore.
    destruct (PrioritySearch.CalculateScore _ _ _ _); simpl; [discriminate|discriminate|congruence]. }
  specialize (Hloop (seq 0 (length (Groups s))) (false, [])).
  destruct (forRange _ _ _) as [[tried nextStates]| |]; simpl; [discriminate|discriminate|congruence].
Qed.

Lemma consider_work (g : nat) (next : State) (children : list State) :
  forall (best : option State) (states : list State),
  Forall (fun c => (length (Groups c) <= g)%nat) children ->
  Forall (fun c => (length (Groups c) <= g)%nat) states ->
  exists best' states',
    forRange children (PrioritySearch.consider next) (best, states) = Ret (best', states')
    /\ (frontierWork g states' <= frontierWork g states + frontierWork g children)%nat
    /\ Forall (fun c => (length (Groups c) <= g)%nat) states'.
Proof.
  induction children as [|c children IH]; intros best states Hchildren Hstates.
  - exists best, states. split; [reflexivity|]. split; [simpl; lia|exact Hstates].
  - apply Forall_cons in Hchildren as [Hc Hchildren].
    assert (Hstep : exists best1 states1,
               PrioritySearch.consider next c (best, states) = Ret (best1, states1)
               /\ (frontierWork g states1
                   <= frontierWork g states
                      + searchTreeSize g (length (ItemsNotInGroups c)))%nat
               /\ Forall (fun c => (length (Groups c) <= g)%nat) states1).
    { unfold PrioritySearch.consider. destruct (IsTerminal c).
      - destruct best as [b|]; [destruct (float_gt (Score c) (Score b))|];
          eexists _, _; (split; [reflexivity|]); (split; [lia|exact Hstates]).
      - destruct (PrioritySearch.cannotBeat best next).
        + eexists _, _. split; [reflexivity|]. split; [lia|exact Hstates].
        + eexists _, _. split; [reflexivity|].
          pose proof (insertStateToTry_Permutation states c) as Hperm. split.
          * rewrite (frontierWork_Permutation g _ _ Hperm). simpl. lia.
          * rewrite Hperm. apply Forall_cons. split; assumption. }
    destruct Hstep as (best1 & states1 & Hstep & Hwork1 & Hstates1).
    destruct (IH best1 states1 Hchildren Hstates1) as (best' & states' & Hrun & Hwork & Hall).
    exists best', states'. cbn [forRange]. rewrite Hstep. cbn [mbind outcome_bind].
    split; [exact Hrun|]. split; [|exact Hall].
    cbn [frontierWork foldr]. fold (frontierWork g children). lia.
Qed.

Lemma priority_mainLoop_terminates (g : nat) (r : runner) (ctx : nat -> bool) (fuel : nat) :
  forall (k : nat) (best : option State) (statesToTry : list State),
  Forall (fun s => (length (Groups s) <= g)%nat) statesToTry ->
  (frontierWork g statesToTry < fuel)%nat ->
  PrioritySearch.mainLoop TrimSpace ParseFloat fuel ctx k r best statesToTry <> Diverges.
Proof.
  induction fuel as [|fuel IH]; intros k best sts Hgroups Hwork; [lia|].
  cbn [PrioritySearch.mainLoop].
  destruct (last sts) as [next|] eqn:Hlast; [|discriminate].
  destruct (ctx k); [discriminate|].
  apply last_Some in Hlast as [popped ->].
  rewrite length_app. cbn [length].
  replace (length popped + 1 - 1)%nat with (length popped) by lia.
  rewrite take_app_length.
  apply Forall_app in Hgroups as [Hpopped Hnext]. rewrite Forall_singleton in Hnext. rewrite frontierWork_app in Hwork. cbn [frontierWork foldr] in Hwork.
  assert (Hpos : (0 < searchTreeSize g (length (ItemsNotInGroups next)))%nat)
    by (destruct (length (ItemsNotInGroups next)); simpl; lia).
  destruct (PrioritySearch.cannotBeat best next).
  - apply IH; [exact Hpopped|lia].
  - pose proof (getPossibleNextStatesFrom_never_diverges r next) as Hnd.
    destruct (PrioritySearch.getPossibleNextStatesFrom TrimSpace ParseFloat r next)
      as [children| |] eqn:Hchildren; [|discriminate|congruence].
    cbn [mbind outcome_bind].
    destruct (getPossibleNextStatesFrom_placesNext _ _ _ _ _ Hchildren) as [Hplaces Hcount].
    assert (Hcount_g : (length children <= g)%nat) by lia.
    destruct (placesNext_work g next children Hplaces Hcount_g) as [Hless Hlens].
    assert (Hchildren_g : Forall (fun c => (length (Groups c) <= g)%nat) children).
    { eapply Forall_impl; [exact Hlens|]. intros c Hc. cbv beta in Hc. lia. }
    destruct (consider_work g next children best popped Hchildren_g Hpopped)
      as (best' & sts' & Hrun & Hwork' & Hall).
    rewrite Hrun. cbn [mbind outcome_bind]. apply IH; [exact Hall|lia].
Qed.

(** X19.  The earlier revision always comes to an end, deadline or not: the
    main loop takes at most as many turns as the tree of partial states has
    nodes, so with that much fuel [GetArrangement] returns or panics. *)
Theorem priority_search_terminates (fuel : nat) (ctx : nat -> bool)
    (its : list Item) (rs : list Rule) (gs : list Group) :
  (searchTreeSize (length gs) (length its) < fuel)%nat ->
  PrioritySearch.GetArrangement TrimSpace ParseFloat fuel ctx its rs gs <> Diverges.
Proof.
  intros Hfuel. unfold PrioritySearch.GetArrangement, PrioritySearch.run.
  destruct (validateInput _); [discriminate|].
  cbn [rules items groups newRunner set_items].
  set (its' := populateNearnessTagPoints TrimSpace ParseFloat rs its).
  set (r0 := mkRunner its' rs gs None [] None).
  pose proof (priority_CalculateScore_never_diverges r0
                (mkState (map emptyGroup gs) its' 0%float)) as Hscore.
  destruct (PrioritySearch.CalculateScore _ _ _ _) as [score| |]; [|discriminate|congruence].
  cbn [mbind outcome_bind].
  pose proof (priority_mainLoop_terminates (length gs) r0 ctx fuel O None
                [setScore (mkState (map emptyGroup gs) its' 0%float) score]) as Hloop.
  destruct (PrioritySearch.mainLoop _ _ _ _ _ _ _ _) as [best| |].
  - cbn. destruct best; discriminate.
  - discriminate.
  - exfalso. apply Hloop; [| |reflexivity].
    + apply Forall_singleton. cbn. rewrite length_map. lia.
    + cbn. unfold its'. rewrite populate_length. lia.
Qed.

End PriorityTermination.

(** ** The local search comes to an end *)

Lemma forRange_terminates {A S : Type} (Inv : S -> Prop) (l : list A)
    (body : A -> S -> outcome S) :
  (forall a st, Inv st -> body a st <> Diverges) ->
  (forall a st st', Inv st -> body a st = Ret st' -> Inv st') ->
  forall st, Inv st -> forRange l body st <> Diverges.
Proof.
  intros Hnd Hinv. induction l as [|a l IH]; intros st Hst; simpl; [discriminate|].
  specialize (Hnd a st Hst). specialize (Hinv a st).
  destruct (body a st) as [st'| |]; simpl; [|discriminate|congruence].
  apply IH. apply Hinv; [exact Hst|reflexivity].
Qed.

(** A counting loop whose bound stays at [n] takes [n - i] more turns. *)
Lemma forUpTo_terminates {S : Type} (Inv : S -> Prop) (n : nat) (bound : S -> nat)
    (body : nat -> S -> outcome S) :
  (forall st, Inv st -> bound st = n) ->
  (forall i st, Inv st -> body i st <> Diverges) ->
  (forall i st st', Inv st -> body i st = Ret st' -> Inv st') ->
  forall fuel i st, Inv st -> (n - i <= fuel)%nat -> forUpTo fuel i bound body st <> Diverges.
Proof.
  intros Hbound Hnd Hinv. induction fuel as [|fuel IH]; intros i st Hst Hfuel.
  - simpl. rewrite (Hbound st Hst). destruct (i <? n)%nat eqn:Hlt; [|discriminate].
    apply Nat.ltb_lt in Hlt. lia.
  - simpl. rewrite (Hbound st Hst). destruct (i <? n)%nat eqn:Hlt; [|discriminate].
    specialize (Hnd i st Hst). specialize (Hinv i st).
    destruct (body i st) as [st'| |]; simpl; [|discriminate|congruence].
    apply IH; [apply Hinv; [exact Hst|reflexivity]|lia].
Qed.

Lemma sameShape_lenGroupItems (source s : State) (gIndex : nat) :
  sameShape source s -> lenGroupItems s gIndex = lenGroupItems source gIndex.
Proof.
  unfold sameShape, lenGroupItems. intros Hshape.
  apply (f_equal (fun l => l !! gIndex)) in Hshape. rewrite !list_lookup_fmap in Hshape.
  destruct (Groups s !! gIndex), (Groups source !! gIndex); simpl in *; congruence.
Qed.

Lemma sameShape_Copy (source : State) : sameShape source (State_Copy source).
Proof. unfold sameShape. cbn. rewrite Copy_Groups. reflexivity. Qed.

Lemma swapItems_sameShape (source t t' : State) (gIndex1 i gIndex2 i2 : nat) :
  swapItems gIndex1 i gIndex2 i2 t = Ret t' -> sameShape source t -> sameShape source t'.
Proof.
  unfold swapItems, sameShape. intros Hswap Ht.
  destruct (Groups t !! gIndex1) as [g1|] eqn:Hg1; [|discriminate].
  destruct (Groups t !! gIndex2) as [g2|] eqn:Hg2; [|discriminate].
  destruct (Items g1 !! i) as [a|]; [|discriminate].
  destruct (Items g2 !! i2) as [b|]; [|discriminate].
  inversion Hswap; subst t'; clear Hswap. cbn [Groups setGroups].
  rewrite <- Ht, !list_fmap_insert. cbn [Items setItems]. rewrite !length_insert.
  rewrite (list_insert_id _ gIndex1 (length (Items g1)))
    by (rewrite list_lookup_fmap, Hg1; reflexivity).
  apply list_insert_id. rewrite list_lookup_fmap, Hg2. reflexivity.
Qed.

Lemma swapItems_never_diverges (gIndex1 i gIndex2 i2 : nat) (t : State) :
  swapItems gIndex1 i gIndex2 i2 t <> Diverges.
Proof.
  unfold swapItems. destruct (Groups t !! gIndex1); [|discriminate].
  destruct (Groups t !! gIndex2); [|discriminate].
  destruct (_ !! i); [|discriminate]. destruct (_ !! i2); discriminate.
Qed.

Lemma putTarget_sameShape (source : State) (st : swapping) (t : State) :
  sameShape source (sw_cur st) -> sameShape source t ->
  sameShape source (sw_cur (putTarget st t)) /\ sameShape source (target (putTarget st t)).
Proof.
  intros Hcur Ht. unfold putTarget, target. destruct (sw_alias st); cbn; split; assumption.
Qed.

Section LocalSearchTermination.

Variable TrimSpace : string -> string.
Variable ParseFloat : string -> option float.

Lemma trySwap_terminates (r : runner) (source : State) (gIndex1 i gIndex2 i2 : nat)
    (st : swapping) :
  sameShape source (sw_cur st) /\ sameShape source (target st) ->
  trySwap TrimSpace ParseFloat r source gIndex1 i gIndex2 i2 st <> Diverges
  /\ forall st', trySwap TrimSpace ParseFloat r source gIndex1 i gIndex2 i2 st = Ret st' ->
       sameShape source (sw_cur st') /\ sameShape source (target st').
Proof.
  intros [Hcur Htarget]. unfold trySwap.
  pose proof (swapItems_never_diverges gIndex1 i gIndex2 i2 (target st)) as Hnd.
  destruct (swapItems gIndex1 i gIndex2 i2 (target st)) as [t| |] eqn:Hswap;
    [|split; [discriminate|intros ?; discriminate]|congruence].
  cbn [mbind outcome_bind].
  pose proof (swapItems_sameShape source _ _ _ _ _ _ Hswap Htarget) as Ht.
  destruct (putTarget_sameShape source st t Hcur Ht) as [Hcur1 Htarget1].
  pose proof (CalculateScore_never_diverges TrimSpace ParseFloat r (sw_cur (putTarget st t)))
    as Hscore.
  destruct (CalculateScore TrimSpace ParseFloat r (sw_cur (putTarget st t))) as [score| |];
    [|split; [discriminate|intros ?; discriminate]|congruence].
  cbn [mbind outcome_bind].
  set (st2 := mkSwapping (sw_best (putTarget st t))
                (setScore (sw_cur (putTarget st t)) score) (sw_alias (putTarget st t))).
  assert (Hst2 : sameShape source (sw_cur st2) /\ sameShape source (target st2)).
  { unfold st2, target in *. cbn. destruct (sw_alias (putTarget st t)); split; assumption. }
  destruct Hst2 as [Hcur2 Htarget2].
  destruct (float_gt score (Score (sw_best st2))).
  - split; [discriminate|]. intros st' Hst'. inversion Hst'; subst st'; clear Hst'.
    unfold st2, target in *. cbn [sw_cur sw_alias sw_best] in *.
    split; [apply sameShape_Copy|].
    destruct (sw_alias (putTarget st t)); assumption.
  - pose proof (swapItems_never_diverges gIndex1 i gIndex2 i2 (target st2)) as Hnd2.
    destruct (swapItems gIndex1 i gIndex2 i2 (target st2)) as [t'| |] eqn:Hswap2;
      [|split; [discriminate|intros ?; discriminate]|congruence].
    cbn [mbind outcome_bind]. split; [discriminate|].
    intros st' Hst'. inversion Hst'; subst st'; clear Hst'.
    apply putTarget_sameShape; [exact Hcur2|].
    eapply swapItems_sameShape; [exact Hswap2|exact Htarget2].
Qed.

Lemma tryGroup_terminates (r : runner) (source : State) (gIndex1 i gIndex2 : nat)
    (st : search) :
  sameShape source (cur st) ->
  tryGroup TrimSpace ParseFloat r source gIndex1 i gIndex2 st <> Diverges
  /\ forall st', tryGroup TrimSpace ParseFloat r source gIndex1 i gIndex2 st = Ret st' ->
       sameShape source (cur st').
Proof.
  intros Hcur. unfold tryGroup.
  destruct (Groups (cur st) !! gIndex1) as [g1|] eqn:Hg1;
    [|split; [discriminate|intros ?; discriminate]].
  destruct (Groups (cur st) !! gIndex2) as [g2|] eqn:Hg2;
    [|split; [discriminate|intros ?; discriminate]].
  destruct (gIndex1 =? gIndex2)%nat.
  { split; [discriminate|]. intros st' Hst'. inversion Hst'; subst st'. exact Hcur. }
  destruct (lenItems g2 <? MaxSize g2).
  - destruct (Items g1 !! i) as [item|]; [|split; [discriminate|intros ?; discriminate]].
    match goal with
    | |- context [CalculateScore TrimSpace ParseFloat r ?m] =>
        pose proof (CalculateScore_never_diverges TrimSpace ParseFloat r m) as Hscore;
        destruct (CalculateScore TrimSpace ParseFloat r m) as [score| |];
          [|split; [discriminate|intros ?; discriminate]|congruence]
    end.
    cbn [mbind outcome_bind]. destruct (float_gt score (Score (bestOption st))).
    + split; [discriminate|]. intros st' Hst'. inversion Hst'; subst st'.
      cbn. apply sameShape_Copy.
    + split; [discriminate|]. intros st' Hst'. inversion Hst'; subst st'. exact Hcur.
  - set (Inv := fun sw : swapping =>
                  sameShape source (sw_cur sw) /\ sameShape source (target sw)).
    assert (Hinit : Inv (mkSwapping (bestOption st) (cur st) InCur)) by (split; exact Hcur).
    assert (Hfuel : length (Items g2) = lenGroupItems source gIndex2).
    { rewrite <- (sameShape_lenGroupItems source (cur st) gIndex2 Hcur).
      unfold lenGroupItems. rewrite Hg2. reflexivity. }
    pose proof (forUpTo_terminates Inv (lenGroupItems source gIndex2)
                  (fun sw => lenGroupItems (target sw) gIndex2)
                  (trySwap TrimSpace ParseFloat r source gIndex1 i gIndex2)
                  ltac:(intros sw [_ Hsw]; apply sameShape_lenGroupItems, Hsw)
                  ltac:(intros i2 sw Hsw; apply trySwap_terminates, Hsw)
                  ltac:(intros i2 sw sw' Hsw Hstep;
                        exact (proj2 (trySwap_terminates r source gIndex1 i gIndex2 i2 sw Hsw)
                                 sw' Hstep))
                  (length (Items g2)) O _ Hinit ltac:(lia)) as Hnd.
    pose proof (forUpTo_invariant Inv (length (Items g2)) O
                  (fun sw => lenGroupItems (target sw) gIndex2)
                  (trySwap TrimSpace ParseFloat r source gIndex1 i gIndex2)
                  (mkSwapping (bestOption st) (cur st) InCur)) as Hinv.
    destruct (forUpTo _ _ _ _ _) as [sw'| |];
      [|split; [discriminate|intros ?; discriminate]|congruence].
    cbn [mbind outcome_bind]. split; [discriminate|].
    intros st' Hst'. inversion Hst'; subst st'. cbn [cur].
    apply (Hinv sw'); [|exact Hinit|reflexivity].
    intros i2 sw1 sw2 _ Hsw1 Hstep.
    exact (proj2 (trySwap_terminates r source gIndex1 i gIndex2 i2 sw1 Hsw1) sw2 Hstep).
Qed.

(** [getBestNextStateFrom] comes to an end: the groups of [s] keep the sizes
    they have in the source state, so the loops over their items are
    bounded. *)
Lemma getBestNextStateFrom_never_diverges (r : runner) (source : State) :
  getBestNextStateFrom TrimSpace ParseFloat r source <> Diverges.
Proof.
  unfold getBestNextStateFrom. cbv zeta.
  set (Inv := fun st : search => sameShape source (cur st)).
  assert (Hgroups : forall gIndex1 i l st, Inv st ->
             forRange l (tryGroup TrimSpace ParseFloat r source gIndex1 i) st <> Diverges
             /\ forall st',
                  forRange l (tryGroup TrimSpace ParseFloat r source gIndex1 i) st = Ret st' ->
                  Inv st').
  { intros gIndex1 i l st Hst. split.
    - apply (forRange_terminates Inv); [| |exact Hst].
      + intros gIndex2 st0 Hst0. apply tryGroup_terminates, Hst0.
      + intros gIndex2 st0 st1 Hst0 Hstep.
        exact (proj2 (tryGroup_terminates r source gIndex1 i gIndex2 st0 Hst0) st1 Hstep).
    - intros st' Hrun. eapply (forRange_invariant Inv); [|exact Hst|exact Hrun].
      intros gIndex2 st0 st1 _ Hst0 Hstep.
      exact (proj2 (tryGroup_terminates r source gIndex1 i gIndex2 st0 Hst0) st1 Hstep). }
  assert (Hitems : forall gIndex1 st, Inv st ->
             forUpTo (lenGroupItems source gIndex1) O
               (fun st => lenGroupItems (cur st) gIndex1)
               (fun i st =>
                  forRange (seq 0 (length (Groups (cur st))))
                    (tryGroup TrimSpace ParseFloat r source gIndex1 i) st) st <> Diverges
             /\ forall st',
                  forUpTo (lenGroupItems source gIndex1) O
                    (fun st => lenGroupItems (cur st) gIndex1)
                    (fun i st =>
                       forRange (seq 0 (length (Groups (cur st))))
                         (tryGroup TrimSpace ParseFloat r source gIndex1 i) st) st = Ret st' ->
                  Inv st').
  { intros gIndex1 st Hst. split.
    - apply (forUpTo_terminates Inv (lenGroupItems source gIndex1)); [| | |exact Hst|lia].
      + intros st0 Hst0. apply sameShape_lenGroupItems, Hst0.
      + intros i st0 Hst0. apply Hgroups, Hst0.
      + intros i st0 st1 Hst0 Hstep. exact (proj2 (Hgroups _ _ _ _ Hst0) st1 Hstep).
    - intros st' Hrun. eapply (forUpTo_invariant Inv); [|exact Hst|exact Hrun].
      intros i st0 st1 _ Hst0 Hstep. exact (proj2 (Hgroups _ _ _ _ Hst0) st1 Hstep). }
  assert (Hloop : forRange (seq 0 (length (Groups (cur (mkSearch source (State_Copy source))))))
                    (fun gIndex1 st =>
                       forUpTo (lenGroupItems source gIndex1) O
                         (fun st => lenGroupItems (cur st) gIndex1)
                         (fun i st =>
                            forRange (seq 0 (length (Groups (cur st))))
                              (tryGroup TrimSpace ParseFloat r source gIndex1 i) st) st)
                    (mkSearch source (State_Copy source)) <> Diverges).
  { apply (forRange_terminates Inv); [| |apply sameShape_Copy].
    - intros gIndex1 st Hst. apply Hitems, Hst.
    - intros gIndex1 st st' Hst Hstep. exact (proj2 (Hitems _ _ Hst) st' Hstep). }
  destruct (forRange _ _ _) as [st| |]; simpl; [discriminate|discriminate|congruence].
Qed.

End LocalSearchTermination.

(** ** The run comes to an end *)

Lemma lxor_range (n a b : Z) :
  0 <= n -> 0 <= a < 2 ^ n -> 0 <= b < 2 ^ n -> 0 <= Z.lxor a b < 2 ^ n.
Proof.
  intros Hn Ha Hb. assert (Hx : 0 <= Z.lxor a b) by (apply Z.lxor_nonneg; lia).
  split; [exact Hx|].
  destruct (Z.eq_dec (Z.lxor a b) 0) as [->|Hne]; [lia|].
  assert (Hpos : 0 < n).
  { destruct (Z.eq_dec n 0) as [->|]; [|lia]. exfalso. apply Hne.
    change (2 ^ 0) with 1 in *. replace a with 0 by lia. replace b with 0 by lia. reflexivity. }
  apply Z.log2_lt_pow2; [lia|].
  eapply Z.le_lt_trans; [apply Z.log2_lxor; lia|].
  apply Z.max_lub_lt.
  - destruct (Z.eq_dec a 0) as [->|Ha0]; [cbn; lia|apply Z.log2_lt_pow2; lia].
  - destruct (Z.eq_dec b 0) as [->|Hb0]; [cbn; lia|apply Z.log2_lt_pow2; lia].
Qed.

Lemma lor_range (n a b : Z) :
  0 <= n -> 0 <= a < 2 ^ n -> 0 <= b < 2 ^ n -> 0 <= Z.lor a b < 2 ^ n.
Proof.
  intros Hn Ha Hb. assert (Hx : 0 <= Z.lor a b) by (apply Z.lor_nonneg; lia).
  split; [exact Hx|].
  destruct (Z.eq_dec (Z.lor a b) 0) as [->|Hne]; [lia|].
  assert (Hpos : 0 < n).
  { destruct (Z.eq_dec n 0) as [->|]; [|lia]. exfalso. apply Hne.
    change (2 ^ 0) with 1 in *. replace a with 0 by lia. replace b with 0 by lia. reflexivity. }
  apply Z.log2_lt_pow2; [lia|].
  rewrite Z.log2_lor by lia.
  apply Z.max_lub_lt.
  - destruct (Z.eq_dec a 0) as [->|Ha0]; [cbn; lia|apply Z.log2_lt_pow2; lia].
  - destruct (Z.eq_dec b 0) as [->|Hb0]; [cbn; lia|apply Z.log2_lt_pow2; lia].
Qed.

Lemma fnv_Write_range (data : list Z) : forall h : Z,
  0 <= h < 2 ^ 64 -> Forall (fun c => 0 <= c < 2 ^ 8) data ->
  0 <= fnv.Write h data < 2 ^ 64.
Proof.
  unfold fnv.Write. induction data as [|c data IH]; intros h Hh Hdata; [exact Hh|].
  apply Forall_cons in Hdata as [Hc Hdata]. cbn [fold_left]. apply IH; [|exact Hdata].
  apply lxor_range; [lia| |lia].
  unfold wrap_uint64. apply Z.mod_pos_bound. lia.
Qed.

Lemma PutUvarint_from_bytes (n : nat) : forall (i : nat) (buf : list Z) (x : Z),
  Forall (fun c => 0 <= c < 2 ^ 8) buf ->
  Forall (fun c => 0 <= c < 2 ^ 8) (binary.PutUvarint_from n i buf x).
Proof.
  assert (Hmod : forall x, 0 <= x mod 256 < 2 ^ 8).
  { intros x. change (2 ^ 8) with 256. apply Z.mod_pos_bound. lia. }
  induction n as [|n IH]; intros i buf x Hbuf; cbn [binary.PutUvarint_from].
  - apply Forall_insert; [exact Hbuf|apply Hmod].
  - destruct (128 <=? x).
    + apply IH. apply Forall_insert; [exact Hbuf|].
      apply lor_range; [lia|apply Hmod|change (2 ^ 8) with 256; lia].
    + apply Forall_insert; [exact Hbuf|apply Hmod].
Qed.

(** A digest is a [uint64]. *)
Lemma State_digest_range (s : State) : 0 <= State_digest s < 2 ^ 64.
Proof.
  unfold State_digest, fnv.Sum64. cbv zeta.
  assert (Hgen : forall digests buf h,
             Forall (fun c => 0 <= c < 2 ^ 8) buf -> 0 <= h < 2 ^ 64 ->
             0 <= snd (fold_left
                         (fun '(buf, h) d =>
                            let buf' := binary.PutUvarint buf d in (buf', fnv.Write h buf'))
                         digests (buf, h)) < 2 ^ 64).
  { induction digests as [|d digests IH]; intros buf h Hbuf Hh; [exact Hh|].
    cbn [fold_left]. cbv zeta.
    assert (Hbuf' : Forall (fun c => 0 <= c < 2 ^ 8) (binary.PutUvarint buf d))
      by (apply PutUvarint_from_bytes, Hbuf).
    apply IH; [exact Hbuf'|apply fnv_Write_range; assumption]. }
  apply Hgen.
  - apply Forall_replicate. lia.
  - unfold fnv.New64, fnv.offset64. lia.
Qed.

Lemma NoDup_bounded_length (l : list Z) (N : Z) :
  0 <= N -> NoDup l -> Forall (fun d => 0 <= d < N) l -> Z.of_nat (length l) <= N.
Proof.
  intros HN Hnd Hall.
  assert (Hsub : (Z.to_nat <$> l) ⊆+ seq 0 (Z.to_nat N)).
  { apply NoDup_submseteq.
    - apply NoDup_fmap_2_strong; [|exact Hnd].
      intros x y Hx Hy Hxy. rewrite Forall_forall in Hall.
      pose proof (Hall x Hx). pose proof (Hall y Hy). lia.
    - intros n Hn. apply list_elem_of_fmap in Hn as (d & -> & Hd).
      rewrite Forall_forall in Hall. pose proof (Hall d Hd).
      apply elem_of_seq. lia. }
  apply submseteq_length in Hsub. rewrite length_fmap, length_seq in Hsub. lia.
Qed.

Lemma existsb_eqb_false (d : Z) (l : list Z) :
  existsb (Z.eqb d) l = false -> d ∉ l.
Proof.
  induction l as [|a l IH]; simpl; intros Hex; [apply not_elem_of_nil|].
  apply orb_false_iff in Hex as [Hda Hex]. apply Z.eqb_neq in Hda.
  apply not_elem_of_cons. split; [exact Hda|apply IH, Hex].
Qed.

Section RunTermination.

Variable TrimSpace : string -> string.
Variable ParseFloat : string -> option float.

(** One draw of [getRandomState] uses up one turn of the budget. *)
Lemma getRandomState_step (r : runner) (perm : list nat) :
  int_range (totalMaxSize (groups r)) -> validateInput r = None ->
  currentPermutation r = Some perm -> indexVector perm = true ->
  getRandomState TrimSpace ParseFloat r <> Diverges
  /\ forall n r', getRandomState TrimSpace ParseFloat r = Ret (Some n, r') ->
       exists perm',
         r' = set_currentPermutation r (Some perm') /\ indexVector perm' = true
         /\ searchBudget (statesTried r') perm' = searchBudget (statesTried r) perm - 1.
Proof.
  intros Hrange Hvalid Hcur Hvec.
  pose proof (getRandomState_next TrimSpace ParseFloat r perm Hcur Hvec) as Hnext.
  destruct perm as [|v perm]; [rewrite Hnext; split; [discriminate|intros ? ? ?; discriminate]|].
  cbv zeta in Hnext. rewrite Hnext.
  destruct (incrementPermutation_next (v :: perm) ltac:(discriminate) Hvec)
    as (Hlen & Hrank & _ & Hstep).
  destruct (rank (v :: perm) + 1 <? factorialOf (length (v :: perm)));
    [|split; [discriminate|intros ? ? ?; discriminate]].
  pose proof (scatter_never_diverges TrimSpace ParseFloat r
                (incrementPermutation (length (v :: perm) - 1) (v :: perm)) Hrange Hvalid)
    as Hscatter.
  destruct (scatter _ _ _ _) as [s| |]; [|split; [discriminate|intros ? ? ?; discriminate]|
                                           congruence].
  cbn [mbind outcome_bind]. split; [discriminate|].
  intros n r' Hret. inversion Hret; subst n r'; clear Hret.
  exists (incrementPermutation (length (v :: perm) - 1) (v :: perm)).
  split; [reflexivity|]. split; [exact Hstep|].
  unfold searchBudget. rewrite Hlen, Hrank. cbn [statesTried set_currentPermutation]. lia.
Qed.

Lemma mainLoop_terminates (ctx : nat -> bool) (fuel : nat) :
  forall (k : nat) (r : runner) (next : State) (perm : list nat),
  int_range (totalMaxSize (groups r)) -> validateInput r = None ->
  currentPermutation r = Some perm -> indexVector perm = true ->
  NoDup (statesTried r) -> Forall (fun d => 0 <= d < 2 ^ 64) (statesTried r) ->
  searchBudget (statesTried r) perm < Z.of_nat fuel ->
  mainLoop TrimSpace ParseFloat fuel ctx k r next <> Diverges.
Proof.
  induction fuel as [|fuel IH]; intros k r next perm Hrange Hvalid Hcur Hvec Hnd Htried Hfuel.
  { exfalso. unfold searchBudget in Hfuel.
    pose proof (NoDup_bounded_length _ (2 ^ 64) ltac:(lia) Hnd Htried).
    pose proof (rank_range perm Hvec). lia. }
  cbn [mainLoop]. destruct (ctx k); [discriminate|].
  assert (Hdraw : forall r0 : runner,
             groups r0 = groups r -> validateInput r0 = None ->
             currentPermutation r0 = Some perm ->
             NoDup (statesTried r0) -> Forall (fun d => 0 <= d < 2 ^ 64) (statesTried r0) ->
             searchBudget (statesTried r0) perm <= Z.of_nat fuel ->
             ('(next', r') ← getRandomState TrimSpace ParseFloat r0;
              match next' with
              | None => Ret r'
              | Some n => mainLoop TrimSpace ParseFloat fuel ctx (S k) r' n
              end) <> Diverges).
  { intros r0 Hg0 Hvalid0 Hcur0 Hnd0 Htried0 Hfuel0.
    assert (Hrange0 : int_range (totalMaxSize (groups r0))) by (rewrite Hg0; exact Hrange).
    destruct (getRandomState_step r0 perm Hrange0 Hvalid0 Hcur0 Hvec) as [Hnd' Hstep].
    destruct (getRandomState TrimSpace ParseFloat r0) as [[[n|] r']| |];
      [|discriminate|discriminate|congruence].
    cbn [mbind outcome_bind].
    destruct (Hstep n r' eq_refl) as (perm' & -> & Hvec' & Hbudget).
    apply (IH _ _ _ perm'); [exact Hrange0|exact Hvalid0|reflexivity|exact Hvec'
                            |exact Hnd0|exact Htried0|].
    cbn [statesTried set_currentPermutation] in *. lia. }
  destruct (existsb (Z.eqb (State_digest next)) (statesTried r)) eqn:Hseen.
  - apply Hdraw; [reflexivity|exact Hvalid|exact Hcur|exact Hnd|exact Htried|lia].
  - set (r1 := set_statesTried r (State_digest next :: statesTried r)).
    assert (Hnd1 : NoDup (statesTried r1)).
    { cbn. apply NoDup_cons. split; [apply existsb_eqb_false, Hseen|exact Hnd]. }
    assert (Htried1 : Forall (fun d => 0 <= d < 2 ^ 64) (statesTried r1)).
    { cbn. apply Forall_cons. split; [apply State_digest_range|exact Htried]. }
    assert (Hbudget1 : searchBudget (statesTried r1) perm <= Z.of_nat fuel - 1 + 1 - 1).
    { unfold searchBudget in *. cbn [statesTried r1 set_statesTried length]. lia. }
    pose proof (getBestNextStateFrom_never_diverges TrimSpace ParseFloat r1 next) as Hclimb.
    destruct (getBestNextStateFrom TrimSpace ParseFloat r1 next) as [best| |];
      [|discriminate|congruence].
    cbn [mbind outcome_bind].
    destruct (float_gt (Score best) (Score next)).
    + apply (IH _ _ _ perm); [exact Hrange|exact Hvalid|exact Hcur|exact Hvec
                             |exact Hnd1|exact Htried1|lia].
    + destruct (bestState r1) as [b|]; [|discriminate].
      destruct (float_gt (Score next) (Score b)).
      * apply Hdraw; [reflexivity|exact Hvalid|exact Hcur|exact Hnd1|exact Htried1|].
        change (searchBudget (statesTried r1) perm <= Z.of_nat fuel). lia.
      * apply Hdraw; [reflexivity|exact Hvalid|exact Hcur|exact Hnd1|exact Htried1|lia].
Qed.

(** X20.  [GetArrangement] always comes to an end, deadline or not, when the
    sum of the [MaxSize] values fits [int]: every turn of the main loop
    records the digest of a state not seen before or draws the next
    permutation of the items, so there is a number of turns after which the
    run has returned or panicked. *)
Theorem run_terminates (ctx : nat -> bool)
    (its : list Item) (rs : list Rule) (gs : list Group) :
  int_range (totalMaxSize gs) ->
  exists fuel, forall fuel', (fuel <= fuel')%nat ->
    GetArrangement TrimSpace ParseFloat fuel' ctx its rs gs <> Diverges.
Proof.
  intros Hrange. exists (S (Z.to_nat (2 ^ 64 + factorialOf (length its)))).
  intros fuel Hfuel. unfold GetArrangement, run.
  destruct (validateInput (newRunner its rs gs)) eqn:Hvalid; [discriminate|].
  set (r0 := set_items (newRunner its rs gs)
               (populateNearnessTagPoints TrimSpace ParseFloat (rules (newRunner its rs gs))
                  (items (newRunner its rs gs)))).
  assert (Hlen : length (items r0) = length its) by apply populate_length.
  assert (Hvalid0 : validateInput r0 = None).
  { unfold validateInput in *. rewrite Hlen. exact Hvalid. }
  change (getRandomState TrimSpace ParseFloat r0)
    with (s ← scatter TrimSpace ParseFloat r0 (replicate (length (items r0)) O);
          Ret (Some s, set_currentPermutation r0 (Some (replicate (length (items r0)) O)))).
  pose proof (scatter_never_diverges TrimSpace ParseFloat r0
                (replicate (length (items r0)) O) Hrange Hvalid0) as Hscatter.
  destruct (scatter _ _ _ _) as [first| |]; [|discriminate|congruence].
  cbn [mbind outcome_bind].
  pose proof (mainLoop_terminates ctx fuel O
                (set_bestState (set_currentPermutation r0 (Some (replicate (length (items r0)) O)))
                   (Some first))
                first (replicate (length (items r0)) O) Hrange Hvalid0 eq_refl
                (indexVector_zeros _) (NoDup_nil_2) (Forall_nil_2 _)) as Hloop.
  destruct (mainLoop _ _ _ _ _ _ _) as [r2| |].
  - cbn [mbind outcome_bind]. destruct (bestState r2); discriminate.
  - discriminate.
  - exfalso. apply Hloop; [|reflexivity].
    unfold searchBudget.
    change (statesTried _) with (@nil Z).
    rewrite length_replicate, rank_zeros, Hlen. cbn [length].
    pose proof (factorialOf_pos (length its)). lia.
Qed.

End RunTermination.

(** * Concrete runs *)

Lemma capacity_prevalidation_witness :
  let its := [plainItem "a"; plainItem "b"; plainItem "c"] in
  let gs := [mkGroup "Group 1" 1 2 []] in
  wrap_int (totalMaxSize gs) < Z.of_nat (length its)
  /\ GetArrangement TrimSpace_id ParseFloat_none 0 neverDone its [] gs
     = Ret (inr (BadConfiguration 3 2)).
Proof.
  cbv zeta.
  assert (Hless : wrap_int (totalMaxSize [mkGroup "Group 1" 1 2 []])
                  < Z.of_nat (length [plainItem "a"; plainItem "b"; plainItem "c"]))
    by reflexivity.
  split; [exact Hless|].
  exact (proj2 (proj1 (capacity_prevalidation TrimSpace_id ParseFloat_none 0 neverDone
                         [plainItem "a"; plainItem "b"; plainItem "c"] []
                         [mkGroup "Group 1" 1 2 []]) Hless)).
Defined.

(** C7 as stated, on the mathematical sum, fails both ways.  With the
    greatest [int] and 1 as the [MaxSize] values there is room for the one
    item, and the call fails with the configuration error; with the least
    [int] and -1 the total is below the number of items, and validation
    passes and the search runs. *)
Lemma capacity_prevalidation_counterexample :
  ~ (forall fuel ctx its rs gs,
        Z.of_nat (length its) <= totalMaxSize gs ->
        validateInput (newRunner its rs gs) = None
        /\ forall err, GetArrangement TrimSpace_id ParseFloat_none fuel ctx its rs gs
                       <> Ret (inr err))
  /\ ~ (forall fuel ctx its rs gs,
           totalMaxSize gs < Z.of_nat (length its) ->
           exists err, GetArrangement TrimSpace_id ParseFloat_none fuel ctx its rs gs
                       = Ret (inr err)).
Proof.
  split; intros Hclaim.
  - destruct (Hclaim 100%nat neverDone loneItem [] overflowingGroups) as [Hvalid _].
    + vm_compute. discriminate.
    + vm_compute in Hvalid. discriminate.
  - destruct (Hclaim 100%nat neverDone loneItem [] negativeGroups) as [err Herr].
    + vm_compute. reflexivity.
    + assert (Hrun : GetArrangement TrimSpace_id ParseFloat_none 100 neverDone loneItem []
                       negativeGroups
                     = Ret (inl [mkGroup "Group 1" 0 int_min [plainItem "a"];
                                 mkGroup "Group 2" 0 (-1) []]))
        by (vm_compute; reflexivity).
      rewrite Hrun in Herr. discriminate.
Qed.

Lemma overflowing_total_rejected :
  Z.of_nat (length loneItem) <= totalMaxSize overflowingGroups
  /\ GetArrangement TrimSpace_id ParseFloat_none 100 neverDone loneItem [] overflowingGroups
     = Ret (inr (BadConfiguration 1 int_min)).
Proof. split; [vm_compute; discriminate|vm_compute; reflexivity]. Qed.

Lemma basic_run :
  GetArrangement TrimSpace_id ParseFloat_none 100 neverDone basicItems genderRule basicGroups
  = Ret (inl basicResult).
Proof. vm_compute. reflexivity. Qed.

Lemma partition_invariant_witness :
  clean basicItems
  /\ GetArrangement TrimSpace_id ParseFloat_none 100 neverDone basicItems genderRule basicGroups
     = Ret (inl basicResult)
  /\ concat (map Items basicResult) ≡ₚ basicItems.
Proof.
  assert (Hclean : clean basicItems) by (repeat constructor).
  split; [exact Hclean|]. split; [exact basic_run|].
  apply (proj2 (proj2 (proj2 (partition_invariant TrimSpace_id ParseFloat_none))
                  100%nat neverDone basicItems genderRule basicGroups basicResult basic_run)).
  exact Hclean.
Defined.

Lemma capacity_upper_bound_witness :
  Forall wellFormed basicGroups
  /\ GetArrangement TrimSpace_id ParseFloat_none 100 neverDone basicItems genderRule basicGroups
     = Ret (inl basicResult)
  /\ Forall capped basicResult.
Proof.
  assert (Hwf : Forall wellFormed basicGroups).
  { repeat constructor; simpl; lia. }
  split; [exact Hwf|]. split; [exact basic_run|].
  exact (capacity_upper_bound TrimSpace_id ParseFloat_none 100 neverDone
           basicItems genderRule basicGroups basicResult Hwf basic_run).
Defined.

(** C2 as stated fails twice.  With a template whose [MinSize] exceeds its
    [MaxSize] the first filling loop puts two items into a group of capacity
    one; and with sound templates a run that never meets a feasible state
    returns a non-empty group below its [MinSize]. *)
Lemma capacity_invariant_counterexample :
  ~ (forall fuel ctx its rs gs result,
        GetArrangement TrimSpace_id ParseFloat_none fuel ctx its rs gs = Ret (inl result) ->
        Forall (fun g => lenItems g <= MaxSize g) result)
  /\ ~ (forall fuel ctx its rs gs result,
           Forall wellFormed gs ->
           GetArrangement TrimSpace_id ParseFloat_none fuel ctx its rs gs = Ret (inl result) ->
           Forall (fun g => 0 < lenItems g -> MinSize g <= lenItems g) result).
Proof.
  split; intros Hclaim.
  - assert (Hrun : GetArrangement TrimSpace_id ParseFloat_none 100 neverDone twoPlain []
                     crampedGroups
                   = Ret (inl [mkGroup "Group 1" 2 1 [plainItem "a"; plainItem "b"];
                               mkGroup "Group 2" 0 1 []]))
      by (vm_compute; reflexivity).
    apply Hclaim in Hrun. apply Forall_cons in Hrun as [Hlen _].
    unfold lenItems in Hlen. simpl in Hlen. lia.
  - assert (Hrun : GetArrangement TrimSpace_id ParseFloat_none 100 neverDone loneItem []
                     pairGroup
                   = Ret (inl [mkGroup "Group 1" 2 2 [plainItem "a"]]))
      by (vm_compute; reflexivity).
    apply Hclaim in Hrun; [|repeat constructor; simpl; lia].
    apply Forall_cons in Hrun as [Hlen _].
    unfold lenItems in Hlen. simpl in Hlen. lia.
Qed.

(** C3.  One item and one group with [MinSize = MaxSize = 2]: validation
    passes, the only complete arrangement is infeasible, and the run returns
    it as a normal result, for every context and every positive fuel.  The
    earlier revision, which has a "failed to discover any workable state"
    error for a run that met no terminal state at all, returns the same
    infeasible arrangement. *)
Theorem infeasible_arrangement_returned (fuel : nat) (ctx : nat -> bool) :
  validateInput (newRunner loneItem [] pairGroup) = None
  /\ GetArrangement TrimSpace_id ParseFloat_none (S fuel) ctx loneItem [] pairGroup
     = Ret (inl [mkGroup "Group 1" 2 2 [plainItem "a"]])
  /\ existsb undersized [mkGroup "Group 1" 2 2 [plainItem "a"]] = true
  /\ PrioritySearch.GetArrangement TrimSpace_id ParseFloat_none 10 neverDone loneItem [] pairGroup
     = Ret (inl [mkGroup "Group 1" 2 2 [plainItem "a"]]).
Proof.
  split; [reflexivity|]. split; [|split; [reflexivity|vm_compute; reflexivity]].
  vm_compute. destruct (ctx O); reflexivity.
Qed.

(** C4.  With one Sameness rule of weight 1, two "m" items placed in a group
    of capacity three and a third "m" item unplaced, the heuristic bound is
    4 + 1 = 5, while the terminal state that places the third item scores
    3 * 3 = 9.  In the earlier revision, which scores [weight * (count - 1)],
    the same bound is 1 + 1 = 2 and the terminal state scores 2. *)
Theorem heuristic_underestimates :
  CalculateMaxPotentialScore TrimSpace_id ParseFloat_none genderRunner twoPlaced = Ret 5%float
  /\ CalculateScore TrimSpace_id ParseFloat_none genderRunner allPlaced = Ret 9%float
  /\ IsTerminal twoPlaced = false /\ IsTerminal allPlaced = true
  /\ existsb undersized (Groups allPlaced) = false
  /\ (9 <=? 5)%float = false
  /\ PrioritySearch.CalculateMaxPotentialScore TrimSpace_id ParseFloat_none genderRunner twoPlaced
     = Ret 2%float
  /\ PrioritySearch.CalculateScore TrimSpace_id ParseFloat_none genderRunner allPlaced
     = Ret 2%float.
Proof. vm_compute. repeat split; reflexivity. Qed.

(** C6.  A Nearness rule on a tag that no item carries makes the global
    spread 0, every distribution ratio 0/0 and every feasible score NaN.  The
    sentinel of the infeasible state is then not at or below the feasible
    score, and the search, which only moves on [>], returns the infeasible
    state although a feasible neighbour exists. *)
Theorem nan_score_not_above_sentinel :
  CalculateScore TrimSpace_id ParseFloat_none locationRunner splitState
  = Ret (- MaxFloat64)%float
  /\ existsb undersized (Groups joinedState) = false
  /\ CalculateScore TrimSpace_id ParseFloat_none locationRunner joinedState = Ret nan
  /\ (- MaxFloat64 <=? nan)%float = false
  /\ GetArrangement TrimSpace_id ParseFloat_none 10 neverDone twoPlain locationRule looseGroups
     = Ret (inl (Groups splitState))
  /\ GetArrangement TrimSpace_id ParseFloat_none 10 neverDone twoPlain [] looseGroups
     = Ret (inl [mkGroup "Group 1" 1 2 [];
                 mkGroup "Group 2" 2 2 [plainItem "b"; plainItem "a"]]).
Proof. vm_compute. repeat split; reflexivity. Qed.

(** C8.  The same infeasible input with a Relationship rule of weight 1:
    [CalculateScore] returns the sentinel before any rule is looked at, the
    panic is never reached, and the run returns a normal arrangement.  With
    room for a feasible state the run does panic, and so does the earlier
    revision on the infeasible input, where the initial partial state is
    scored first. *)
Theorem relationship_rule_not_reached (fuel : nat) (ctx : nat -> bool) :
  validateInput (newRunner loneItem relationshipRule pairGroup) = None
  /\ GetArrangement TrimSpace_id ParseFloat_none (S fuel) ctx loneItem relationshipRule pairGroup
     = Ret (inl [mkGroup "Group 1" 2 2 [plainItem "a"]])
  /\ GetArrangement TrimSpace_id ParseFloat_none (S fuel) ctx loneItem relationshipRule
       [mkGroup "Group 1" 1 2 []]
     = Panic "RuleTypeRelationship not yet implemented"
  /\ PrioritySearch.GetArrangement TrimSpace_id ParseFloat_none fuel ctx loneItem
       relationshipRule pairGroup
     = Panic "RuleTypeRelationship not yet implemented".
Proof.
  split; [reflexivity|]. split; [|split].
  - vm_compute. destruct (ctx O); reflexivity.
  - vm_compute. reflexivity.
  - vm_compute. reflexivity.
Qed.

(** The earlier revision of [Group.digest] does not sort: the digest of a
    group changes with the order of its items. *)
Lemma unsorted_digest_depends_on_order :
  Group_digest_unsorted (mkGroup "Group 1" 1 2 [plainItem "a"; plainItem "b"])
  <> Group_digest_unsorted (mkGroup "Group 1" 1 2 [plainItem "b"; plainItem "a"]).
Proof. vm_compute. discriminate. Qed.

Lemma digest_canonical_witness :
  sameArrangement arrangedOneWay arrangedOtherWay
  /\ State_digest arrangedOneWay = State_digest arrangedOtherWay.
Proof.
  assert (Hsame : sameArrangement arrangedOneWay arrangedOtherWay).
  { exists [mkGroup "Group 2" 1 2 [plainItem "c"];
            mkGroup "Group 1" 1 2 [plainItem "a"; plainItem "b"]].
    split; [apply Permutation_swap|].
    constructor; [unfold sameItemSets; reflexivity|]. constructor; [|constructor].
    unfold sameItemSets. simpl. apply Permutation_swap. }
  split; [exact Hsame|]. exact (digest_canonical arrangedOneWay arrangedOtherWay Hsame).
Defined.

Lemma empty_tag_values_neutral_witness :
  clean mixedItems
  /\ drawnFrom (items mixedRunner) mixedState
  /\ scoreRule TrimSpace_id ParseFloat_none mixedRunner mixedState
       (mkRule "gender" RuleTypeSameness 1) 0%float
     = scoreRule TrimSpace_id ParseFloat_none
         (set_items mixedRunner (withoutEmpty "gender" (items mixedRunner)))
         (dropEmpty "gender" mixedState) (mkRule "gender" RuleTypeSameness 1) 0%float.
Proof.
  assert (Hclean : clean mixedItems) by (repeat constructor).
  assert (Hdrawn : drawnFrom (items mixedRunner) mixedState).
  { repeat constructor. }
  split; [exact Hclean|]. split; [exact Hdrawn|].
  apply (empty_tag_values_neutral TrimSpace_id ParseFloat_none mixedRunner mixedItems
           (mkRule "gender" RuleTypeSameness 1) mixedState 0%float Hclean eq_refl Hdrawn).
Defined.

(** ** Instances of the further properties *)

Lemma getBestNextStateFrom_improves_witness :
  exists best,
    getBestNextStateFrom TrimSpace_id ParseFloat_none basicRunner mixedUp = Ret best
    /\ improvesOn mixedUp best.
Proof.
  eexists. split; [vm_compute; reflexivity|].
  apply (getBestNextStateFrom_improves TrimSpace_id ParseFloat_none basicRunner mixedUp).
  vm_compute. reflexivity.
Defined.

Lemma run_returns_first_or_better_witness :
  currentPermutation basicRunner = None
  /\ exists res r',
       run TrimSpace_id ParseFloat_none 100 neverDone basicRunner = Ret (res, r')
       /\ rules r' = rules basicRunner /\ groups r' = groups basicRunner
       /\ items r' = clearNearnessTagPoints (items basicRunner).
Proof.
  split; [reflexivity|]. eexists _, _. split; [vm_compute; reflexivity|].
  pose proof (run_returns_first_or_better TrimSpace_id ParseFloat_none 100 neverDone
                basicRunner _ _ eq_refl ltac:(vm_compute; reflexivity)) as H.
  destruct H as (Hr & Hg & Hi & _). split; [exact Hr|]. split; [exact Hg|exact Hi].
Defined.

Lemma cancelled_run_returns_first_state_witness :
  validateInput basicRunner = None /\ doneAtOnce O = true
  /\ GetArrangement TrimSpace_id ParseFloat_none 1 doneAtOnce basicItems genderRule basicGroups
     = Ret (inl basicResult).
Proof.
  split; [reflexivity|]. split; [reflexivity|].
  rewrite (cancelled_run_returns_first_state TrimSpace_id ParseFloat_none 0 doneAtOnce
             basicItems genderRule basicGroups eq_refl eq_refl).
  vm_compute. reflexivity.
Defined.

Lemma no_items_index_out_of_range_witness :
  validateInput (newRunner [] genderRule basicGroups) = None
  /\ CalculateScore TrimSpace_id ParseFloat_none (newRunner [] genderRule basicGroups)
       (mkState (map emptyGroup basicGroups) [] 0%float) = Ret 0%float
  /\ GetArrangement TrimSpace_id ParseFloat_none 5 neverDone [] genderRule basicGroups
     = Panic "index out of range".
Proof.
  split; [reflexivity|]. split; [vm_compute; reflexivity|].
  exact (no_items_index_out_of_range TrimSpace_id ParseFloat_none 4 neverDone
           genderRule basicGroups 0%float eq_refl ltac:(vm_compute; reflexivity)).
Defined.

Lemma scatter_terminates_witness :
  int_range (totalMaxSize (groups basicRunner)) /\ validateInput basicRunner = None
  /\ scatter TrimSpace_id ParseFloat_none basicRunner [1; 0; 1; 0]%nat <> Diverges.
Proof.
  assert (Hrange : int_range (totalMaxSize (groups basicRunner))).
  { unfold int_range, int_min, int_max. simpl. lia. }
  split; [exact Hrange|]. split; [reflexivity|].
  exact (scatter_terminates TrimSpace_id ParseFloat_none basicRunner [1; 0; 1; 0]%nat
           Hrange eq_refl).
Defined.

Lemma scatter_meets_minimum_sizes_witness :
  totalNeeded (map emptyGroup (groups basicRunner)) <= Z.of_nat (length (items basicRunner))
  /\ exists s,
       scatter TrimSpace_id ParseFloat_none basicRunner [1; 0; 1; 0]%nat = Ret s
       /\ Forall filled (Groups s) /\ existsb undersized (Groups s) = false.
Proof.
  assert (Hneed : totalNeeded (map emptyGroup (groups basicRunner))
                  <= Z.of_nat (length (items basicRunner))) by (vm_compute; discriminate).
  split; [exact Hneed|]. eexists. split; [vm_compute; reflexivity|].
  apply (scatter_meets_minimum_sizes TrimSpace_id ParseFloat_none basicRunner
           [1; 0; 1; 0]%nat _ Hneed).
  vm_compute. reflexivity.
Defined.

Lemma applyPermutation_index_vector_witness :
  indexVector [1; 0]%nat = true /\ length [1; 0]%nat = length twoPlain
  /\ exists l, applyPermutation [1; 0]%nat twoPlain = Ret l /\ l ≡ₚ twoPlain.
Proof.
  split; [reflexivity|]. split; [reflexivity|].
  exact (proj1 (applyPermutation_index_vector [1; 0]%nat twoPlain eq_refl eq_refl)).
Defined.

Lemma incrementPermutation_successor_witness :
  let perm := [0; 1; 0]%nat in
  perm <> [] /\ indexVector perm = true
  /\ incrementPermutation 2 perm = [1; 0; 0]%nat
  /\ rank (incrementPermutation 2 perm) = rank perm + 1.
Proof.
  cbv zeta. split; [discriminate|]. split; [reflexivity|]. split; [reflexivity|].
  exact (proj1 (proj2 (incrementPermutation_successor [0; 1; 0]%nat
                         ltac:(discriminate) eq_refl))).
Defined.

Lemma getRandomState_enumerates_witness :
  currentPermutation bothDrawn = Some [1; 0]%nat /\ indexVector [1; 0]%nat = true
  /\ getRandomState TrimSpace_id ParseFloat_none bothDrawn
     = Ret (None, set_currentPermutation bothDrawn (Some [2; 0]%nat)).
Proof.
  split; [reflexivity|]. split; [reflexivity|].
  exact (getRandomState_enumerates TrimSpace_id ParseFloat_none bothDrawn [1; 0]%nat
           eq_refl eq_refl).
Defined.

Lemma parsePoint_one_comma_witness :
  parsePoint TrimSpace_id ParseFloat_zero "1,2" = Some (Point 0 0)
  /\ exists a b, "1,2"%string = (a ++ "," ++ b)%string /\ commas a = O /\ commas b = O.
Proof.
  split; [reflexivity|].
  destruct (proj2 (parsePoint_one_comma TrimSpace_id ParseFloat_zero "1,2")
              (Point 0 0) eq_refl) as (a & b & Hstr & Ha & Hb & _).
  exists a, b. split; [exact Hstr|]. split; [exact Ha|exact Hb].
Defined.

Lemma factorial_spec_witness : 0 <= 5 <= 20 /\ factorial 5 = factorialOf 5.
Proof.
  split; [lia|].
  apply (proj2 (proj2 (factorial_spec 5))). lia.
Defined.

Lemma getPossibleNextStatesFrom_children_witness :
  exists children,
    PrioritySearch.getPossibleNextStatesFrom TrimSpace_id ParseFloat_none genderRunner oneSeated
    = Ret children
    /\ length children = 2%nat
    /\ exists idxs : list nat,
         Forall2 (placesNextAt oneSeated) idxs children
         /\ StronglySorted Nat.lt idxs
         /\ (length (List.filter (emptyAt oneSeated) idxs) <= 1)%nat
         /\ Forall (placesNext oneSeated) children
         /\ (length children <= length (Groups oneSeated))%nat.
Proof.
  eexists. split; [vm_compute; reflexivity|]. split; [reflexivity|].
  apply (getPossibleNextStatesFrom_children TrimSpace_id ParseFloat_none genderRunner oneSeated).
  vm_compute. reflexivity.
Defined.

Lemma priority_search_arrangement_witness :
  exists result,
    PrioritySearch.GetArrangement TrimSpace_id ParseFloat_none 100 neverDone
      basicItems genderRule basicGroups = Ret (inl result)
    /\ concat (map Items result) ≡ₚ clearNearnessTagPoints basicItems
    /\ map emptyGroup result = map emptyGroup basicGroups.
Proof.
  eexists. split; [vm_compute; reflexivity|].
  pose proof (priority_search_arrangement TrimSpace_id ParseFloat_none 100 neverDone
                basicItems genderRule basicGroups _ ltac:(vm_compute; reflexivity)) as H.
  destruct H as (Hitems & Hshape & _). split; [exact Hitems|exact Hshape].
Defined.

Lemma insertStateToTry_sorted_witness :
  Forall (fun s => PrimFloat.is_nan (Score s) = false) [scored 3; scored 1]
  /\ StronglySorted notBelow [scored 3; scored 1]
  /\ PrioritySearch.insertStateToTry [scored 3; scored 1] (scored 2)
     = [scored 3; scored 2; scored 1]
  /\ StronglySorted notBelow (PrioritySearch.insertStateToTry [scored 3; scored 1] (scored 2)).
Proof.
  assert (Hnum : Forall (fun s => PrimFloat.is_nan (Score s) = false) [scored 3; scored 1]).
  { repeat constructor. }
  assert (Hsorted : StronglySorted notBelow [scored 3; scored 1]).
  { repeat constructor. }
  split; [exact Hnum|]. split; [exact Hsorted|]. split; [vm_compute; reflexivity|].
  exact (proj2 (insertStateToTry_sorted [scored 3; scored 1] (scored 2)) Hnum Hsorted).
Defined.

Lemma readItemsFromCSV_items_witness :
  Forall (fun record => (1 <= length record <= 2)%nat) [["guy1"; "m"]; ["girl1"; "f"]]%string
  /\ readItemsFromCSV [["ID"; "gender"]; ["guy1"; "m"]; ["girl1"; "f"]]%string
     = Ret [taggedItem "guy1" "gender" "m"; taggedItem "girl1" "gender" "f"].
Proof.
  assert (Hrecords : Forall (fun record => (1 <= length record <= 2)%nat)
                       [["guy1"; "m"]; ["girl1"; "f"]]%string).
  { repeat constructor. }
  split; [exact Hrecords|].
  exact (proj1 (readItemsFromCSV_items "ID" ["gender"]%string
                  [["guy1"; "m"]; ["girl1"; "f"]]%string Hrecords)).
Defined.

Lemma priority_search_terminates_witness :
  (searchTreeSize (length basicGroups) (length basicItems) < 100)%nat
  /\ PrioritySearch.GetArrangement TrimSpace_id ParseFloat_none 100 neverDone
       basicItems genderRule basicGroups <> Diverges.
Proof.
  assert (Hfuel : (searchTreeSize (length basicGroups) (length basicItems) < 100)%nat)
    by (simpl; lia).
  split; [exact Hfuel|].
  exact (priority_search_terminates TrimSpace_id ParseFloat_none 100 neverDone
           basicItems genderRule basicGroups Hfuel).
Defined.

Lemma run_terminates_witness :
  int_range (totalMaxSize basicGroups)
  /\ exists fuel, forall fuel', (fuel <= fuel')%nat ->
       GetArrangement TrimSpace_id ParseFloat_none fuel' neverDone
         basicItems genderRule basicGroups <> Diverges.
Proof.
  assert (Hrange : int_range (totalMaxSize basicGroups)).
  { unfold int_range, int_min, int_max. simpl. lia. }
  split; [exact Hrange|].
  exact (run_terminates TrimSpace_id ParseFloat_none neverDone
           basicItems genderRule basicGroups Hrange).
Defined.
